(** * ttn-ulm-feinstaub: the duty cycle of the particulate matter node

    A shallow embedding of [ttnulmdust/ttnulmdust.ino]: the watchdog
    interrupt handler, [bubbleSort], [median] and one pass of [loop], with
    the properties of the written specification stated over them.

    Conventions.
    - [float] is IEEE-754 binary32 (what avr-gcc calls both [float] and
      [double]), taken from the Standard Library's executable
      specification [SpecFloat] at precision 24 and maximal exponent 128.
    - C integers are [Z] with their wrap-around written out.
    - Arrays live in a heap of blocks; a block is a [list float].  The
      sketch passes arrays by pointer and [bubbleSort] works in place, so
      the heap is threaded through [bubbleSort] and [median].
    - The sensor drivers and the radio are the environment: their answers
      are inputs of a cycle, their calls are events of its trace.
    - Where the specification speaks of exact arithmetic (an arithmetic
      mean, a rounding to two decimals) the floats are read as rationals
      by [exact], and the error of [SpecFloat]'s rounding to nearest is
      bounded from its definition. *)

From Stdlib Require Import ZArith QArith Qabs Qpower Qfield Lia Lqa Bool.
From Stdlib Require Import Floats.SpecFloat.
From stdpp Require Import base option list gmap sorting.

Local Open Scope Z_scope.

(* ================================================================== *)
(** ** Binary32 floating point *)
(* ================================================================== *)

Module F32.

Definition prec : Z := 24.
Definition emax : Z := 128.

Definition float : Type := spec_float.

Definition add (x y : float) : float := SFadd prec emax x y.
Definition mul (x y : float) : float := SFmul prec emax x y.
Definition div (x y : float) : float := SFdiv prec emax x y.

(** C's [x > y]: false as soon as one side is a NaN. *)
Definition gt (x y : float) : bool :=
  match SFcompare x y with
  | Some Gt => true
  | _ => false
  end.

(** C's [x == y]. *)
Definition eqb (x y : float) : bool := SFeqb x y.

(** Conversion of an integer constant or variable to [float]. *)
Definition of_Z (n : Z) : float := binary_normalize prec emax n 0 false.

Definition zero : float := S754_zero false.
Definition two : float := Eval vm_compute in of_Z 2.
Definition hundred : float := Eval vm_compute in of_Z 100.

(** Neither a NaN nor an infinity. *)
Definition is_finite (x : float) : bool :=
  match x with
  | S754_zero _ | S754_finite _ _ _ => true
  | _ => false
  end.

Definition is_nan (x : float) : bool :=
  match x with
  | S754_nan => true
  | _ => false
  end.

(** The two zeros compare equal in C; [unsigned_zero] picks one of them,
    so that two floats hold the same value exactly when their images
    agree. *)
Definition unsigned_zero (x : float) : float :=
  match x with
  | S754_zero _ => S754_zero false
  | _ => x
  end.

Definition same_value (x y : float) : Prop :=
  unsigned_zero x = unsigned_zero y.

(** [x <= y] as the negation of [x > y]; a total preorder away from NaN. *)
Definition le (x y : float) : Prop := gt x y = false.

End F32.

Export F32.

(* ================================================================== *)
(** ** C integers *)
(* ================================================================== *)

Definition UINT16_MAX : Z := 65535.

(** Reduction to an unsigned [w]-bit integer. *)
Definition wrap_unsigned (w x : Z) : Z := x mod 2 ^ w.

(** Reduction to a signed [w]-bit integer in two's complement. *)
Definition wrap_signed (w x : Z) : Z :=
  (x + 2 ^ (w - 1)) mod 2 ^ w - 2 ^ (w - 1).

(** [for (int i = lo; i < lo + n; i++) s = body i s]. *)
Fixpoint for_loop {St : Type} (n : nat) (i : Z) (body : Z -> St -> St) (s : St) : St :=
  match n with
  | O => s
  | S n' => for_loop n' (i + 1) body (body i s)
  end.

(* ================================================================== *)
(** ** The watchdog timer interrupt *)
(* ================================================================== *)

(** [ISR(WDT_vect)] on the value of [iWakeCntr] (a [volatile uint16_t]). *)
Definition ISR_WDT_vect (iWakeCntr : Z) : Z :=
  if iWakeCntr >? UINT16_MAX - 1
  then 0
  else wrap_unsigned 16 (iWakeCntr + 1).

(** [k] ticks in a row. *)
Fixpoint ticks (k : nat) (iWakeCntr : Z) : Z :=
  match k with
  | O => iWakeCntr
  | S k' => ticks k' (ISR_WDT_vect iWakeCntr)
  end.

(* ================================================================== *)
(** ** Memory *)
(* ================================================================== *)

Abbreviation addr := positive (only parsing).
Abbreviation heap := (gmap positive (list float)) (only parsing).

Section Machine.

(** What a read outside every block yields.  C leaves such a read
    undefined; the AVR has no memory protection and returns whatever the
    neighbouring bytes hold.  Nothing below depends on the choice unless
    it says so. *)
Variable stray : addr -> Z -> float.

Definition in_block (arr : list float) (i : Z) : bool :=
  (0 <=? i) && (i <? Z.of_nat (length arr)).

(** [A[i]] as an rvalue. *)
Definition load (h : heap) (A : addr) (i : Z) : float :=
  match h !! A with
  | Some arr =>
      if in_block arr i then nth (Z.to_nat i) arr (stray A i) else stray A i
  | None => stray A i
  end.

(** [A[i] = v].  A store outside the block would overwrite a neighbour
    the model does not track; the heap is left as it is, and every
    statement about code that stores carries the bound that keeps the
    store inside. *)
Definition store (h : heap) (A : addr) (i : Z) (v : float) : heap :=
  match h !! A with
  | Some arr =>
      if in_block arr i then <[A := <[Z.to_nat i := v]> arr]> h else h
  | None => h
  end.

(* ================================================================ *)
(** ** bubbleSort *)
(* ================================================================ *)

(** The body of the inner [for], on the pair of the heap and [newn]. *)
Definition bubble_step (A : addr) (p : Z) (st : heap * Z) : heap * Z :=
  let '(h, newn) := st in
  if gt (load h A (p - 1)) (load h A p) then
    let temp := load h A p in
    let h1 := store h A p (load h A (p - 1)) in
    let h2 := store h1 A (p - 1) temp in
    (h2, p)
  else (h, newn).

(** One pass of the [do] body: [newn = 1; for (p = 1; p < len; p++)]. *)
Definition bubble_pass (h : heap) (A : addr) (len : Z) : heap * Z :=
  for_loop (Z.to_nat (len - 1)) 1 (bubble_step A) (h, 1).

(** [do { pass; n = newn; } while (n > 1)], [None] when the passes
    allowed by [fuel] are used up before the loop condition fails. *)
Fixpoint bubbleSort_loop (fuel : nat) (h : heap) (A : addr) (len : Z)
  : option heap :=
  match fuel with
  | O => None
  | S fuel' =>
      let '(h', newn) := bubble_pass h A len in
      let n := newn in
      if n >? 1 then bubbleSort_loop fuel' h' A len else Some h'
  end.

(** The sketch puts no bound on the passes; [len + 1] of them are proved
    below to be enough, so that [None] never comes out for a [len] within
    the block. *)
Definition bubbleSort (h : heap) (A : addr) (len : Z) : option heap :=
  bubbleSort_loop (S (Z.to_nat len)) h A len.

(* ================================================================ *)
(** ** median *)
(* ================================================================ *)

(** The local [float sorted[m]]: a fresh block of [m] cells of
    indeterminate content. *)
Definition alloca (h : heap) (m : Z) : addr * heap :=
  let a := fresh (dom h) in
  (a, <[a := map (fun k => stray a (Z.of_nat k)) (seq 0 (Z.to_nat m))]> h).

Definition median (h : heap) (samples : addr) (m : Z) : option (heap * float) :=
  let '(sorted, h0) := alloca h m in
  let h1 :=
    for_loop (Z.to_nat m) 0
      (fun i hh => store hh sorted i (load hh samples i)) h0 in
  h2 ← bubbleSort h1 sorted m;
  let r :=
    if Z.land m 1 =? 0
    then div (add (load h2 sorted (Z.quot m 2 - 1)) (load h2 sorted (Z.quot m 2))) two
    else load h2 sorted (Z.quot m 2) in
  Some (delete sorted h2, r).

End Machine.

(* ================================================================== *)
(** ** Payload encoding *)
(* ================================================================== *)

(** Modelled from the spec: [round] is not defined by the sketch, it comes
    with the Arduino core.  The spec fixes it as rounding half away from
    zero.  A finite float is [(-1)^s * m * 2^e]; for a negative exponent
    the magnitude is [floor (m / 2^k + 1/2)].  C leaves the conversion of
    an infinity or a NaN to an integer undefined; they are sent to 0. *)
Definition round (x : float) : Z :=
  match x with
  | S754_finite s m e =>
      let mag :=
        match e with
        | Zneg k => (Zpos m + 2 ^ (Zpos k - 1)) / 2 ^ Zpos k
        | _ => Zpos m * 2 ^ e
        end in
      if s then - mag else mag
  | _ => 0
  end.

(** Modelled from the spec: [highByte] and [lowByte] are macros of the
    Arduino core, absent from the sketch: bits 15..8 and bits 7..0 of a
    16-bit word, the field being serialised high byte first. *)
Definition highByte (w : Z) : Z := Z.land (Z.shiftr w 8) 255.
Definition lowByte (w : Z) : Z := Z.land w 255.

(** The eight assignments to [payload[0..7]]. *)
Definition encode (p10int p25int hint tint : Z) : list Z :=
  [ highByte p10int; lowByte p10int;
    highByte p25int; lowByte p25int;
    highByte hint; lowByte hint;
    highByte tint; lowByte tint ].

(** [int16_t pint = round(pmedian * 100)]. *)
Definition fixed_point (pmedian : float) : Z :=
  wrap_signed 16 (round (mul pmedian hundred)).

(* ================================================================== *)
(** ** One pass of loop *)
(* ================================================================== *)

(** Modelled from the spec: [configuration.h] is absent; the sketch reads
    from it the two feature toggles and the two durations below (the fan
    warm-up in seconds, the sleep interval in minutes). *)
Record configuration := {
  SLEEP_ON : bool;
  PWR_DOWN : bool;
  FAN_SPINUP : Z;
  SLEEP_TIME : Z
}.

(** What one call of [my_sds.read(&p25, &p10)] returns and leaves in the
    two variables. *)
Record sds_reply := {
  sds_error : Z;
  sds_p25 : float;
  sds_p10 : float
}.

(** The answers of the drivers during one cycle. *)
Record environment := {
  readHumidity : Z;
  readTemperature : Z;
  sds_read : Z -> sds_reply
}.

(** The calls that leave the sketch. *)
Inductive event :=
| SdsWakeup
| Delay (ms : Z)
| SendBytes (payload : list Z) (size : Z)
| SdsSleep
| EnterSleepFor (minutes : Z).

(** The global variables of the sketch; the two sample arrays are blocks
    of the heap. *)
Record globals := {
  mem : heap;
  p10 : float;
  p25 : float;
  error : Z
}.

Definition samples_p10 : addr := 1%positive.
Definition samples_p25 : addr := 2%positive.

(** Static storage is zero-initialised. *)
Definition boot : globals :=
  {| mem := <[samples_p10 := replicate 10 zero]>
              (<[samples_p25 := replicate 10 zero]> ∅);
     p10 := zero; p25 := zero; error := 0 |}.

(** The body of the sampling [for]. *)
Definition sample_step (env : environment) (delay2 : Z) (i : Z)
    (st : globals * list event) : globals * list event :=
  let '(g, tr) := st in
  let r := sds_read env i in
  let g1 := {| mem := mem g; p10 := sds_p10 r; p25 := sds_p25 r;
               error := sds_error r |} in
  let g2 :=
    if error g1 =? 0 then
      let h1 := store (mem g1) samples_p25 i (p25 g1) in
      let h2 := store h1 samples_p10 i (p10 g1) in
      {| mem := h2; p10 := p10 g1; p25 := p25 g1; error := error g1 |}
    else g1 in
  (g2, tr ++ [Delay (wrap_unsigned 32 delay2)]).

(** The argument of the last [delay], a [long] expression converted to
    [unsigned long]. *)
Definition fallback_delay (cfg : configuration) (delay1 samples delay2 : Z) : Z :=
  wrap_unsigned 32
    (wrap_signed 32
       (wrap_signed 32 (1000 * 60 * SLEEP_TIME cfg)
        - wrap_signed 32 (delay1 + wrap_signed 32 (samples * delay2)))).

Section Loop.

Variable stray : addr -> Z -> float.
Variable cfg : configuration.

Definition loop (env : environment) (g : globals)
  : option (globals * list event) :=
  let delay1 := wrap_signed 32 (1000 * FAN_SPINUP cfg) in
  let tr0 :=
    if SLEEP_ON cfg
    then [SdsWakeup; Delay (wrap_unsigned 32 delay1)]
    else [] in
  let hint := wrap_signed 16 (readHumidity env) in
  let tint := wrap_signed 16 (readTemperature env) in
  let delay2 := 1100 in
  let samples := 10 in
  let '(g1, tr1) :=
    for_loop (Z.to_nat samples) 0 (sample_step env delay2) (g, tr0) in
  '(h2, p25median) ← median stray (mem g1) samples_p25 10;
  '(h3, p10median) ← median stray h2 samples_p10 10;
  let p10int := fixed_point p10median in
  let p25int := fixed_point p25median in
  let payload := encode p10int p25int hint tint in
  let tr2 := tr1 ++ [SendBytes payload (Z.of_nat (length payload))] in
  let tr3 :=
    if SLEEP_ON cfg then
      tr2 ++ [SdsSleep] ++
      (if PWR_DOWN cfg
       then [EnterSleepFor (SLEEP_TIME cfg)]
       else [Delay (fallback_delay cfg delay1 samples delay2)])
    else tr2 in
  Some ({| mem := h3; p10 := p10 g1; p25 := p25 g1; error := error g1 |}, tr3).

End Loop.

(* ================================================================== *)
(** ** Lists as the content of a block *)
(* ================================================================== *)

(** One pass of [bubbleSort] seen on the content of the block: [c] is the
    cell at [p - 1] (the element being carried upwards), [rest] the cells
    from [p] on. *)
Fixpoint bub (c : float) (rest : list float) : list float :=
  match rest with
  | [] => [c]
  | y :: rest' => if gt c y then y :: bub c rest' else c :: bub y rest'
  end.

(** The value of [newn] after the same pass. *)
Fixpoint bub_newn (p : Z) (c : float) (rest : list float) (newn : Z) : Z :=
  match rest with
  | [] => newn
  | y :: rest' =>
      if gt c y then bub_newn (p + 1) c rest' p
      else bub_newn (p + 1) y rest' newn
  end.

Definition pass_list (l : list float) : list float :=
  match l with
  | [] => []
  | x :: r => bub x r
  end.

Definition newn_list (l : list float) : Z :=
  match l with
  | [] => 1
  | x :: r => bub_newn 1 x r 1
  end.

(** The [do ... while] on the content of the block. *)
Fixpoint sort_list (fuel : nat) (l : list float) : option (list float) :=
  match fuel with
  | O => None
  | S fuel' =>
      if newn_list l >? 1 then sort_list fuel' (pass_list l)
      else Some (pass_list l)
  end.

(** Position of the last out-of-order pair: the largest [q] with
    [l[q - p] > l[q - p + 1]], where [p] is the index given to the second
    cell of [l]; 0 when no pair is out of order. *)
Fixpoint last_ooo (p : nat) (l : list float) : nat :=
  match l with
  | a :: t =>
      match t with
      | b :: _ =>
          match last_ooo (S p) t with
          | O => if gt a b then p else O
          | k => k
          end
      | [] => O
      end
  | [] => O
  end.

(** The same among the first [len] cells of a block: the largest [p] with
    [1 <= p < len] and [A[p - 1] > A[p]], or 0. *)
Definition last_out_of_order (arr : list float) (len : Z) : nat :=
  last_ooo 1 (take (Z.to_nat len) arr).

(** The even/odd midpoint rule of the specification, on a list taken as
    sorted: the middle element of an odd count, the arithmetic mean of the
    two middle elements of an even count. *)
Definition midpoint (s : list float) : float :=
  let n := length s in
  if Nat.even n
  then div (add (nth (n / 2 - 1) s zero) (nth (n / 2) s zero)) two
  else nth (n / 2) s zero.

(** No cell is a NaN. *)
Definition no_nan (l : list float) : Prop :=
  Forall (fun x => is_nan x = false) l.

(** The globals after the attempts [i .. i + n - 1] of the sampling loop. *)
Definition sampled (env : environment) (delay2 : Z) (n : nat) (i : Z)
    (g : globals) : globals :=
  fst (for_loop n i (sample_step env delay2) (g, [])).

(** The cell a block holds after attempt [i], [old] being what it held
    before. *)
Definition slot_after (env : environment) (pick : sds_reply -> float)
    (i : Z) (old : float) : float :=
  if sds_error (sds_read env i) =? 0 then pick (sds_read env i) else old.

(** The calls of a cycle before sampling and after the uplink. *)
Definition wake_trace (cfg : configuration) : list event :=
  if SLEEP_ON cfg
  then [SdsWakeup; Delay (wrap_unsigned 32 (wrap_signed 32 (1000 * FAN_SPINUP cfg)))]
  else [].

Definition sleep_trace (cfg : configuration) : list event :=
  if SLEEP_ON cfg then
    SdsSleep ::
    (if PWR_DOWN cfg
     then [EnterSleepFor (SLEEP_TIME cfg)]
     else [Delay (fallback_delay cfg (wrap_signed 32 (1000 * FAN_SPINUP cfg)) 10 1100)])
  else [].

(** How many payloads a trace hands to [sendBytes]. *)
Fixpoint count_sends (tr : list event) : nat :=
  match tr with
  | [] => O
  | SendBytes _ _ :: tr' => S (count_sends tr')
  | _ :: tr' => count_sends tr'
  end.

(** A 16-bit field high byte first, by division: the reading of the wire
    format, against which [highByte] and [lowByte] are compared. *)
Definition be16 (w : Z) : list Z :=
  [ (w mod 65536) / 256; (w mod 65536) mod 256 ].

(** The signed 16-bit field two bytes stand for. *)
Definition of_be16 (hi lo : Z) : Z := wrap_signed 16 (256 * hi + lo).

(** The rational a finite float stands for (0 for the others). *)
Definition exact (x : float) : Q :=
  match x with
  | S754_finite s m e =>
      let n := if s then Zneg m else Zpos m in
      match e with
      | Zneg k => Qmake n (2 ^ k)%positive
      | _ => Qmake (n * 2 ^ e) 1
      end
  | _ => 0%Q
  end.

(** The integer nearest to a rational, halves away from zero. *)
Definition round_half_away (q : Q) : Z :=
  let n := Qnum q in
  let d := Zpos (Qden q) in
  if 0 <=? n then (2 * n + d) / (2 * d) else - ((2 * - n + d) / (2 * d)).

(** The symmetric decoder of the specification and its [round(x, 2)]. *)
Definition decode (field : Z) : Q := Qmake field 100.
Definition round2 (x : float) : Q :=
  Qmake (round_half_away (exact x * Qmake 100 1)) 100.

(** The arithmetic mean of two rationals. *)
Definition mean (a b : Q) : Q := ((a + b) / (2 # 1))%Q.

(* ================================================================== *)
(** ** Rounding to nearest, as [SpecFloat] computes it *)
(* ================================================================== *)

(** Two to the power [e], [e] of either sign. *)
Definition pow2 (e : Z) : Q :=
  match e with
  | Zneg k => Qmake 1 (2 ^ k)%positive
  | _ => Qmake (2 ^ e) 1
  end.

(** The sign bit of a float as a factor. *)
Definition sgn (s : bool) : Q := if s then (-1 # 1)%Q else 1%Q.

(** The exponent binary32 rounds at for a magnitude in
    [[2^(e-1), 2^e)]: 24 digits are kept, none below [2^-149]. *)
Definition fexp32 (e : Z) : Z := Z.max (e - 24) (-149).

(** Where the magnitude [N / P] lies against the integer [m], in the
    terms of [SpecFloat.location]: on [m], or strictly between [m] and
    [m + 1], below, at or above the middle. *)
Definition located (N P m : Z) (l : location) : Prop :=
  match l with
  | loc_Exact => N = m * P
  | loc_Inexact Lt => m * P < N /\ 2 * N < (2 * m + 1) * P
  | loc_Inexact Eq => 2 * N = (2 * m + 1) * P
  | loc_Inexact Gt => (2 * m + 1) * P < 2 * N /\ N < (m + 1) * P
  end.

(** The last step of [binary_round_aux]: the float of a rounded mantissa
    and its exponent, an infinity past the largest exponent. *)
Definition finish (sx : bool) (m e : Z) : float :=
  match m with
  | Z0 => S754_zero sx
  | Zpos p => if e <=? emax - prec then S754_finite sx p e else S754_infinity sx
  | Zneg _ => S754_nan
  end.

(** A magnitude below [2^128], read off the digits of the mantissa. *)
Definition below_overflow (x : float) : Prop :=
  match x with
  | S754_finite _ m e => Zdigits2 (Zpos m) + e <= 128
  | _ => True
  end.

(* ================================================================== *)
(** ** Concrete inputs of the examples *)
(* ================================================================== *)

(** Neighbouring memory that reads as 0.0. *)
Definition no_stray : addr -> Z -> float := fun _ _ => zero.

(** A block holding 20.0, 10.0, 15.0. *)
Definition demo_block : addr := 5%positive.
Definition demo_cells : list float :=
  Eval vm_compute in [of_Z 20; of_Z 10; of_Z 15].
Definition demo_heap : heap := <[demo_block := demo_cells]> ∅.

(** A configuration without deep power-down: one minute of fan warm-up,
    five minutes between cycles. *)
Definition demo_config : configuration :=
  {| SLEEP_ON := true; PWR_DOWN := false; FAN_SPINUP := 60; SLEEP_TIME := 5 |}.

(** The same with a sleep interval of one minute, shorter than warm-up plus
    sampling. *)
Definition short_sleep : configuration :=
  {| SLEEP_ON := true; PWR_DOWN := false; FAN_SPINUP := 60; SLEEP_TIME := 1 |}.

Definition seven : float := Eval vm_compute in of_Z 7.

(** A cycle in which every read of the particulate sensor fails. *)
Definition failing_sensor : environment :=
  {| readHumidity := 55; readTemperature := -3;
     sds_read := fun _ => {| sds_error := 1; sds_p25 := zero; sds_p10 := zero |} |}.

(** A cycle in which the first read alone succeeds, with 7.0 on both
    channels. *)
Definition one_good_read : environment :=
  {| readHumidity := 55; readTemperature := -3;
     sds_read := fun i => {| sds_error := if i =? 0 then 0 else 1;
                             sds_p25 := seven; sds_p10 := seven |} |}.

(** The binary32 nearest to 0.005, 10737418 * 2^-31, a little below it. *)
Definition half_cent : float :=
  Eval vm_compute in div (of_Z 5) (of_Z 1000).

Definition fifteen : float := Eval vm_compute in of_Z 15.

(** A block holding the two samples 10.0 and 20.0. *)
Definition pair_cells : list float := Eval vm_compute in [of_Z 10; of_Z 20].
Definition pair_heap : heap := <[demo_block := pair_cells]> ∅.

(* ================================================================== *)
(** ** Cycles in a row, and what their traces hold *)
(* ================================================================== *)

(** Modelled from the spec: the sketch defines [loop] and leaves calling
    it to the Arduino core, which calls it again as soon as it returns,
    for ever.  [cycles] is the first [length envs] of these calls, the
    drivers answering as [envs] says, cycle by cycle. *)
Fixpoint cycles (stray : addr -> Z -> float) (cfg : configuration)
    (envs : list environment) (g : globals) : option (globals * list event) :=
  match envs with
  | [] => Some (g, [])
  | env :: rest =>
      '(g1, tr1) ← loop stray cfg env g;
      '(g2, tr2) ← cycles stray cfg rest g1;
      Some (g2, tr1 ++ tr2)
  end.

(** The payloads a trace hands to [sendBytes], in order. *)
Fixpoint sent (tr : list event) : list (list Z) :=
  match tr with
  | [] => []
  | SendBytes payload _ :: tr' => payload :: sent tr'
  | _ :: tr' => sent tr'
  end.

(** The milliseconds a trace spends in [delay]. *)
Fixpoint sum_delays (tr : list event) : Z :=
  match tr with
  | [] => 0
  | Delay ms :: tr' => ms + sum_delays tr'
  | _ :: tr' => sum_delays tr'
  end.

(** The two sample arrays are there, ten cells each. *)
Definition well_formed (g : globals) : Prop :=
  exists a b,
    mem g !! samples_p10 = Some a /\ mem g !! samples_p25 = Some b
    /\ length a = 10%nat /\ length b = 10%nat.

(** What cell [j] of a sample array holds after the cycles [envs], [old]
    being what it held before them. *)
Definition latest (pick : sds_reply -> float) (j : nat)
    (envs : list environment) (old : float) : float :=
  fold_left (fun o env => slot_after env pick (Z.of_nat j) o) envs old.

(** [median] as a function of the content of the sample block. *)
Definition median_of (arr : list float) (m : Z) : option float :=
  midpoint <$> sort_list (S (Z.to_nat m)) (take (Z.to_nat m) arr).

(** How many cells satisfy [f]. *)
Fixpoint count_if (f : float -> bool) (l : list float) : nat :=
  match l with
  | [] => O
  | x :: l' => if f x then S (count_if f l') else count_if f l'
  end.

(** A second block, at another address of another heap, that agrees with
    [demo_cells] on its first two cells: 20.0, 10.0, 7.0, 7.0. *)
Definition twin_block : addr := 9%positive.
Definition twin_cells : list float :=
  Eval vm_compute in [of_Z 20; of_Z 10; of_Z 7; of_Z 7].
Definition twin_heap : heap :=
  <[twin_block := twin_cells]> (<[demo_block := pair_cells]> ∅).

(** 400.0, beyond what the 16-bit field holds once scaled by 100. *)
Definition four_hundred : float := Eval vm_compute in of_Z 400.

(** A cycle in which every read succeeds, attempt [i] reading [i] on PM2.5
    and [2 i] on PM10. *)
Definition good_sensor : environment :=
  {| readHumidity := 40; readTemperature := 21;
     sds_read := fun i => {| sds_error := 0; sds_p25 := of_Z i;
                             sds_p10 := of_Z (2 * i) |} |}.

(** Globals as a cycle of [good_sensor] would find them after another
    history: every cell at 7.0. *)
Definition sevens : globals :=
  {| mem := <[samples_p10 := replicate 10 seven]>
              (<[samples_p25 := replicate 10 seven]> ∅);
     p10 := seven; p25 := seven; error := 1 |}.

(** The binary32 nearest to 3e38, a finite float: twice it is past the
    largest one. *)
Definition huge : float := Eval vm_compute in of_Z (3 * 10 ^ 38).
Definition huge_cells : list float := [huge; huge].
Definition huge_heap : heap := <[demo_block := huge_cells]> ∅.

(** The binary32 nearest to 20.98, 10999562 * 2^-19, and the one nearest
    to 0.1, 13421773 * 2^-27. *)
Definition pm_20_98 : float := Eval vm_compute in div (of_Z 2098) hundred.
Definition tenth : float := Eval vm_compute in div (of_Z 1) (of_Z 10).

(* ================================================================== *)
(** ** The order of binary32 *)
(* ================================================================== *)

Section FloatOrder.

Ltac order_cases :=
  repeat match goal with
    | |- context [Z.compare ?a ?b] => destruct (Z.compare_spec a b)
    | |- context [Pos.compare_cont Eq ?a ?b] =>
        change (Pos.compare_cont Eq a b) with (Pos.compare a b);
        destruct (Pos.compare_spec a b)
    end;
  simpl in *; try congruence; try lia.

Ltac float_cases x := destruct x as [[]|[]| |[] ? ?].

Lemma gt_irrefl x : gt x x = false.
Proof.
  unfold gt. float_cases x; simpl; try reflexivity;
    order_cases.
Qed.

Lemma gt_asym x y : gt x y = true -> gt y x = false.
Proof.
  unfold gt. float_cases x; float_cases y; simpl; try congruence;
    order_cases.
Qed.

Lemma gt_trans x y z : gt x y = true -> gt y z = true -> gt x z = true.
Proof.
  unfold gt. float_cases x; float_cases y; simpl; try congruence;
    float_cases z; simpl; try congruence;
    order_cases.
Qed.

Lemma le_trans x y z :
  is_nan y = false -> le x y -> le y z -> le x z.
Proof.
  unfold le, gt. float_cases x; float_cases y; simpl; try congruence;
    float_cases z; simpl; try congruence;
    order_cases.
Qed.

Lemma le_antisym x y :
  is_nan x = false -> is_nan y = false ->
  le x y -> le y x -> same_value x y.
Proof.
  unfold le, gt, same_value.
  float_cases x; float_cases y; simpl; try congruence;
    order_cases.
Qed.

Lemma gt_unsigned_zero x y : gt (unsigned_zero x) (unsigned_zero y) = gt x y.
Proof. unfold gt. float_cases x; float_cases y; reflexivity. Qed.

Lemma unsigned_zero_idemp x : unsigned_zero (unsigned_zero x) = unsigned_zero x.
Proof. by destruct x. Qed.

Lemma is_nan_unsigned_zero x : is_nan (unsigned_zero x) = is_nan x.
Proof. by destruct x. Qed.

Lemma add_same_value x x' y y' :
  same_value x x' -> same_value y y' -> same_value (add x y) (add x' y').
Proof.
  unfold same_value.
  destruct x as [[]|[]| |sx mx ex], x' as [[]|[]| |sx' mx' ex']; simpl;
    try congruence; intros Hx;
    destruct y as [[]|[]| |sy my ey], y' as [[]|[]| |sy' my' ey']; simpl;
    try congruence; intros Hy; try reflexivity;
    try (injection Hx as -> -> ->); try (injection Hy as -> -> ->);
    try reflexivity.
Qed.

Lemma div_two_same_value x x' :
  same_value x x' -> same_value (div x two) (div x' two).
Proof.
  unfold same_value.
  destruct x as [[]|[]| |sx mx ex], x' as [[]|[]| |sx' mx' ex']; simpl;
    try congruence; intros Hx; try reflexivity;
    try (injection Hx as -> -> ->); reflexivity.
Qed.

End FloatOrder.

(* ================================================================== *)
(** ** One pass on the content of the block *)
(* ================================================================== *)

Section BubbleList.

Implicit Types (c x y : float) (l rest : list float).

Lemma bub_length c rest : length (bub c rest) = S (length rest).
Proof.
  revert c. induction rest as [|y r IH]; intros c; simpl; [done|].
  destruct (gt c y); simpl; by rewrite IH.
Qed.

Lemma bub_perm c rest : bub c rest ≡ₚ c :: rest.
Proof.
  revert c. induction rest as [|y r IH]; intros c; simpl; [done|].
  destruct (gt c y).
  - rewrite IH. apply Permutation_swap.
  - by rewrite IH.
Qed.

Lemma Sorted_le_cons2 x y l :
  Sorted le (x :: y :: l) <-> le x y /\ Sorted le (y :: l).
Proof.
  split.
  - intros H. inv H. match goal with H : HdRel _ _ _ |- _ => inv H end. done.
  - intros [??]. constructor; [done|by constructor].
Qed.

(** A pass over a block without out-of-order pair swaps nothing. *)
Lemma bub_sorted c rest : Sorted le (c :: rest) -> bub c rest = c :: rest.
Proof.
  revert c. induction rest as [|y r IH]; intros c; simpl; [done|].
  rewrite Sorted_le_cons2. intros [Hcy Hs]. unfold le in Hcy.
  rewrite Hcy. by rewrite IH.
Qed.

Lemma bub_newn_sorted p c rest newn :
  Sorted le (c :: rest) -> bub_newn p c rest newn = newn.
Proof.
  revert p c. induction rest as [|y r IH]; intros p c; simpl; [done|].
  rewrite Sorted_le_cons2. intros [Hcy Hs]. unfold le in Hcy.
  rewrite Hcy. by rewrite IH.
Qed.

Lemma last_ooo_cons p a b l :
  last_ooo p (a :: b :: l) =
    match last_ooo (S p) (b :: l) with
    | O => if gt a b then p else O
    | k => k
    end.
Proof. reflexivity. Qed.

Lemma last_ooo_range p l :
  last_ooo p l <> O -> (p <= last_ooo p l < p + length l - 1)%nat.
Proof.
  revert p. induction l as [|a t IH]; intros p; [done|].
  destruct t as [|b t]; [done|]. rewrite last_ooo_cons.
  specialize (IH (S p)). simpl length in *.
  destruct (last_ooo (S p) (b :: t)) as [|k].
  - destruct (gt a b); [lia|done].
  - intros _. lia.
Qed.

Lemma last_ooo_sorted p l :
  (1 <= p)%nat -> last_ooo p l = O <-> Sorted le l.
Proof.
  revert p. induction l as [|a t IH]; intros p Hp.
  { split; [constructor|done]. }
  destruct t as [|b t].
  { split; [by repeat constructor|done]. }
  rewrite last_ooo_cons, Sorted_le_cons2.
  specialize (IH (S p) ltac:(lia)).
  destruct (last_ooo (S p) (b :: t)) as [|k] eqn:E.
  - unfold le. destruct (gt a b); split; try lia; try tauto.
  - split; [done|]. intros [_ Hs]. apply IH in Hs. done.
Qed.

Lemma last_ooo_below p a l k :
  (last_ooo (S p) l < k)%nat -> (p < k)%nat -> (last_ooo p (a :: l) < k)%nat.
Proof.
  destruct l as [|b t]; [simpl; lia|]. rewrite last_ooo_cons.
  destruct (last_ooo (S p) (b :: t)); [|lia]. destruct (gt a b); lia.
Qed.

(** Every cell below the carried one stays in order when the carry is
    larger than the cell it starts from. *)
Lemma bub_keeps_sorted c y rest :
  Sorted le (y :: rest) -> gt c y = true -> Sorted le (y :: bub c rest).
Proof.
  revert y. induction rest as [|z r IH]; intros y Hs Hcy; simpl.
  { apply Sorted_le_cons2. split; [by apply gt_asym|by repeat constructor]. }
  apply Sorted_le_cons2 in Hs as [Hyz Hs].
  destruct (gt c z) eqn:Hcz.
  - apply Sorted_le_cons2. split; [done|]. by apply IH.
  - rewrite (bub_sorted z r Hs).
    apply Sorted_le_cons2. split; [by apply gt_asym|].
    apply Sorted_le_cons2. done.
Qed.

(** The position of the last out-of-order pair goes down in a pass. *)
Lemma bub_last_ooo c y rest p :
  c = y \/ gt c y = true ->
  (1 <= p)%nat ->
  (0 < last_ooo p (y :: rest))%nat ->
  (last_ooo p (bub c rest) < last_ooo p (y :: rest))%nat.
Proof.
  revert c y p. induction rest as [|z r IH]; intros c y p Hc Hp; [simpl; lia|].
  rewrite last_ooo_cons.
  destruct (last_ooo (S p) (z :: r)) as [|k] eqn:E.
  - destruct (gt y z) eqn:Hyz; [intros _|lia].
    assert (gt c z = true) as Hcz.
    { destruct Hc as [->|Hc]; [done|]. by apply gt_trans with y. }
    simpl bub. rewrite Hcz.
    apply (last_ooo_sorted (S p)) in E; [|lia].
    pose proof (bub_keeps_sorted c z r E Hcz) as Hs.
    apply (last_ooo_sorted p) in Hs; [|lia]. lia.
  - intros _.
    pose proof (last_ooo_range (S p) (z :: r)) as Hr.
    rewrite E in Hr. specialize (Hr ltac:(done)).
    simpl bub. destruct (gt c z) eqn:Hcz.
    + specialize (IH c z (S p) (or_intror Hcz) ltac:(lia)).
      rewrite E in IH. specialize (IH ltac:(lia)).
      apply last_ooo_below; lia.
    + specialize (IH z z (S p) (or_introl eq_refl) ltac:(lia)).
      rewrite E in IH. specialize (IH ltac:(lia)).
      apply last_ooo_below; lia.
Qed.

(** [newn] is either left alone or set to a position not before [p]. *)
Lemma bub_newn_ge p c rest newn :
  bub_newn p c rest newn = newn \/ p <= bub_newn p c rest newn.
Proof.
  revert p c newn. induction rest as [|y r IH]; intros p c newn; simpl; [by left|].
  destruct (gt c y).
  - right. destruct (IH (p + 1) c p) as [->|?]; lia.
  - destruct (IH (p + 1) y newn) as [->|?]; [by left|right; lia].
Qed.

(** No swap from [p] on means that the cells from [p - 1] on are in
    order. *)
Lemma bub_newn_exit p c rest newn :
  newn < p -> bub_newn p c rest newn < p -> Sorted le (c :: rest).
Proof.
  revert p c newn. induction rest as [|y r IH]; intros p c newn Hn; simpl.
  { intros _. by repeat constructor. }
  destruct (gt c y) eqn:Hcy.
  - destruct (bub_newn_ge (p + 1) c r p) as [->|?]; lia.
  - intros H. apply Sorted_le_cons2. split; [done|].
    destruct (bub_newn_ge (p + 1) y r newn) as [E|?]; [|lia].
    apply (IH (p + 1) y newn); lia.
Qed.

(** When the loop condition [n > 1] fails, the block is in order. *)
Lemma pass_list_exit l : newn_list l <= 1 -> Sorted le (pass_list l).
Proof.
  destruct l as [|x [|y r]]; simpl; [constructor|by repeat constructor|].
  destruct (gt x y) eqn:Hxy; simpl; intros H.
  - assert (Sorted le (x :: r)) as Hs by (apply (bub_newn_exit (1 + 1) x r 1); lia).
    rewrite (bub_sorted x r Hs).
    apply Sorted_le_cons2. split; [by apply gt_asym|done].
  - assert (Sorted le (y :: r)) as Hs by (apply (bub_newn_exit (1 + 1) y r 1); lia).
    rewrite (bub_sorted y r Hs).
    apply Sorted_le_cons2. done.
Qed.

Lemma pass_list_perm l : pass_list l ≡ₚ l.
Proof. destruct l; simpl; [done|apply bub_perm]. Qed.

Lemma pass_list_length l : length (pass_list l) = length l.
Proof. destruct l; simpl; [done|apply bub_length]. Qed.

Lemma pass_list_sorted l :
  Sorted le l -> pass_list l = l /\ newn_list l = 1.
Proof.
  destruct l as [|x r]; simpl; [done|]. intros Hs.
  by rewrite bub_sorted, bub_newn_sorted.
Qed.

Lemma pass_list_last_ooo l :
  (0 < last_ooo 1 l)%nat -> (last_ooo 1 (pass_list l) < last_ooo 1 l)%nat.
Proof.
  destruct l as [|x r]; simpl pass_list; [simpl; lia|].
  apply bub_last_ooo; [by left|lia].
Qed.

(** The loop ends within [last_ooo 1 l + 1] passes, on a block that is in
    order and holds the cells it started with. *)
Lemma sort_list_terminates fuel l :
  (last_ooo 1 l < fuel)%nat ->
  exists l', sort_list fuel l = Some l' /\ Sorted le l' /\ l' ≡ₚ l.
Proof.
  revert l. induction fuel as [|fuel IH]; intros l Hf; [lia|].
  simpl. destruct (newn_list l >? 1) eqn:Hn.
  - assert (0 < last_ooo 1 l)%nat as Hpos.
    { destruct (last_ooo 1 l) eqn:E; [|lia].
      apply last_ooo_sorted in E; [|lia].
      apply pass_list_sorted in E as [_ E]. lia. }
    destruct (IH (pass_list l)) as (l' & -> & Hs & Hp).
    { pose proof (pass_list_last_ooo l Hpos). lia. }
    exists l'. split; [done|]. split; [done|].
    by rewrite Hp, pass_list_perm.
  - exists (pass_list l). split; [done|].
    split; [apply pass_list_exit; lia|apply pass_list_perm].
Qed.

Lemma sort_list_fuel fuel1 fuel2 l l' :
  sort_list fuel1 l = Some l' -> (fuel1 <= fuel2)%nat ->
  sort_list fuel2 l = Some l'.
Proof.
  revert fuel2 l. induction fuel1 as [|fuel1 IH]; intros fuel2 l; [done|].
  destruct fuel2 as [|fuel2]; [lia|]. simpl.
  destruct (newn_list l >? 1); [|done].
  intros H ?. apply IH; [done|lia].
Qed.

Lemma last_ooo_bound l : (last_ooo 1 l < S (length l))%nat.
Proof.
  destruct (last_ooo 1 l) eqn:E; [lia|].
  pose proof (last_ooo_range 1 l). rewrite E in *. lia.
Qed.

End BubbleList.

(* ================================================================== *)
(** ** From the heap to the content of the block *)
(* ================================================================== *)

Section Blocks.

Variable stray : addr -> Z -> float.

Implicit Types (h : heap) (A : addr) (arr : list float).

Lemma load_lookup h A arr i v :
  h !! A = Some arr -> 0 <= i -> arr !! Z.to_nat i = Some v ->
  load stray h A i = v.
Proof.
  intros HA Hi Hv. unfold load, in_block. rewrite HA.
  apply lookup_lt_Some in Hv as Hlt.
  replace (0 <=? i) with true by lia.
  replace (i <? Z.of_nat (length arr)) with true by lia. simpl.
  by rewrite nth_lookup, Hv.
Qed.

Lemma store_lookup h A arr i v :
  h !! A = Some arr -> 0 <= i -> (Z.to_nat i < length arr)%nat ->
  store h A i v = <[A := <[Z.to_nat i := v]> arr]> h.
Proof.
  intros HA Hi Hlt. unfold store, in_block. rewrite HA.
  replace (0 <=? i) with true by lia.
  by replace (i <? Z.of_nat (length arr)) with true by lia.
Qed.

(** The inner [for] from position [p] on: the cells before [p - 1] are
    [before], the cell at [p - 1] is [c], the cells still to visit are
    [rest], and [post] lies beyond [len]. *)
Lemma for_bubble_step A rest before c post h p newn :
  h !! A = Some (before ++ c :: rest ++ post) ->
  p = Z.of_nat (length before) + 1 ->
  for_loop (length rest) p (bubble_step stray A) (h, newn)
  = (<[A := before ++ bub c rest ++ post]> h, bub_newn p c rest newn).
Proof.
  revert before c h p newn.
  induction rest as [|y r IH]; intros before c h p newn HA Hp; simpl.
  { by rewrite insert_id. }
  simpl in HA.
  assert (load stray h A (p - 1) = c) as Hc.
  { apply (load_lookup h A _ _ _ HA); [lia|].
    apply list_lookup_middle. lia. }
  assert (load stray h A p = y) as Hy.
  { apply (load_lookup h A _ _ _ HA); [lia|].
    replace (Z.to_nat p) with (S (length before)) by lia.
    rewrite (cons_middle c), app_assoc. apply list_lookup_middle.
    rewrite length_app. simpl. lia. }
  rewrite Hc, Hy. destruct (gt c y) eqn:Hcy.
  - rewrite (store_lookup h A _ p c HA); [|lia|].
    2:{ rewrite length_app. simpl. lia. }
    erewrite store_lookup; [|apply lookup_insert_eq|lia|].
    2:{ rewrite length_insert, length_app. simpl. lia. }
    rewrite insert_insert_eq.
    assert (<[Z.to_nat (p - 1) := y]>
              (<[Z.to_nat p := c]> (before ++ c :: y :: r ++ post))
            = (before ++ [y]) ++ c :: r ++ post) as E.
    { replace (Z.to_nat p) with (length before + 1)%nat by lia.
      replace (Z.to_nat (p - 1)) with (length before + 0)%nat by lia.
      rewrite !insert_app_r. simpl. by rewrite <- app_assoc. }
    rewrite E.
    rewrite (IH (before ++ [y]) c _ (p + 1) p).
    + rewrite insert_insert_eq. by rewrite <- app_assoc.
    + by rewrite lookup_insert_eq.
    + rewrite length_app. simpl. lia.
  - rewrite (IH (before ++ [c]) y h (p + 1) newn).
    + by rewrite <- app_assoc.
    + by rewrite <- app_assoc.
    + rewrite length_app. simpl. lia.
Qed.

Lemma bubble_pass_list h A arr len :
  h !! A = Some arr -> len <= Z.of_nat (length arr) ->
  bubble_pass stray h A len
  = (<[A := pass_list (take (Z.to_nat len) arr) ++ drop (Z.to_nat len) arr]> h,
     newn_list (take (Z.to_nat len) arr)).
Proof.
  intros HA Hlen. unfold bubble_pass.
  pose proof (take_drop (Z.to_nat len) arr) as Earr.
  assert (length (take (Z.to_nat len) arr) = Z.to_nat len) as Hl
    by (rewrite length_take; lia).
  destruct (take (Z.to_nat len) arr) as [|x r] eqn:Et; simpl in *.
  - replace (Z.to_nat (len - 1)) with 0%nat by lia. simpl.
    rewrite insert_id; [done|]. by rewrite Earr.
  - replace (Z.to_nat (len - 1)) with (length r) by lia.
    apply (for_bubble_step A r [] x); [by rewrite <- Earr in HA|done].
Qed.

Lemma bubbleSort_loop_list fuel h A arr len :
  h !! A = Some arr -> len <= Z.of_nat (length arr) ->
  bubbleSort_loop stray fuel h A len
  = (fun l' => <[A := l' ++ drop (Z.to_nat len) arr]> h)
      <$> sort_list fuel (take (Z.to_nat len) arr).
Proof.
  revert h arr. induction fuel as [|fuel IH]; intros h arr HA Hlen; [done|].
  simpl. rewrite (bubble_pass_list h A arr len HA Hlen).
  assert (length (take (Z.to_nat len) arr) = Z.to_nat len) as Hl
    by (rewrite length_take; lia).
  destruct (newn_list (take (Z.to_nat len) arr) >? 1); [|done].
  rewrite (IH _ (pass_list (take (Z.to_nat len) arr) ++ drop (Z.to_nat len) arr)).
  - rewrite take_app_length', drop_app_length'
      by (rewrite pass_list_length; done).
    destruct (sort_list fuel _); simpl; [|done].
    by rewrite insert_insert_eq.
  - by rewrite lookup_insert_eq.
  - rewrite length_app, pass_list_length, Hl, length_drop. lia.
Qed.

End Blocks.

(* ================================================================== *)
(** ** median on the heap *)
(* ================================================================== *)

Section Median.

Variable stray : addr -> Z -> float.

Implicit Types (h : heap) (A : addr) (arr : list float).

Lemma alloca_fresh h : h !! fresh (dom h) = None.
Proof. apply not_elem_of_dom, is_fresh. Qed.

(** The copying loop writes to the local block only. *)
Lemma copy_loop_block n i h sorted samples init :
  h !! sorted = Some init ->
  exists l', length l' = length init /\
    for_loop n i (fun i hh => store hh sorted i (load stray hh samples i)) h
    = <[sorted := l']> h.
Proof.
  revert i h init. induction n as [|n IH]; intros i h init Hs; simpl.
  { exists init. by rewrite insert_id. }
  unfold store at 2. rewrite Hs.
  destruct (in_block init i).
  - edestruct (IH (i + 1)) as (l' & Hl & ->); [apply lookup_insert_eq|].
    exists l'. rewrite length_insert in Hl. by rewrite insert_insert_eq.
  - by apply IH.
Qed.

(** With the samples in a block of their own, the local block ends up
    holding the first [n] of them. *)
Lemma copy_loop_take n k h sorted samples arr init :
  h !! samples = Some arr -> samples <> sorted ->
  (k + n <= length arr)%nat -> (k + n <= length init)%nat ->
  for_loop n (Z.of_nat k)
    (fun i hh => store hh sorted i (load stray hh samples i))
    (<[sorted := take k arr ++ drop k init]> h)
  = <[sorted := take (k + n) arr ++ drop (k + n) init]> h.
Proof.
  intros Hs Hne. revert k. induction n as [|n IH]; intros k Ha Hi; simpl.
  { by rewrite Nat.add_0_r. }
  destruct (lookup_lt_is_Some_2 arr k ltac:(lia)) as [v Hv].
  rewrite (load_lookup stray _ samples arr (Z.of_nat k) v);
    [|by rewrite lookup_insert_ne|lia|by rewrite Nat2Z.id].
  erewrite store_lookup; [|apply lookup_insert_eq|lia|].
  2:{ rewrite Nat2Z.id, length_app, length_take, length_drop. lia. }
  rewrite insert_insert_eq, Nat2Z.id.
  replace (<[k := v]> (take k arr ++ drop k init))
    with (take (S k) arr ++ drop (S k) init).
  - replace (Z.of_nat k + 1) with (Z.of_nat (S k)) by lia.
    rewrite IH by lia. by replace (S k + n)%nat with (k + S n)%nat by lia.
  - rewrite (take_S_r arr k v Hv), <- app_assoc. simpl.
    destruct (lookup_lt_is_Some_2 init k ltac:(lia)) as [w Hw].
    rewrite (drop_S init w k Hw).
    replace k with (length (take k arr) + 0)%nat at 3
      by (rewrite length_take; lia).
    by rewrite insert_app_r.
Qed.

Lemma bubbleSort_block h A arr len :
  h !! A = Some arr -> len <= Z.of_nat (length arr) ->
  exists l', bubbleSort stray h A len
             = Some (<[A := l' ++ drop (Z.to_nat len) arr]> h)
    /\ Sorted le l' /\ l' ≡ₚ take (Z.to_nat len) arr.
Proof.
  intros HA Hlen. unfold bubbleSort.
  rewrite (bubbleSort_loop_list stray _ h A arr len HA Hlen).
  destruct (sort_list_terminates (S (Z.to_nat len)) (take (Z.to_nat len) arr))
    as (l' & -> & Hs & Hp).
  { pose proof (last_ooo_bound (take (Z.to_nat len) arr)).
    rewrite length_take in *. lia. }
  by exists l'.
Qed.

(** [median] always returns, and returns the heap it was given. *)
Lemma median_returns h samples m :
  exists r, median stray h samples m = Some (h, r).
Proof.
  unfold median, alloca. set (a := fresh (dom h)).
  set (init := map _ _).
  destruct (copy_loop_block (Z.to_nat m) 0 (<[a := init]> h) a samples init)
    as (l1 & Hl1 & ->); [apply lookup_insert_eq|].
  rewrite insert_insert_eq.
  assert (length l1 = Z.to_nat m) as Hlen.
  { rewrite Hl1. unfold init. by rewrite length_map, length_seq. }
  destruct (bubbleSort_block (<[a := l1]> h) a l1 m) as (l' & -> & _ & _);
    [apply lookup_insert_eq|lia|].
  simpl. rewrite insert_insert_eq, delete_insert_id by apply alloca_fresh.
  eauto.
Qed.

Lemma midpoint_loads h sorted l (m : Z) :
  h !! sorted = Some l -> 1 <= m -> length l = Z.to_nat m ->
  (if Z.land m 1 =? 0
   then div (add (load stray h sorted (Z.quot m 2 - 1))
                 (load stray h sorted (Z.quot m 2))) two
   else load stray h sorted (Z.quot m 2))
  = midpoint l.
Proof.
  intros Hs Hm Hl. unfold midpoint. rewrite Hl.
  assert (forall i, 0 <= i < m ->
            load stray h sorted i = nth (Z.to_nat i) l zero) as Hload.
  { intros i Hi.
    destruct (lookup_lt_is_Some_2 l (Z.to_nat i)) as [v Hv]; [lia|].
    rewrite (load_lookup stray h sorted l i v Hs) by (done || lia).
    by rewrite (nth_lookup_Some _ _ _ _ Hv). }
  change 1 with (Z.ones 1) at 1. rewrite Z.land_ones by lia.
  change (2 ^ 1) with 2.
  rewrite Z.quot_div_nonneg by lia.
  pose proof (Z.div_mod m 2 ltac:(lia)) as Hdm.
  pose proof (Z.mod_pos_bound m 2 ltac:(lia)) as Hmod.
  assert (Z.to_nat m / 2 = Z.to_nat (m / 2))%nat as ->
    by (rewrite Z2Nat.inj_div by lia; done).
  destruct (Nat.even (Z.to_nat m)) eqn:Hev.
  - apply Nat.even_spec in Hev as [k Hk].
    assert (m mod 2 = 0) as Hz by lia. rewrite Hz. simpl.
    rewrite !Hload by lia. do 3 f_equal. lia.
  - assert (Nat.odd (Z.to_nat m) = true) as Hodd
      by (by rewrite <- Nat.negb_even, Hev).
    apply Nat.odd_spec in Hodd as [k Hk].
    assert (m mod 2 = 1) as Hz by lia. rewrite Hz. simpl.
    by rewrite Hload by lia.
Qed.

(** With the samples in a block of at least [m] cells, [m >= 1]:
    [median] is the midpoint rule on an ordered rearrangement of the
    first [m] samples. *)
Lemma median_list h samples arr m :
  h !! samples = Some arr -> 1 <= m <= Z.of_nat (length arr) ->
  exists l', median stray h samples m = Some (h, midpoint l')
    /\ Sorted le l' /\ l' ≡ₚ take (Z.to_nat m) arr.
Proof.
  intros Hs Hm. unfold median, alloca. set (a := fresh (dom h)).
  set (init := map _ _).
  assert (length init = Z.to_nat m) as Hinit
    by (unfold init; by rewrite length_map, length_seq).
  assert (samples <> a) as Hne.
  { intros ->. pose proof (alloca_fresh h) as Hf. fold a in Hf. congruence. }
  pose proof (copy_loop_take (Z.to_nat m) 0 h a samples arr init Hs Hne
                ltac:(lia) ltac:(lia)) as Hcopy.
  change (Z.of_nat 0) with 0 in Hcopy. simpl in Hcopy.
  rewrite drop_0 in Hcopy. rewrite Hcopy.
  rewrite drop_ge, app_nil_r by lia.
  assert (length (take (Z.to_nat m) arr) = Z.to_nat m) as Hlt
    by (rewrite length_take; lia).
  destruct (bubbleSort_block (<[a := take (Z.to_nat m) arr]> h) a
              (take (Z.to_nat m) arr) m) as (l' & -> & Hsorted & Hperm);
    [apply lookup_insert_eq|lia|].
  rewrite take_ge in Hperm by lia.
  rewrite drop_ge, app_nil_r by lia. simpl.
  rewrite insert_insert_eq.
  rewrite (midpoint_loads (<[a := l']> h) a l' m);
    [|apply lookup_insert_eq|lia|by rewrite Hperm].
  rewrite delete_insert_id by apply alloca_fresh.
  by exists l'.
Qed.

End Median.

(* ================================================================== *)
(** ** Ordered rearrangements hold the same values *)
(* ================================================================== *)

Section SortedValues.

Implicit Types (l s : list float).

Lemma finite_no_nan l : Forall (fun x => is_finite x = true) l -> no_nan l.
Proof.
  unfold no_nan. intros H. eapply Forall_impl; [exact H|].
  intros x Hx. by destruct x.
Qed.

Lemma Sorted_le_strongly l :
  no_nan l -> Sorted le l -> StronglySorted le l.
Proof.
  induction l as [|x l IH]; intros Hn Hs; [constructor|].
  inv Hn. inv Hs. constructor; [by apply IH|].
  match goal with H : HdRel _ _ _ |- _ => rename H into Hhd end.
  destruct l as [|y l]; [constructor|]. inv Hhd.
  assert (StronglySorted le (y :: l)) as Hss by (by apply IH).
  inv Hss. constructor; [done|].
  match goal with H : Forall (le y) l |- _ => rename H into Hy end.
  match goal with H : Forall _ (y :: l) |- _ => inv H end.
  eapply Forall_impl; [exact Hy|]. intros z Hz. simpl in Hz.
  by apply le_trans with y.
Qed.

Lemma StronglySorted_unsigned_zero l :
  StronglySorted le l -> StronglySorted le (unsigned_zero <$> l).
Proof.
  induction 1 as [|x l Hs IH Hx]; simpl; constructor; [done|].
  apply Forall_fmap. eapply Forall_impl; [exact Hx|].
  intros y Hy. unfold le in *. simpl. by rewrite gt_unsigned_zero.
Qed.

(** Two ascending arrangements of the same cells agree cell by cell, up
    to the sign of zeros. *)
Lemma sorted_perm_values l s :
  no_nan l -> Sorted le l -> Sorted le s -> l ≡ₚ s ->
  unsigned_zero <$> l = unsigned_zero <$> s.
Proof.
  intros Hn Hl Hs Hp.
  assert (no_nan s) as Hn' by (unfold no_nan; by rewrite <- Hp).
  apply (StronglySorted_unique_strong le).
  - intros x1 x2 H1 H2 H12 H21.
    apply list_elem_of_fmap in H1 as (a & -> & Ha).
    apply list_elem_of_fmap in H2 as (b & -> & Hb).
    unfold no_nan in *. rewrite Forall_forall in Hn, Hn'.
    rewrite <- (unsigned_zero_idemp a), <- (unsigned_zero_idemp b).
    apply le_antisym; rewrite ?is_nan_unsigned_zero; auto.
  - by apply StronglySorted_unsigned_zero, Sorted_le_strongly.
  - by apply StronglySorted_unsigned_zero, Sorted_le_strongly.
  - by rewrite Hp.
Qed.

Lemma unsigned_zero_fmap_id l :
  Forall (fun x => x <> S754_zero true) l -> unsigned_zero <$> l = l.
Proof.
  induction 1 as [|x l Hx _ IH]; [done|]. rewrite fmap_cons, IH. f_equal.
  destruct x as [[]| | |]; (done || by destruct Hx).
Qed.

Lemma nth_unsigned_zero l i :
  unsigned_zero (nth i l zero) = nth i (unsigned_zero <$> l) zero.
Proof. by rewrite <- (map_nth unsigned_zero). Qed.

Lemma midpoint_same_value l s :
  unsigned_zero <$> l = unsigned_zero <$> s ->
  same_value (midpoint l) (midpoint s).
Proof.
  intros E. unfold midpoint.
  assert (length l = length s) as ->
    by (rewrite <- (length_fmap unsigned_zero l), E; apply length_fmap).
  assert (forall i, same_value (nth i l zero) (nth i s zero)) as Hnth.
  { intros i. unfold same_value. by rewrite !nth_unsigned_zero, E. }
  destruct (Nat.even (length s)); [|done].
  apply div_two_same_value, add_same_value; apply Hnth.
Qed.

Lemma same_value_eqb x y :
  same_value x y -> is_nan x = false -> eqb x y = true.
Proof.
  unfold same_value, eqb, SFeqb.
  destruct x as [[]|[]| |[] mx ex], y as [[]|[]| |[] my ey]; simpl;
    try congruence; intros E _; try reflexivity;
    injection E as -> ->; rewrite Z.compare_refl;
    change (Pos.compare_cont Eq my my) with (Pos.compare my my);
    by rewrite Pos.compare_refl.
Qed.

End SortedValues.

(* ================================================================== *)
(** ** The sampling loop *)
(* ================================================================== *)

Section Sampling.

Variable env : environment.
Variable delay2 : Z.

Lemma sampling_trace n i g tr :
  for_loop n i (sample_step env delay2) (g, tr)
  = (sampled env delay2 n i g, tr ++ replicate n (Delay (wrap_unsigned 32 delay2))).
Proof.
  unfold sampled. revert i g tr.
  induction n as [|n IH]; intros i g tr; simpl.
  { by rewrite app_nil_r. }
  rewrite IH. symmetry. rewrite IH. simpl.
  by rewrite <- app_assoc.
Qed.

Lemma sampled_blocks n (k : nat) g a b :
  mem g !! samples_p10 = Some a -> mem g !! samples_p25 = Some b ->
  (k + n <= length a)%nat -> (k + n <= length b)%nat ->
  exists a' b',
    mem (sampled env delay2 n (Z.of_nat k) g) !! samples_p10 = Some a' /\
    mem (sampled env delay2 n (Z.of_nat k) g) !! samples_p25 = Some b' /\
    length a' = length a /\ length b' = length b /\
    (forall j x, a !! j = Some x ->
       a' !! j = Some (if decide (k <= j < k + n)%nat
                       then slot_after env sds_p10 (Z.of_nat j) x else x)) /\
    (forall j x, b !! j = Some x ->
       b' !! j = Some (if decide (k <= j < k + n)%nat
                       then slot_after env sds_p25 (Z.of_nat j) x else x)).
Proof.
  revert k g a b. induction n as [|n IH]; intros k g a b Ha Hb Hla Hlb.
  { exists a, b. repeat split; try done;
      intros j x Hj; case_decide; (done || lia). }
  unfold sampled. simpl. rewrite sampling_trace. simpl.
  unfold slot_after.
  destruct (sds_error (sds_read env (Z.of_nat k)) =? 0) eqn:Herr.
  - set (g2 := {| mem := _ |}).
    assert (mem g2 !! samples_p10
            = Some (<[k := sds_p10 (sds_read env (Z.of_nat k))]> a)) as Ha2.
    { unfold g2. simpl.
      rewrite (store_lookup (mem g) samples_p25 b) by (done || lia).
      erewrite store_lookup;
        [|rewrite lookup_insert_ne by done; exact Ha|lia|lia].
      by rewrite lookup_insert_eq, Nat2Z.id. }
    assert (mem g2 !! samples_p25
            = Some (<[k := sds_p25 (sds_read env (Z.of_nat k))]> b)) as Hb2.
    { unfold g2. simpl.
      rewrite (store_lookup (mem g) samples_p25 b) by (done || lia).
      erewrite store_lookup;
        [|rewrite lookup_insert_ne by done; exact Ha|lia|lia].
      by rewrite lookup_insert_ne, lookup_insert_eq, Nat2Z.id by done. }
    replace (Z.of_nat k + 1) with (Z.of_nat (S k)) by lia.
    destruct (IH (S k) g2 _ _ Ha2 Hb2) as (a' & b' & Ha' & Hb' & La & Lb & Sa & Sb).
    { rewrite length_insert. lia. }
    { rewrite length_insert. lia. }
    exists a', b'. rewrite length_insert in La, Lb.
    repeat split; try done.
    + intros j x Hj. destruct (decide (j = k)) as [->|Hne].
      * erewrite Sa; [|apply list_lookup_insert_eq; lia].
        rewrite decide_False by lia. rewrite decide_True by lia.
        by rewrite Herr.
      * erewrite Sa; [|by rewrite list_lookup_insert_ne].
        repeat case_decide; (done || lia).
    + intros j x Hj. destruct (decide (j = k)) as [->|Hne].
      * erewrite Sb; [|apply list_lookup_insert_eq; lia].
        rewrite decide_False by lia. rewrite decide_True by lia.
        by rewrite Herr.
      * erewrite Sb; [|by rewrite list_lookup_insert_ne].
        repeat case_decide; (done || lia).
  - set (g2 := {| mem := _ |}).
    replace (Z.of_nat k + 1) with (Z.of_nat (S k)) by lia.
    destruct (IH (S k) g2 a b Ha Hb) as (a' & b' & Ha' & Hb' & La & Lb & Sa & Sb);
      [lia|lia|].
    exists a', b'. repeat split; try done.
    + intros j x Hj. rewrite (Sa j x Hj).
      destruct (decide (j = k)) as [->|Hne].
      * rewrite decide_False by lia. rewrite decide_True by lia.
        by rewrite Herr.
      * repeat case_decide; (done || lia).
    + intros j x Hj. rewrite (Sb j x Hj).
      destruct (decide (j = k)) as [->|Hne].
      * rewrite decide_False by lia. rewrite decide_True by lia.
        by rewrite Herr.
      * repeat case_decide; (done || lia).
Qed.

End Sampling.

(* ================================================================== *)
(** ** The wake counter *)
(* ================================================================== *)

Lemma ticks_mod k c :
  0 <= c <= UINT16_MAX -> ticks k c = (c + Z.of_nat k) mod 65536.
Proof.
  unfold UINT16_MAX. revert c. induction k as [|k IH]; intros c Hc.
  { simpl. rewrite Z.add_0_r, Z.mod_small; lia. }
  cbn [ticks]. unfold ISR_WDT_vect, UINT16_MAX, wrap_unsigned.
  change (2 ^ 16) with 65536.
  destruct (c >? 65535 - 1) eqn:Hmax.
  - assert (c = 65535) as -> by lia. rewrite IH by lia.
    replace (65535 + Z.of_nat (S k)) with (0 + Z.of_nat k + 1 * 65536) by lia.
    by rewrite Z.mod_add.
  - rewrite (Z.mod_small (c + 1)) by lia. rewrite IH by lia. f_equal. lia.
Qed.

(** C1, as the handler has it.  The wake counter does not saturate: a tick
    that finds [UINT16_MAX] takes the branch that clears the counter, any
    other tick adds one, and the counter stays a 16-bit value; [k] ticks
    take [c] to [(c + k) mod 65536]. *)
Theorem wake_counter_tick (c : Z) (k : nat) :
  0 <= c <= UINT16_MAX ->
  ISR_WDT_vect c = (if c =? UINT16_MAX then 0 else c + 1)
  /\ 0 <= ISR_WDT_vect c <= UINT16_MAX
  /\ ticks k c = (c + Z.of_nat k) mod 65536.
Proof.
  intros Hc. split; [|split].
  - unfold ISR_WDT_vect, UINT16_MAX, wrap_unsigned in *.
    change (2 ^ 16) with 65536.
    destruct (c >? 65535 - 1) eqn:Hmax, (c =? 65535) eqn:Heq; try lia.
    rewrite Z.mod_small; lia.
  - unfold ISR_WDT_vect, UINT16_MAX, wrap_unsigned in *.
    change (2 ^ 16) with 65536.
    destruct (c >? 65535 - 1); [lia|].
    pose proof (Z.mod_pos_bound (c + 1) 65536 ltac:(lia)). lia.
  - by apply ticks_mod.
Qed.

Lemma wake_counter_tick_witness :
  0 <= 65534 <= UINT16_MAX
  /\ ISR_WDT_vect 65534 = (if 65534 =? UINT16_MAX then 0 else 65534 + 1)
  /\ 0 <= ISR_WDT_vect 65534 <= UINT16_MAX
  /\ ticks 3 65534 = (65534 + Z.of_nat 3) mod 65536.
Proof.
  split; [unfold UINT16_MAX; lia|].
  apply (wake_counter_tick 65534 3). unfold UINT16_MAX. lia.
Defined.

(** C1 as the specification words it: the counter holds at its maximum.
    It does not: the tick after [UINT16_MAX] leaves 0. *)
Lemma wake_counter_wraps_at_max :
  ISR_WDT_vect UINT16_MAX = 0 /\ ISR_WDT_vect UINT16_MAX <> UINT16_MAX.
Proof. split; [reflexivity|discriminate]. Qed.

(* ================================================================== *)
(** ** Termination of bubbleSort *)
(* ================================================================== *)

(** C10.  [bubbleSort] terminates on every block and every [len] within
    it (negative ones included): the [do ... while] has ended after
    [len + 1] passes whatever the fuel beyond that.  Each pass either
    finds no out-of-order pair, swaps nothing, leaves [newn] at 1 and so
    ends the loop, or leaves the last out-of-order pair strictly lower
    than it found it. *)
Theorem bubbleSort_terminates
    (stray : addr -> Z -> float) (h : heap) (A : addr)
    (arr : list float) (len : Z) :
  h !! A = Some arr ->
  len <= Z.of_nat (length arr) ->
  (exists h', bubbleSort stray h A len = Some h'
     /\ forall fuel, (Z.to_nat len < fuel)%nat ->
          bubbleSort_loop stray fuel h A len = Some h')
  /\ (exists arr',
        fst (bubble_pass stray h A len) !! A = Some arr'
        /\ (last_out_of_order arr len = O ->
              bubble_pass stray h A len = (h, 1))
        /\ ((0 < last_out_of_order arr len)%nat ->
              (last_out_of_order arr' len < last_out_of_order arr len)%nat)).
Proof.
  intros HA Hlen. set (pre := take (Z.to_nat len) arr).
  assert (length pre = Z.to_nat len) as Hpre
    by (unfold pre; rewrite length_take; lia).
  split.
  - destruct (sort_list_terminates (S (Z.to_nat len)) pre) as (l' & Hl' & _).
    { pose proof (last_ooo_bound pre). lia. }
    exists (<[A := l' ++ drop (Z.to_nat len) arr]> h). split.
    + unfold bubbleSort.
      rewrite (bubbleSort_loop_list stray _ h A arr len HA Hlen).
      fold pre. by rewrite Hl'.
    + intros fuel Hfuel.
      rewrite (bubbleSort_loop_list stray _ h A arr len HA Hlen).
      fold pre. rewrite (sort_list_fuel _ fuel _ _ Hl') by lia. done.
  - rewrite (bubble_pass_list stray h A arr len HA Hlen). fold pre.
    exists (pass_list pre ++ drop (Z.to_nat len) arr). simpl.
    split; [apply lookup_insert_eq|]. unfold last_out_of_order. fold pre.
    rewrite take_app_length' by (by rewrite pass_list_length).
    split.
    + intros Hz. apply last_ooo_sorted in Hz; [|lia].
      destruct (pass_list_sorted pre Hz) as [-> ->].
      unfold pre. rewrite take_drop. by rewrite insert_id.
    + apply pass_list_last_ooo.
Qed.

Lemma bubbleSort_terminates_witness :
  demo_heap !! demo_block = Some demo_cells
  /\ 3 <= Z.of_nat (length demo_cells)
  /\ (exists h', bubbleSort no_stray demo_heap demo_block 3 = Some h'
        /\ forall fuel, (Z.to_nat 3 < fuel)%nat ->
             bubbleSort_loop no_stray fuel demo_heap demo_block 3 = Some h')
  /\ (exists arr',
        fst (bubble_pass no_stray demo_heap demo_block 3) !! demo_block = Some arr'
        /\ (last_out_of_order demo_cells 3 = O ->
              bubble_pass no_stray demo_heap demo_block 3 = (demo_heap, 1))
        /\ ((0 < last_out_of_order demo_cells 3)%nat ->
              (last_out_of_order arr' 3 < last_out_of_order demo_cells 3)%nat)).
Proof.
  split; [reflexivity|]. split; [simpl; lia|].
  apply (bubbleSort_terminates no_stray demo_heap demo_block demo_cells 3);
    [reflexivity|simpl; lia].
Defined.

(* ================================================================== *)
(** ** median and the sample array *)
(* ================================================================== *)

(** C9.  Whatever the heap, the array and [m], [median] returns, and the
    heap it returns is the heap it was given: the samples, like every
    other block, hold what they held (the only block written is the local
    copy, which is gone on return). *)
Theorem median_leaves_samples
    (stray : addr -> Z -> float) (h : heap) (samples : addr) (m : Z) :
  exists r, median stray h samples m = Some (h, r).
Proof. apply median_returns. Qed.

Lemma midpoint_replicate_zero k :
  (1 <= k)%nat -> midpoint (replicate k zero) = zero.
Proof.
  intros Hk. unfold midpoint. rewrite length_replicate.
  assert (forall i, (i < k)%nat -> nth i (replicate k zero) zero = zero) as Hnth.
  { intros i Hi. apply nth_lookup_Some. by apply lookup_replicate_2. }
  pose proof (Nat.Div0.div_le_upper_bound k 2 k ltac:(lia)).
  assert (k / 2 < k)%nat by (apply Nat.div_lt; lia).
  destruct (Nat.even k); rewrite !Hnth by lia; reflexivity.
Qed.

Lemma median_empty stray (h : heap) samples :
  median stray h samples 0
  = Some (h, div (add (stray (fresh (dom h)) (-1)) (stray (fresh (dom h)) 0)) two).
Proof.
  unfold median, alloca, bubbleSort. simpl.
  unfold load. rewrite lookup_insert_eq. simpl.
  by rewrite delete_insert_id by apply alloca_fresh.
Qed.

(** C4, as the code has it.  [median] has no failure result.  Over a
    sample array no read has written to (the zero-initialised cells) it
    returns 0.0; called with [m = 0] it reports nothing either and returns
    [(sorted[-1] + sorted[0]) / 2], both cells read outside the empty local
    array. *)
Theorem median_has_no_error
    (stray : addr -> Z -> float) (h : heap) (samples : addr) (n : nat) (m : Z) :
  h !! samples = Some (replicate n zero) ->
  1 <= m <= Z.of_nat n ->
  median stray h samples m = Some (h, zero)
  /\ median stray h samples 0
     = Some (h, div (add (stray (fresh (dom h)) (-1))
                         (stray (fresh (dom h)) 0)) two).
Proof.
  intros Hs Hm. split; [|apply median_empty].
  destruct (median_list stray h samples (replicate n zero) m Hs)
    as (l' & -> & _ & Hp); [by rewrite length_replicate|].
  rewrite take_replicate in Hp. symmetry in Hp.
  apply replicate_Permutation in Hp. rewrite <- Hp.
  rewrite midpoint_replicate_zero by lia. done.
Qed.

Lemma median_has_no_error_witness :
  mem boot !! samples_p25 = Some (replicate 10 zero)
  /\ 1 <= 10 <= Z.of_nat 10
  /\ median no_stray (mem boot) samples_p25 10 = Some (mem boot, zero)
  /\ median no_stray (mem boot) samples_p25 0
     = Some (mem boot, div (add (no_stray (fresh (dom (mem boot))) (-1))
                                (no_stray (fresh (dom (mem boot))) 0)) two).
Proof.
  split; [reflexivity|]. split; [lia|].
  apply (median_has_no_error no_stray (mem boot) samples_p25 10 10);
    [reflexivity|lia].
Defined.

(** C4 as the specification words it: on a sample set without valid entry
    [median] fails instead of returning a value, zero in particular.  It
    returns zero: from boot, with no read stored, over the ten cells that
    [loop] passes, and over no cell at all when the neighbouring memory
    reads as zero. *)
Lemma median_without_samples_returns_zero :
  median no_stray (mem boot) samples_p25 10 = Some (mem boot, zero)
  /\ median no_stray (mem boot) samples_p25 0 = Some (mem boot, zero).
Proof. split; vm_compute; reflexivity. Qed.

(* ================================================================== *)
(** ** One pass of loop *)
(* ================================================================== *)

Section Cycle.

Variable stray : addr -> Z -> float.
Variable cfg : configuration.
Variable env : environment.

(** [loop] always returns; its trace is the warm-up, the ten sampling
    delays, one uplink and the way to sleep, and the heap it leaves is
    the one the sampling loop left. *)
Lemma loop_trace g :
  exists r25 r10,
    median stray (mem (sampled env 1100 10 0 g)) samples_p25 10
      = Some (mem (sampled env 1100 10 0 g), r25)
    /\ median stray (mem (sampled env 1100 10 0 g)) samples_p10 10
      = Some (mem (sampled env 1100 10 0 g), r10)
    /\ loop stray cfg env g
      = Some ({| mem := mem (sampled env 1100 10 0 g);
                 p10 := p10 (sampled env 1100 10 0 g);
                 p25 := p25 (sampled env 1100 10 0 g);
                 error := error (sampled env 1100 10 0 g) |},
              wake_trace cfg ++ replicate 10 (Delay 1100)
              ++ SendBytes (encode (fixed_point r10) (fixed_point r25)
                              (wrap_signed 16 (readHumidity env))
                              (wrap_signed 16 (readTemperature env))) 8
                 :: sleep_trace cfg).
Proof.
  destruct (median_returns stray (mem (sampled env 1100 10 0 g)) samples_p25 10)
    as [r25 H25].
  destruct (median_returns stray (mem (sampled env 1100 10 0 g)) samples_p10 10)
    as [r10 H10].
  exists r25, r10. split; [done|]. split; [done|].
  unfold loop. change (Z.to_nat 10) with 10%nat.
  rewrite sampling_trace. rewrite H25.
  cbv beta iota delta [mbind option_bind]. rewrite H10.
  cbv beta iota delta [mbind option_bind].
  unfold wake_trace, sleep_trace.
  change (wrap_unsigned 32 1100) with 1100.
  f_equal. f_equal.
  destruct (SLEEP_ON cfg), (PWR_DOWN cfg); cbn [app]; try reflexivity.
  all: rewrite <- ?app_assoc; reflexivity.
Qed.

Lemma count_sends_app tr1 tr2 :
  count_sends (tr1 ++ tr2) = (count_sends tr1 + count_sends tr2)%nat.
Proof.
  induction tr1 as [|e tr1 IH]; simpl; [done|].
  destruct e; simpl; by rewrite IH.
Qed.

Lemma count_sends_wake : count_sends (wake_trace cfg) = O.
Proof. unfold wake_trace. by destruct (SLEEP_ON cfg). Qed.

Lemma count_sends_sleep : count_sends (sleep_trace cfg) = O.
Proof. unfold sleep_trace. by destruct (SLEEP_ON cfg), (PWR_DOWN cfg). Qed.

End Cycle.

Lemma highByte_div w : highByte w = (w mod 65536) / 256.
Proof.
  unfold highByte. change 255 with (Z.ones 8).
  rewrite Z.land_ones, Z.shiftr_div_pow2 by lia.
  change (2 ^ 8) with 256. Z.div_mod_to_equations. lia.
Qed.

Lemma lowByte_mod w : lowByte w = (w mod 65536) mod 256.
Proof.
  unfold lowByte. change 255 with (Z.ones 8).
  rewrite Z.land_ones by lia.
  change (2 ^ 8) with 256. Z.div_mod_to_equations. lia.
Qed.

Lemma encode_be16 a b c d : encode a b c d = be16 a ++ be16 b ++ be16 c ++ be16 d.
Proof. unfold encode, be16. simpl. by rewrite !highByte_div, !lowByte_mod. Qed.

Lemma be16_bytes w : Forall (fun b => 0 <= b < 256) (be16 w).
Proof.
  unfold be16. repeat constructor; Z.div_mod_to_equations; lia.
Qed.

Lemma of_be16_be16 w :
  - 32768 <= w < 32768 ->
  of_be16 ((w mod 65536) / 256) ((w mod 65536) mod 256) = w.
Proof.
  intros Hw. unfold of_be16, wrap_signed.
  change (2 ^ (16 - 1)) with 32768. change (2 ^ 16) with 65536.
  Z.div_mod_to_equations. lia.
Qed.

Lemma wrap_signed_16_range x : - 32768 <= wrap_signed 16 x < 32768.
Proof.
  unfold wrap_signed. change (2 ^ (16 - 1)) with 32768. change (2 ^ 16) with 65536.
  Z.div_mod_to_equations. lia.
Qed.

(** C2, as the code has it.  Every duty cycle, one in which all read
    attempts fail included, hands exactly one payload of 8 bytes to
    [sendBytes]: the sketch counts no successful read and has no way
    around the uplink.  The trace is the warm-up, the ten sampling delays,
    the uplink, and then the way to sleep. *)
Theorem every_cycle_transmits
    (stray : addr -> Z -> float) (cfg : configuration)
    (env : environment) (g : globals) :
  exists g' tr payload,
    loop stray cfg env g = Some (g', tr)
    /\ tr = wake_trace cfg ++ replicate 10 (Delay 1100)
            ++ SendBytes payload 8 :: sleep_trace cfg
    /\ length payload = 8%nat
    /\ count_sends tr = 1%nat.
Proof.
  destruct (loop_trace stray cfg env g) as (r25 & r10 & _ & _ & ->).
  eexists _, _, _. split; [reflexivity|]. split; [reflexivity|].
  split; [reflexivity|].
  rewrite !count_sends_app, count_sends_wake. simpl.
  rewrite count_sends_sleep. reflexivity.
Qed.

(** C2 as the specification words it: a cycle whose reads all fail sends
    nothing.  From boot with a sensor that never answers, [loop] sends the
    payload of two zero medians. *)
Lemma failed_cycle_still_transmits :
  (forall i, sds_error (sds_read failing_sensor i) <> 0)
  /\ snd <$> loop no_stray demo_config failing_sensor boot
     = Some ([SdsWakeup; Delay 60000] ++ replicate 10 (Delay 1100)
             ++ [SendBytes [0; 0; 0; 0; 0; 55; 255; 253] 8;
                 SdsSleep; Delay 229000]).
Proof. split; [intros i; discriminate|vm_compute; reflexivity]. Qed.

(** C3, as the code has it.  The two sample arrays keep their ten cells.
    Attempt [i] overwrites cell [i] of both when the read succeeds and
    leaves cell [i] as it was when the read fails (a value of an earlier
    cycle, or the initial 0.0); [median] is then taken over all ten cells,
    whatever the number of successful reads. *)
Theorem sampling_fills_slots_by_index
    (stray : addr -> Z -> float) (env : environment) (g : globals)
    (a b : list float) :
  mem g !! samples_p10 = Some a ->
  mem g !! samples_p25 = Some b ->
  length a = 10%nat ->
  length b = 10%nat ->
  exists a' b' s10 s25,
    mem (sampled env 1100 10 0 g) !! samples_p10 = Some a'
    /\ mem (sampled env 1100 10 0 g) !! samples_p25 = Some b'
    /\ length a' = 10%nat /\ length b' = 10%nat
    /\ (forall j x, a !! j = Some x ->
          a' !! j = Some (slot_after env sds_p10 (Z.of_nat j) x))
    /\ (forall j x, b !! j = Some x ->
          b' !! j = Some (slot_after env sds_p25 (Z.of_nat j) x))
    /\ s10 ≡ₚ a' /\ s25 ≡ₚ b'
    /\ Sorted le s10 /\ Sorted le s25
    /\ median stray (mem (sampled env 1100 10 0 g)) samples_p10 10
       = Some (mem (sampled env 1100 10 0 g), midpoint s10)
    /\ median stray (mem (sampled env 1100 10 0 g)) samples_p25 10
       = Some (mem (sampled env 1100 10 0 g), midpoint s25).
Proof.
  intros Ha Hb La Lb.
  destruct (sampled_blocks env 1100 10 0 g a b Ha Hb)
    as (a' & b' & Ha' & Hb' & La' & Lb' & Sa & Sb); [lia|lia|].
  change (Z.of_nat 0) with 0 in Ha', Hb'.
  destruct (median_list stray _ samples_p10 a' 10 Ha') as (s10 & M10 & S10 & P10);
    [lia|].
  destruct (median_list stray _ samples_p25 b' 10 Hb') as (s25 & M25 & S25 & P25);
    [lia|].
  rewrite take_ge in P10, P25 by lia.
  exists a', b', s10, s25.
  split; [exact Ha'|]. split; [exact Hb'|].
  split; [lia|]. split; [lia|].
  split.
  { intros j x Hj. rewrite (Sa j x Hj).
    apply lookup_lt_Some in Hj. rewrite decide_True by lia. reflexivity. }
  split.
  { intros j x Hj. rewrite (Sb j x Hj).
    apply lookup_lt_Some in Hj. rewrite decide_True by lia. reflexivity. }
  split; [exact P10|]. split; [exact P25|].
  split; [exact S10|]. split; [exact S25|].
  split; [exact M10|exact M25].
Qed.

Lemma sampling_fills_slots_by_index_witness :
  mem boot !! samples_p10 = Some (replicate 10 zero)
  /\ mem boot !! samples_p25 = Some (replicate 10 zero)
  /\ length (replicate 10 zero) = 10%nat
  /\ length (replicate 10 zero) = 10%nat
  /\ exists a' b' s10 s25,
    mem (sampled one_good_read 1100 10 0 boot) !! samples_p10 = Some a'
    /\ mem (sampled one_good_read 1100 10 0 boot) !! samples_p25 = Some b'
    /\ length a' = 10%nat /\ length b' = 10%nat
    /\ (forall j x, replicate 10 zero !! j = Some x ->
          a' !! j = Some (slot_after one_good_read sds_p10 (Z.of_nat j) x))
    /\ (forall j x, replicate 10 zero !! j = Some x ->
          b' !! j = Some (slot_after one_good_read sds_p25 (Z.of_nat j) x))
    /\ s10 ≡ₚ a' /\ s25 ≡ₚ b'
    /\ Sorted le s10 /\ Sorted le s25
    /\ median no_stray (mem (sampled one_good_read 1100 10 0 boot)) samples_p10 10
       = Some (mem (sampled one_good_read 1100 10 0 boot), midpoint s10)
    /\ median no_stray (mem (sampled one_good_read 1100 10 0 boot)) samples_p25 10
       = Some (mem (sampled one_good_read 1100 10 0 boot), midpoint s25).
Proof.
  split; [reflexivity|]. split; [reflexivity|].
  split; [reflexivity|]. split; [reflexivity|].
  apply (sampling_fills_slots_by_index no_stray one_good_read boot
           (replicate 10 zero) (replicate 10 zero)); reflexivity.
Defined.

(** C3 as the specification words it: the set handed to aggregation holds
    values of successful reads of the current cycle only, fewer than ten
    when reads fail.  From boot, with the first read alone successful (7.0),
    the array handed to [median] holds 7.0 and nine cells of 0.0 that no
    read delivered, and the median over the ten is 0.0. *)
Lemma failed_reads_keep_their_slots :
  mem (sampled one_good_read 1100 10 0 boot) !! samples_p25
    = Some (seven :: replicate 9 zero)
  /\ (forall i, sds_p25 (sds_read one_good_read i) = seven)
  /\ seven <> zero
  /\ median no_stray (mem (sampled one_good_read 1100 10 0 boot)) samples_p25 10
     = Some (mem (sampled one_good_read 1100 10 0 boot), zero).
Proof.
  split; [vm_compute; reflexivity|]. split; [reflexivity|].
  split; [discriminate|vm_compute; reflexivity].
Qed.

(** C6.  Every cycle transmits, and what it hands to [sendBytes] is 8
    bytes: the PM10 field, the PM2.5 field, humidity and temperature, each
    a 16-bit field high byte first.  The two particulate fields are the
    fixed-point medians of the arrays as the sampling loop left them. *)
Theorem payload_layout
    (stray : addr -> Z -> float) (cfg : configuration)
    (env : environment) (g : globals) :
  exists g' before after payload r10 r25,
    loop stray cfg env g = Some (g', before ++ SendBytes payload 8 :: after)
    /\ count_sends before = O /\ count_sends after = O
    /\ median stray (mem (sampled env 1100 10 0 g)) samples_p10 10
       = Some (mem (sampled env 1100 10 0 g), r10)
    /\ median stray (mem (sampled env 1100 10 0 g)) samples_p25 10
       = Some (mem (sampled env 1100 10 0 g), r25)
    /\ payload = be16 (fixed_point r10) ++ be16 (fixed_point r25)
                 ++ be16 (wrap_signed 16 (readHumidity env))
                 ++ be16 (wrap_signed 16 (readTemperature env))
    /\ length payload = 8%nat
    /\ Forall (fun byte => 0 <= byte < 256) payload
    /\ of_be16 (nth 0 payload 0) (nth 1 payload 0) = fixed_point r10
    /\ of_be16 (nth 2 payload 0) (nth 3 payload 0) = fixed_point r25
    /\ of_be16 (nth 4 payload 0) (nth 5 payload 0)
       = wrap_signed 16 (readHumidity env)
    /\ of_be16 (nth 6 payload 0) (nth 7 payload 0)
       = wrap_signed 16 (readTemperature env).
Proof.
  destruct (loop_trace stray cfg env g) as (r25 & r10 & H25 & H10 & Hloop).
  exists {| mem := mem (sampled env 1100 10 0 g);
            p10 := p10 (sampled env 1100 10 0 g);
            p25 := p25 (sampled env 1100 10 0 g);
            error := error (sampled env 1100 10 0 g) |},
    (wake_trace cfg ++ replicate 10 (Delay 1100)), (sleep_trace cfg),
    (encode (fixed_point r10) (fixed_point r25)
       (wrap_signed 16 (readHumidity env))
       (wrap_signed 16 (readTemperature env))),
    r10, r25.
  split; [rewrite Hloop; rewrite <- app_assoc; reflexivity|].
  split; [rewrite count_sends_app, count_sends_wake; reflexivity|].
  split; [apply count_sends_sleep|].
  split; [exact H10|]. split; [exact H25|].
  rewrite encode_be16.
  split; [reflexivity|].
  split; [unfold be16; cbn [app length]; reflexivity|].
  split; [repeat (apply Forall_app; split); apply be16_bytes|].
  unfold be16. cbn [app nth].
  split; [apply of_be16_be16, wrap_signed_16_range|].
  split; [apply of_be16_be16, wrap_signed_16_range|].
  split; apply of_be16_be16, wrap_signed_16_range.
Qed.

(* ================================================================== *)
(** ** The fallback delay *)
(* ================================================================== *)

Lemma wrap_signed_32_small x :
  - 2147483648 <= x < 2147483648 -> wrap_signed 32 x = x.
Proof.
  intros Hx. unfold wrap_signed.
  change (2 ^ (32 - 1)) with 2147483648. change (2 ^ 32) with 4294967296.
  rewrite Z.mod_small; lia.
Qed.

Lemma wrap_unsigned_32_small x :
  0 <= x < 4294967296 -> wrap_unsigned 32 x = x.
Proof. intros Hx. unfold wrap_unsigned. apply Z.mod_small. done. Qed.

Lemma fallback_delay_exact cfg :
  0 <= FAN_SPINUP cfg ->
  0 <= SLEEP_TIME cfg <= 35791 ->
  1000 * FAN_SPINUP cfg + 10 * 1100 <= 1000 * 60 * SLEEP_TIME cfg ->
  fallback_delay cfg (wrap_signed 32 (1000 * FAN_SPINUP cfg)) 10 1100
  = 1000 * 60 * SLEEP_TIME cfg - 1000 * FAN_SPINUP cfg - 10 * 1100.
Proof.
  intros Hf Hs Hb. unfold fallback_delay.
  rewrite (wrap_signed_32_small (1000 * FAN_SPINUP cfg)) by lia.
  rewrite (wrap_signed_32_small (10 * 1100)) by lia.
  rewrite (wrap_signed_32_small (1000 * FAN_SPINUP cfg + 10 * 1100)) by lia.
  rewrite (wrap_signed_32_small (1000 * 60 * SLEEP_TIME cfg)) by lia.
  rewrite wrap_signed_32_small by lia.
  rewrite wrap_unsigned_32_small by lia. lia.
Qed.

(** C8, as the code has it.  Without deep power-down, with a warm-up of
    [W = 1000 * FAN_SPINUP] ms, a nominal sampling time of
    [M = 10 * 1100] ms and a sleep interval of [T = 60000 * SLEEP_TIME] ms
    that covers them ([W + M <= T], [T] within a [long]), the cycle ends
    on a [delay] of [T - W - M], which is [max(0, T - W - M)] there.  The
    sketch has no clamp for [T < W + M]. *)
Theorem fallback_delay_within_interval
    (stray : addr -> Z -> float) (cfg : configuration)
    (env : environment) (g : globals) :
  SLEEP_ON cfg = true ->
  PWR_DOWN cfg = false ->
  0 <= FAN_SPINUP cfg ->
  0 <= SLEEP_TIME cfg <= 35791 ->
  1000 * FAN_SPINUP cfg + 10 * 1100 <= 1000 * 60 * SLEEP_TIME cfg ->
  exists g' tr,
    loop stray cfg env g
    = Some (g', tr ++ [Delay (1000 * 60 * SLEEP_TIME cfg
                              - 1000 * FAN_SPINUP cfg - 10 * 1100)])
    /\ 1000 * 60 * SLEEP_TIME cfg - 1000 * FAN_SPINUP cfg - 10 * 1100
       = Z.max 0 (1000 * 60 * SLEEP_TIME cfg
                  - 1000 * FAN_SPINUP cfg - 10 * 1100).
Proof.
  intros Hon Hpd Hf Hs Hb.
  destruct (loop_trace stray cfg env g) as (r25 & r10 & _ & _ & ->).
  unfold sleep_trace. rewrite Hon, Hpd.
  rewrite (fallback_delay_exact cfg Hf Hs Hb).
  eexists _, (wake_trace cfg ++ replicate 10 (Delay 1100)
              ++ [SendBytes _ 8; SdsSleep]).
  split; [|lia].
  by rewrite <- !app_assoc.
Qed.

Lemma fallback_delay_within_interval_witness :
  SLEEP_ON demo_config = true
  /\ PWR_DOWN demo_config = false
  /\ 0 <= FAN_SPINUP demo_config
  /\ 0 <= SLEEP_TIME demo_config <= 35791
  /\ 1000 * FAN_SPINUP demo_config + 10 * 1100
     <= 1000 * 60 * SLEEP_TIME demo_config
  /\ exists g' tr,
       loop no_stray demo_config failing_sensor boot
       = Some (g', tr ++ [Delay (1000 * 60 * SLEEP_TIME demo_config
                                 - 1000 * FAN_SPINUP demo_config - 10 * 1100)])
       /\ 1000 * 60 * SLEEP_TIME demo_config
          - 1000 * FAN_SPINUP demo_config - 10 * 1100
          = Z.max 0 (1000 * 60 * SLEEP_TIME demo_config
                     - 1000 * FAN_SPINUP demo_config - 10 * 1100).
Proof.
  split; [reflexivity|]. split; [reflexivity|].
  split; [simpl; lia|]. split; [simpl; lia|]. split; [simpl; lia|].
  apply (fallback_delay_within_interval no_stray demo_config failing_sensor boot);
    [reflexivity|reflexivity|simpl; lia|simpl; lia|simpl; lia].
Defined.

(** C8 as the specification words it: the delay is [max(0, T - W - M)] for
    every [T], [W] and [M].  With a sleep interval of one minute and a
    warm-up of one minute the difference is -11000 ms, and the cycle ends
    on a [delay] of 4294956296 ms, not of 0. *)
Lemma fallback_delay_wraps_around :
  SLEEP_ON short_sleep = true
  /\ PWR_DOWN short_sleep = false
  /\ Z.max 0 (1000 * 60 * SLEEP_TIME short_sleep
              - 1000 * FAN_SPINUP short_sleep - 10 * 1100) = 0
  /\ fallback_delay short_sleep (1000 * FAN_SPINUP short_sleep) 10 1100
     = 4294956296
  /\ last <$> (snd <$> loop no_stray short_sleep failing_sensor boot)
     = Some (Some (Delay 4294956296)).
Proof. repeat split; vm_compute; reflexivity. Qed.

(* ================================================================== *)
(** ** The fixed-point field *)
(* ================================================================== *)

Lemma half_up_nonneg n : 0 <= n -> (2 * n + 1) / 2 = n.
Proof. intros Hn. Z.div_mod_to_equations. lia. Qed.

(** [round], computed on mantissa and exponent, is the nearest integer of
    the rational the float stands for, halves away from zero. *)
Lemma round_exact y : round y = round_half_away (exact y).
Proof.
  destruct y as [s|s| |s m e]; try reflexivity.
  unfold round, exact, round_half_away.
  destruct e as [|p|k]; cbn [Qnum Qden].
  - change (2 ^ 0) with 1. rewrite !Z.mul_1_r. change (2 * 1) with 2.
    destruct s.
    + change (0 <=? Z.neg m) with false. cbv iota.
      change (- Z.neg m) with (Z.pos m). by rewrite half_up_nonneg by lia.
    + change (0 <=? Z.pos m) with true. cbv iota.
      by rewrite half_up_nonneg by lia.
  - pose proof (Z.pow_pos_nonneg 2 (Z.pos p) ltac:(lia) ltac:(lia)) as Hpow.
    change (2 * 1) with 2.
    destruct s.
    + destruct (Z.leb_spec 0 (Z.neg m * 2 ^ Z.pos p)); [lia|].
      replace (- (Z.neg m * 2 ^ Z.pos p)) with (Z.pos m * 2 ^ Z.pos p) by lia.
      by rewrite half_up_nonneg by lia.
    + destruct (Z.leb_spec 0 (Z.pos m * 2 ^ Z.pos p)); [|lia].
      by rewrite half_up_nonneg by lia.
  - rewrite Pos2Z.inj_pow.
    assert (2 ^ Z.pos k = 2 * 2 ^ (Z.pos k - 1)) as Hk.
    { rewrite <- Z.pow_succ_r by lia. f_equal. lia. }
    pose proof (Z.pow_pos_nonneg 2 (Z.pos k - 1) ltac:(lia) ltac:(lia)) as Hpow.
    set (half := 2 ^ (Z.pos k - 1)) in *. rewrite Hk.
    destruct s.
    + change (0 <=? Z.neg m) with false. cbv iota.
      change (- Z.neg m) with (Z.pos m).
      replace (2 * Z.pos m + 2 * half) with (2 * (Z.pos m + half)) by lia.
      by rewrite Z.div_mul_cancel_l by lia.
    + change (0 <=? Z.pos m) with true. cbv iota.
      replace (2 * Z.pos m + 2 * half) with (2 * (Z.pos m + half)) by lia.
      by rewrite Z.div_mul_cancel_l by lia.
Qed.

Lemma div_cross a b c d :
  0 < b -> 0 < d -> a * d = c * b -> a / b = c / d.
Proof.
  intros Hb Hd E.
  rewrite <- (Z.div_mul_cancel_r a b d) by lia.
  rewrite <- (Z.div_mul_cancel_r c d b) by lia.
  rewrite E. f_equal. lia.
Qed.

Lemma round_half_away_Qeq (q1 q2 : Q) :
  Qeq q1 q2 -> round_half_away q1 = round_half_away q2.
Proof.
  destruct q1 as [n1 d1], q2 as [n2 d2]. unfold Qeq, round_half_away.
  cbn [Qnum Qden]. intros E.
  assert ((0 <=? n1) = (0 <=? n2)) as Hsign.
  { destruct (0 <=? n1) eqn:H1, (0 <=? n2) eqn:H2; try reflexivity; nia. }
  rewrite Hsign. destruct (0 <=? n2).
  - apply div_cross; lia.
  - f_equal. apply div_cross; lia.
Qed.

(** C7 as the specification words it: for every in-range [x] the decoder
    recovers [round (x, 2)].  The binary32 next to 0.005 lies below 0.005,
    so [round (x, 2)] is 0.00; its binary32 product with 100 is 0.5
    exactly, the field is 1 and the decoder returns 0.01. *)
Lemma round_trip_fails_below_half_cent :
  valid_binary prec emax half_cent = true
  /\ Qle (Qabs (exact half_cent)) (Qmake 32767 100)
  /\ Qlt (exact half_cent) (Qmake 5 1000)
  /\ mul half_cent hundred = S754_finite false 8388608 (-24)
  /\ fixed_point half_cent = 1
  /\ Qeq (round2 half_cent) 0
  /\ ~ Qeq (decode (fixed_point half_cent)) (round2 half_cent).
Proof.
  split; [reflexivity|].
  split; [vm_compute; discriminate|].
  split; [vm_compute; reflexivity|].
  split; [vm_compute; reflexivity|].
  split; [vm_compute; reflexivity|].
  split; [vm_compute; reflexivity|].
  vm_compute. discriminate.
Qed.

(* ================================================================== *)
(** ** bubbleSort as a sorting routine *)
(* ================================================================== *)

Lemma bubbleSort_sort_list stray (h : heap) A arr len :
  h !! A = Some arr -> len <= Z.of_nat (length arr) ->
  bubbleSort stray h A len
  = (fun l' => <[A := l' ++ drop (Z.to_nat len) arr]> h)
      <$> sort_list (S (Z.to_nat len)) (take (Z.to_nat len) arr).
Proof. intros HA Hlen. by apply bubbleSort_loop_list. Qed.

(** X1.  [bubbleSort] sorts in place: the first [len] cells of the block
    come out as a rearrangement of what they were in which no cell is
    greater than its successor (no cell greater than any later one when
    there is no NaN among them); the cells from [len] on and every other
    block are as before. *)
Theorem bubbleSort_sorts_in_place
    (stray : addr -> Z -> float) (h : heap) (A : addr)
    (arr : list float) (len : Z) :
  h !! A = Some arr ->
  len <= Z.of_nat (length arr) ->
  exists h' l,
    bubbleSort stray h A len = Some h'
    /\ h' !! A = Some (l ++ drop (Z.to_nat len) arr)
    /\ l ≡ₚ take (Z.to_nat len) arr
    /\ Sorted le l
    /\ (no_nan (take (Z.to_nat len) arr) -> StronglySorted le l)
    /\ (forall B, B <> A -> h' !! B = h !! B).
Proof.
  intros HA Hlen.
  destruct (bubbleSort_block stray h A arr len HA Hlen) as (l & Hb & Hs & Hp).
  exists (<[A := l ++ drop (Z.to_nat len) arr]> h), l.
  split; [exact Hb|]. split; [apply lookup_insert_eq|].
  split; [exact Hp|]. split; [exact Hs|]. split.
  - intros Hn. apply Sorted_le_strongly; [|exact Hs].
    unfold no_nan. by rewrite Hp.
  - intros B HB. by rewrite lookup_insert_ne.
Qed.

Lemma bubbleSort_sorts_in_place_witness :
  demo_heap !! demo_block = Some demo_cells
  /\ 2 <= Z.of_nat (length demo_cells)
  /\ exists h' l,
       bubbleSort no_stray demo_heap demo_block 2 = Some h'
       /\ h' !! demo_block = Some (l ++ drop (Z.to_nat 2) demo_cells)
       /\ l ≡ₚ take (Z.to_nat 2) demo_cells
       /\ Sorted le l
       /\ (no_nan (take (Z.to_nat 2) demo_cells) -> StronglySorted le l)
       /\ (forall B, B <> demo_block -> h' !! B = demo_heap !! B).
Proof.
  split; [reflexivity|]. split; [simpl; lia|].
  apply (bubbleSort_sorts_in_place no_stray demo_heap demo_block demo_cells 2);
    [reflexivity|simpl; lia].
Defined.

(** X2.  With [len] at most 1 (0 and the negative ones included)
    [bubbleSort] makes its one pass without touching memory, whatever [A]
    points to. *)
Theorem bubbleSort_short_is_identity
    (stray : addr -> Z -> float) (h : heap) (A : addr) (len : Z) :
  len <= 1 ->
  bubbleSort stray h A len = Some h.
Proof.
  intros Hlen. unfold bubbleSort.
  assert (bubble_pass stray h A len = (h, 1)) as Hpass.
  { unfold bubble_pass. by replace (Z.to_nat (len - 1)) with O by lia. }
  cbn [bubbleSort_loop]. by rewrite Hpass.
Qed.

Lemma bubbleSort_short_is_identity_witness :
  1 <= 1 /\ bubbleSort no_stray demo_heap demo_block 1 = Some demo_heap.
Proof.
  split; [lia|].
  apply (bubbleSort_short_is_identity no_stray demo_heap demo_block 1). lia.
Defined.

(** X3.  Sorting twice is sorting once: on the heap a first call returns,
    a second call with the same arguments returns that heap again. *)
Theorem bubbleSort_idempotent
    (stray : addr -> Z -> float) (h : heap) (A : addr)
    (arr : list float) (len : Z) :
  h !! A = Some arr ->
  len <= Z.of_nat (length arr) ->
  exists h',
    bubbleSort stray h A len = Some h'
    /\ bubbleSort stray h' A len = Some h'.
Proof.
  intros HA Hlen.
  destruct (bubbleSort_block stray h A arr len HA Hlen) as (l & Hb & Hs & Hp).
  exists (<[A := l ++ drop (Z.to_nat len) arr]> h). split; [exact Hb|].
  assert (length l = Z.to_nat len) as Hl
    by (rewrite Hp, length_take; lia).
  rewrite (bubbleSort_sort_list stray _ A (l ++ drop (Z.to_nat len) arr) len);
    [|apply lookup_insert_eq|rewrite length_app, length_drop; lia].
  rewrite take_app_length', drop_app_length' by done.
  destruct (pass_list_sorted l Hs) as [Hpass Hnewn].
  cbn [sort_list]. rewrite Hnewn, Hpass. simpl.
  by rewrite insert_insert_eq.
Qed.

Lemma bubbleSort_idempotent_witness :
  demo_heap !! demo_block = Some demo_cells
  /\ 3 <= Z.of_nat (length demo_cells)
  /\ exists h',
       bubbleSort no_stray demo_heap demo_block 3 = Some h'
       /\ bubbleSort no_stray h' demo_block 3 = Some h'.
Proof.
  split; [reflexivity|]. split; [simpl; lia|].
  apply (bubbleSort_idempotent no_stray demo_heap demo_block demo_cells 3);
    [reflexivity|simpl; lia].
Defined.

(* ================================================================== *)
(** ** median as a function of the samples *)
(* ================================================================== *)

(** [median] depends on the heap through the first [m] cells of the
    sample block only. *)
Lemma median_content stray (h : heap) samples arr m :
  h !! samples = Some arr -> 1 <= m <= Z.of_nat (length arr) ->
  median stray h samples m = (fun r => (h, r)) <$> median_of arr m.
Proof.
  intros Hs Hm. unfold median, median_of, alloca. set (a := fresh (dom h)).
  set (init := map _ _).
  assert (length init = Z.to_nat m) as Hinit
    by (unfold init; by rewrite length_map, length_seq).
  assert (samples <> a) as Hne.
  { intros ->. pose proof (alloca_fresh h) as Hf. fold a in Hf. congruence. }
  pose proof (copy_loop_take stray (Z.to_nat m) 0 h a samples arr init Hs Hne
                ltac:(lia) ltac:(lia)) as Hcopy.
  change (Z.of_nat 0) with 0 in Hcopy. simpl in Hcopy.
  rewrite drop_0 in Hcopy. rewrite Hcopy.
  rewrite drop_ge, app_nil_r by lia.
  assert (length (take (Z.to_nat m) arr) = Z.to_nat m) as Hlt
    by (rewrite length_take; lia).
  rewrite (bubbleSort_sort_list stray _ a (take (Z.to_nat m) arr) m);
    [|apply lookup_insert_eq|lia].
  rewrite (take_ge (take (Z.to_nat m) arr)) by lia.
  rewrite (drop_ge (take (Z.to_nat m) arr)) by lia.
  destruct (sort_list_terminates (S (Z.to_nat m)) (take (Z.to_nat m) arr))
    as (l' & Hl' & _ & Hp).
  { pose proof (last_ooo_bound (take (Z.to_nat m) arr)). lia. }
  rewrite Hl'. cbn [fmap option_fmap option_map mbind option_bind].
  rewrite app_nil_r, insert_insert_eq.
  rewrite (midpoint_loads stray (<[a := l']> h) a l' m);
    [|apply lookup_insert_eq|lia|by rewrite Hp].
  by rewrite delete_insert_id by apply alloca_fresh.
Qed.

Lemma median_of_sorted arr m :
  1 <= m <= Z.of_nat (length arr) ->
  exists l, median_of arr m = Some (midpoint l)
    /\ Sorted le l /\ l ≡ₚ take (Z.to_nat m) arr
    /\ length l = Z.to_nat m.
Proof.
  intros Hm. unfold median_of.
  destruct (sort_list_terminates (S (Z.to_nat m)) (take (Z.to_nat m) arr))
    as (l & -> & Hs & Hp).
  { pose proof (last_ooo_bound (take (Z.to_nat m) arr)).
    rewrite length_take in *. lia. }
  exists l. repeat split; try done. rewrite Hp, length_take. lia.
Qed.

(** X4.  Two sample blocks that agree on their first [m] cells have the
    same median, whatever lies beyond and whatever else the two heaps
    hold: [median] reads [samples[0 .. m - 1]] and nothing else. *)
Theorem median_reads_first_m_only
    (stray : addr -> Z -> float) (h1 h2 : heap) (s1 s2 : addr)
    (arr1 arr2 : list float) (m : Z) :
  h1 !! s1 = Some arr1 ->
  h2 !! s2 = Some arr2 ->
  1 <= m <= Z.of_nat (length arr1) ->
  m <= Z.of_nat (length arr2) ->
  take (Z.to_nat m) arr1 = take (Z.to_nat m) arr2 ->
  exists r,
    median stray h1 s1 m = Some (h1, r)
    /\ median stray h2 s2 m = Some (h2, r).
Proof.
  intros H1 H2 Hm1 Hm2 E.
  rewrite (median_content stray h1 s1 arr1 m H1 Hm1).
  rewrite (median_content stray h2 s2 arr2 m H2) by lia.
  unfold median_of. rewrite <- E.
  destruct (median_of_sorted arr1 m Hm1) as (l & Hl & _).
  unfold median_of in Hl. rewrite Hl. by exists (midpoint l).
Qed.

Lemma median_reads_first_m_only_witness :
  demo_heap !! demo_block = Some demo_cells
  /\ twin_heap !! twin_block = Some twin_cells
  /\ 1 <= 2 <= Z.of_nat (length demo_cells)
  /\ 2 <= Z.of_nat (length twin_cells)
  /\ take (Z.to_nat 2) demo_cells = take (Z.to_nat 2) twin_cells
  /\ exists r,
       median no_stray demo_heap demo_block 2 = Some (demo_heap, r)
       /\ median no_stray twin_heap twin_block 2 = Some (twin_heap, r).
Proof.
  split; [reflexivity|]. split; [reflexivity|].
  split; [simpl; lia|]. split; [simpl; lia|]. split; [reflexivity|].
  apply (median_reads_first_m_only no_stray demo_heap twin_heap
           demo_block twin_block demo_cells twin_cells 2);
    [reflexivity|reflexivity|simpl; lia|simpl; lia|reflexivity].
Defined.

Lemma count_if_app f l1 l2 :
  count_if f (l1 ++ l2) = (count_if f l1 + count_if f l2)%nat.
Proof.
  induction l1 as [|x l1 IH]; simpl; [done|]. destruct (f x); simpl; lia.
Qed.

Lemma count_if_perm f l1 l2 : l1 ≡ₚ l2 -> count_if f l1 = count_if f l2.
Proof.
  induction 1 as [|x l1 l2 _ IH|x y l|l1 l2 l3 _ IH1 _ IH2]; simpl.
  - done.
  - by rewrite IH.
  - by destruct (f x), (f y).
  - by rewrite IH1.
Qed.

Lemma count_if_all f l :
  Forall (fun x => f x = true) l -> count_if f l = length l.
Proof.
  induction 1 as [|x l Hx _ IH]; simpl; [done|]. by rewrite Hx, IH.
Qed.

Lemma count_if_le_length f l : (count_if f l <= length l)%nat.
Proof. induction l as [|x l IH]; simpl; [done|]. destruct (f x); lia. Qed.

Lemma strongly_sorted_lookup l i j x y :
  StronglySorted le l -> l !! i = Some x -> l !! j = Some y ->
  (i <= j)%nat -> le x y.
Proof.
  intros Hs. revert i j. induction Hs as [|a l Hs IH Ha]; intros i j Hi Hj Hij.
  { done. }
  destruct i as [|i], j as [|j]; simpl in *; try lia.
  - simplify_eq. apply gt_irrefl.
  - simplify_eq. rewrite Forall_forall in Ha.
    apply Ha. by apply list_elem_of_lookup_2 in Hj.
  - apply (IH i j); (done || lia).
Qed.

Lemma even_to_nat m : 0 <= m -> Nat.even (Z.to_nat m) = Z.even m.
Proof.
  intros Hm. destruct (Nat.even (Z.to_nat m)) eqn:E; symmetry.
  - apply Nat.even_spec in E as [k Hk].
    apply Z.even_spec. exists (Z.of_nat k). lia.
  - assert (Nat.odd (Z.to_nat m) = true) as Ho
      by (by rewrite <- Nat.negb_even, E).
    apply Nat.odd_spec in Ho as [k Hk].
    rewrite <- Z.negb_odd. apply negb_false_iff.
    apply Z.odd_spec. exists (Z.of_nat k). lia.
Qed.

(** X5.  The median is a middle value.  Among [m >= 1] samples without
    NaN there are two, [lo <= hi], such that [median] returns [hi] for an
    odd [m] and [(lo + hi) / 2] for an even one, at least half of the
    samples are not greater than [lo] and at least half are not less than
    [hi].  For an odd [m] the two are one sample: the value returned is
    one of the samples, however far the others lie. *)
Theorem median_is_a_middle_value
    (stray : addr -> Z -> float) (h : heap) (samples : addr)
    (arr : list float) (m : Z) :
  h !! samples = Some arr ->
  1 <= m <= Z.of_nat (length arr) ->
  no_nan (take (Z.to_nat m) arr) ->
  exists lo hi,
    lo ∈ take (Z.to_nat m) arr
    /\ hi ∈ take (Z.to_nat m) arr
    /\ le lo hi
    /\ median stray h samples m
       = Some (h, if Z.even m then div (add lo hi) two else hi)
    /\ (Z.even m = false -> lo = hi)
    /\ (Z.to_nat m
        <= 2 * count_if (fun x => negb (gt x lo)) (take (Z.to_nat m) arr))%nat
    /\ (Z.to_nat m
        <= 2 * count_if (fun x => negb (gt hi x)) (take (Z.to_nat m) arr))%nat.
Proof.
  intros Hs Hm Hn.
  rewrite (median_content stray h samples arr m Hs Hm).
  destruct (median_of_sorted arr m Hm) as (l & -> & Hsorted & Hp & Hlen).
  set (n := Z.to_nat m) in *.
  assert (1 <= n)%nat as Hn1 by lia.
  assert (StronglySorted le l) as Hss.
  { apply Sorted_le_strongly; [|done]. unfold no_nan. by rewrite Hp. }
  assert ((n - 1) / 2 < n)%nat as Hilo by (apply Nat.Div0.div_lt_upper_bound; lia).
  assert (n / 2 < n)%nat as Hihi by (apply Nat.div_lt; lia).
  assert ((n - 1) / 2 <= n / 2)%nat as Hlohi
    by (apply Nat.Div0.div_le_mono; lia).
  destruct (lookup_lt_is_Some_2 l ((n - 1) / 2)) as [lo Hlo]; [lia|].
  destruct (lookup_lt_is_Some_2 l (n / 2)) as [hi Hhi]; [lia|].
  exists lo, hi.
  split; [rewrite <- Hp; by apply list_elem_of_lookup_2 in Hlo|].
  split; [rewrite <- Hp; by apply list_elem_of_lookup_2 in Hhi|].
  split; [by apply (strongly_sorted_lookup l _ _ lo hi Hss Hlo Hhi)|].
  assert (Nat.even n = Z.even m) as Hev by (apply even_to_nat; lia).
  split.
  { cbn [fmap option_fmap option_map]. do 2 f_equal.
    unfold midpoint. rewrite Hlen. fold n. rewrite Hev.
    destruct (Z.even m) eqn:Hem.
    - assert ((n - 1) / 2 = n / 2 - 1)%nat as E.
      { apply Nat.even_spec in Hev as [k Hk]. rewrite Hk.
        replace (2 * k - 1)%nat with (1 + (k - 1) * 2)%nat by lia.
        rewrite Nat.div_add by lia. rewrite (Nat.mul_comm 2 k).
        rewrite Nat.div_mul by lia. simpl. lia. }
      rewrite <- E.
      by rewrite (nth_lookup_Some _ _ _ _ Hlo), (nth_lookup_Some _ _ _ _ Hhi).
    - by rewrite (nth_lookup_Some _ _ _ _ Hhi). }
  split.
  { intros Hodd. rewrite Hodd in Hev.
    assert (Nat.odd n = true) as Ho by (by rewrite <- Nat.negb_even, Hev).
    apply Nat.odd_spec in Ho as [k Hk].
    assert ((n - 1) / 2 = n / 2)%nat as E.
    { rewrite Hk. replace (2 * k + 1 - 1)%nat with (k * 2)%nat by lia.
      rewrite Nat.div_mul by lia.
      replace (2 * k + 1)%nat with (1 + k * 2)%nat by lia.
      rewrite Nat.div_add by lia. simpl. lia. }
    rewrite E in Hlo. congruence. }
  split.
  - rewrite <- (count_if_perm _ _ _ Hp).
    rewrite <- (take_drop (S ((n - 1) / 2)) l), count_if_app.
    rewrite (count_if_all _ (take _ l)).
    + rewrite length_take.
      assert (n <= 2 * S ((n - 1) / 2))%nat; [|lia].
      pose proof (Nat.div_mod_eq (n - 1) 2).
      pose proof (Nat.mod_upper_bound (n - 1) 2). lia.
    + apply Forall_forall. intros x Hx.
      apply list_elem_of_lookup in Hx as [i Hi].
      apply lookup_take_Some in Hi as [Hi Hlt].
      pose proof (strongly_sorted_lookup l i _ x lo Hss Hi Hlo ltac:(lia)) as Hle.
      unfold le in Hle. by rewrite Hle.
  - rewrite <- (count_if_perm _ _ _ Hp).
    rewrite <- (take_drop (n / 2) l), count_if_app.
    rewrite (count_if_all _ (drop _ l)).
    + rewrite length_drop.
      assert (n <= 2 * (n - n / 2))%nat; [|lia].
      pose proof (Nat.div_mod_eq n 2).
      pose proof (Nat.mod_upper_bound n 2). lia.
    + apply Forall_forall. intros x Hx.
      apply list_elem_of_lookup in Hx as [i Hi].
      rewrite lookup_drop in Hi.
      pose proof (strongly_sorted_lookup l _ _ hi x Hss Hhi Hi ltac:(lia)) as Hle.
      unfold le in Hle. by rewrite Hle.
Qed.

Lemma median_is_a_middle_value_witness :
  demo_heap !! demo_block = Some demo_cells
  /\ 1 <= 3 <= Z.of_nat (length demo_cells)
  /\ no_nan (take (Z.to_nat 3) demo_cells)
  /\ exists lo hi,
    lo ∈ take (Z.to_nat 3) demo_cells
    /\ hi ∈ take (Z.to_nat 3) demo_cells
    /\ le lo hi
    /\ median no_stray demo_heap demo_block 3
       = Some (demo_heap, if Z.even 3 then div (add lo hi) two else hi)
    /\ (Z.even 3 = false -> lo = hi)
    /\ (Z.to_nat 3
        <= 2 * count_if (fun x => negb (gt x lo)) (take (Z.to_nat 3) demo_cells))%nat
    /\ (Z.to_nat 3
        <= 2 * count_if (fun x => negb (gt hi x)) (take (Z.to_nat 3) demo_cells))%nat.
Proof.
  split; [reflexivity|]. split; [simpl; lia|].
  split; [repeat constructor|].
  apply (median_is_a_middle_value no_stray demo_heap demo_block demo_cells 3);
    [reflexivity|simpl; lia|repeat constructor].
Defined.

(* ================================================================== *)
(** ** The payload as a code *)
(* ================================================================== *)

(** X6.  No two quadruples of 16-bit fields share a payload: from the
    eight bytes the four fields are recovered. *)
Theorem encode_injective (a b c d a' b' c' d' : Z) :
  - 32768 <= a < 32768 -> - 32768 <= b < 32768 ->
  - 32768 <= c < 32768 -> - 32768 <= d < 32768 ->
  - 32768 <= a' < 32768 -> - 32768 <= b' < 32768 ->
  - 32768 <= c' < 32768 -> - 32768 <= d' < 32768 ->
  encode a b c d = encode a' b' c' d' ->
  a = a' /\ b = b' /\ c = c' /\ d = d'.
Proof.
  intros Ha Hb Hc Hd Ha' Hb' Hc' Hd' E.
  rewrite !encode_be16 in E. unfold be16 in E. cbn [app] in E.
  injection E as E1 E2 E3 E4 E5 E6 E7 E8.
  rewrite <- (of_be16_be16 a Ha), <- (of_be16_be16 b Hb),
    <- (of_be16_be16 c Hc), <- (of_be16_be16 d Hd).
  rewrite E1, E2, E3, E4, E5, E6, E7, E8.
  by rewrite !of_be16_be16.
Qed.

Lemma encode_injective_witness :
  - 32768 <= 1500 < 32768 /\ - 32768 <= 1200 < 32768
  /\ - 32768 <= 55 < 32768 /\ - 32768 <= -3 < 32768
  /\ - 32768 <= 1500 < 32768 /\ - 32768 <= 1200 < 32768
  /\ - 32768 <= 55 < 32768 /\ - 32768 <= -3 < 32768
  /\ encode 1500 1200 55 (-3) = encode 1500 1200 55 (-3)
  /\ 1500 = 1500 /\ 1200 = 1200 /\ 55 = 55 /\ -3 = -3.
Proof.
  do 8 (split; [lia|]). split; [reflexivity|].
  apply (encode_injective 1500 1200 55 (-3) 1500 1200 55 (-3));
    (lia || reflexivity).
Defined.

(** X7.  A scaled reading between 0 and 65535 is on the wire as it is:
    read as an unsigned 16-bit number, the two bytes of the field give
    [round (x * 100)] back, although from 32768 on the [int16_t] field
    itself is negative, [round (x * 100) - 65536]. *)
Theorem field_bytes_read_unsigned (x : float) :
  0 <= round (mul x hundred) < 65536 ->
  256 * highByte (fixed_point x) + lowByte (fixed_point x)
  = round (mul x hundred)
  /\ (32768 <= round (mul x hundred) ->
        fixed_point x = round (mul x hundred) - 65536).
Proof.
  intros Hr. rewrite highByte_div, lowByte_mod.
  unfold fixed_point, wrap_signed.
  change (2 ^ (16 - 1)) with 32768. change (2 ^ 16) with 65536.
  set (r := round (mul x hundred)) in *.
  split; [|intros Hbig]; Z.div_mod_to_equations; lia.
Qed.

Lemma field_bytes_read_unsigned_witness :
  0 <= round (mul four_hundred hundred) < 65536
  /\ 256 * highByte (fixed_point four_hundred) + lowByte (fixed_point four_hundred)
     = round (mul four_hundred hundred)
  /\ (32768 <= round (mul four_hundred hundred) ->
        fixed_point four_hundred = round (mul four_hundred hundred) - 65536).
Proof.
  split; [vm_compute; split; [discriminate|reflexivity]|].
  apply (field_bytes_read_unsigned four_hundred).
  vm_compute; split; [discriminate|reflexivity].
Defined.

(* ================================================================== *)
(** ** What a cycle and a run of cycles keep *)
(* ================================================================== *)

Lemma store_other (h : heap) A B i v : A <> B -> store h A i v !! B = h !! B.
Proof.
  intros Hne. unfold store. destruct (h !! A) as [arr|]; [|done].
  destruct (in_block arr i); [|done]. by rewrite lookup_insert_ne.
Qed.

Lemma sampled_step env delay2 n i g :
  sampled env delay2 (S n) i g
  = sampled env delay2 n (i + 1) (fst (sample_step env delay2 i (g, []))).
Proof.
  unfold sampled. cbn [for_loop].
  destruct (sample_step env delay2 i (g, [])) as [g1 tr1] eqn:E.
  rewrite (sampling_trace env delay2 n (i + 1) g1 tr1). done.
Qed.

(** The sampling loop writes to the two sample arrays only. *)
Lemma sampled_other env delay2 n i g B :
  B <> samples_p10 -> B <> samples_p25 ->
  mem (sampled env delay2 n i g) !! B = mem g !! B.
Proof.
  intros H10 H25. revert i g. induction n as [|n IH]; intros i g; [done|].
  rewrite sampled_step, IH. unfold sample_step. cbn [fst mem error p10 p25].
  destruct (sds_error (sds_read env i) =? 0); cbn [mem]; [|done].
  rewrite !store_other by done. done.
Qed.

(** Failed reads leave the heap as it is. *)
Lemma sampled_all_fail env delay2 n (k : nat) g :
  (forall i, Z.of_nat k <= i < Z.of_nat (k + n) ->
     sds_error (sds_read env i) <> 0) ->
  mem (sampled env delay2 n (Z.of_nat k) g) = mem g.
Proof.
  revert k g. induction n as [|n IH]; intros k g Hf; [done|].
  rewrite sampled_step.
  replace (Z.of_nat k + 1) with (Z.of_nat (S k)) by lia.
  rewrite IH by (intros i Hi; apply Hf; lia).
  unfold sample_step. cbn [fst mem error p10 p25].
  destruct (sds_error (sds_read env (Z.of_nat k)) =? 0) eqn:E; [|done].
  exfalso. apply (Hf (Z.of_nat k)); lia.
Qed.

Lemma sent_app tr1 tr2 : sent (tr1 ++ tr2) = sent tr1 ++ sent tr2.
Proof.
  induction tr1 as [|e tr1 IH]; simpl; [done|].
  destruct e; simpl; by rewrite IH.
Qed.

Lemma sent_cycle cfg payload :
  sent (wake_trace cfg ++ replicate 10 (Delay 1100)
        ++ SendBytes payload 8 :: sleep_trace cfg) = [payload].
Proof.
  rewrite !sent_app. unfold wake_trace, sleep_trace.
  by destruct (SLEEP_ON cfg), (PWR_DOWN cfg).
Qed.

Lemma sum_delays_app tr1 tr2 :
  sum_delays (tr1 ++ tr2) = sum_delays tr1 + sum_delays tr2.
Proof.
  induction tr1 as [|e tr1 IH]; simpl; [done|].
  destruct e; simpl; rewrite IH; lia.
Qed.

(** X8.  Without deep power-down and with a sleep interval that covers
    warm-up and sampling (the hypotheses of the fallback delay), the
    delays of one cycle add up to the sleep interval: [60000 * SLEEP_TIME]
    ms from one warm-up to the next, whatever the warm-up takes. *)
Theorem cycle_delays_add_up_to_interval
    (stray : addr -> Z -> float) (cfg : configuration)
    (env : environment) (g : globals) :
  SLEEP_ON cfg = true ->
  PWR_DOWN cfg = false ->
  0 <= FAN_SPINUP cfg ->
  0 <= SLEEP_TIME cfg <= 35791 ->
  1000 * FAN_SPINUP cfg + 10 * 1100 <= 1000 * 60 * SLEEP_TIME cfg ->
  exists g' tr,
    loop stray cfg env g = Some (g', tr)
    /\ sum_delays tr = 1000 * 60 * SLEEP_TIME cfg.
Proof.
  intros Hon Hpd Hf Hs Hb.
  destruct (loop_trace stray cfg env g) as (r25 & r10 & _ & _ & ->).
  eexists _, _. split; [reflexivity|].
  unfold wake_trace, sleep_trace. rewrite Hon, Hpd.
  rewrite (fallback_delay_exact cfg Hf Hs Hb).
  rewrite (wrap_signed_32_small (1000 * FAN_SPINUP cfg)) by lia.
  rewrite wrap_unsigned_32_small by lia.
  rewrite !sum_delays_app.
  change (sum_delays (replicate 10 (Delay 1100))) with 11000.
  cbn [sum_delays]. lia.
Qed.

Lemma cycle_delays_add_up_to_interval_witness :
  SLEEP_ON demo_config = true
  /\ PWR_DOWN demo_config = false
  /\ 0 <= FAN_SPINUP demo_config
  /\ 0 <= SLEEP_TIME demo_config <= 35791
  /\ 1000 * FAN_SPINUP demo_config + 10 * 1100
     <= 1000 * 60 * SLEEP_TIME demo_config
  /\ exists g' tr,
       loop no_stray demo_config failing_sensor boot = Some (g', tr)
       /\ sum_delays tr = 1000 * 60 * SLEEP_TIME demo_config.
Proof.
  split; [reflexivity|]. split; [reflexivity|].
  split; [simpl; lia|]. split; [simpl; lia|]. split; [simpl; lia|].
  apply (cycle_delays_add_up_to_interval no_stray demo_config failing_sensor boot);
    [reflexivity|reflexivity|simpl; lia|simpl; lia|simpl; lia].
Defined.

(** With every read successful the sample arrays hold the ten readings,
    whatever they held. *)
Lemma sampled_all_good env g a b :
  mem g !! samples_p10 = Some a -> mem g !! samples_p25 = Some b ->
  length a = 10%nat -> length b = 10%nat ->
  (forall i, 0 <= i < 10 -> sds_error (sds_read env i) = 0) ->
  mem (sampled env 1100 10 0 g) !! samples_p10
    = Some (map (fun j => sds_p10 (sds_read env (Z.of_nat j))) (seq 0 10))
  /\ mem (sampled env 1100 10 0 g) !! samples_p25
    = Some (map (fun j => sds_p25 (sds_read env (Z.of_nat j))) (seq 0 10)).
Proof.
  intros Ha Hb La Lb Hgood.
  destruct (sampled_blocks env 1100 10 0 g a b Ha Hb)
    as (a' & b' & Ha' & Hb' & La' & Lb' & Sa & Sb); [lia|lia|].
  change (Z.of_nat 0) with 0 in Ha', Hb'.
  rewrite Ha', Hb'.
  split; f_equal; apply list_eq; intros j.
  - destruct (decide (j < 10)%nat) as [Hj|Hj].
    + destruct (lookup_lt_is_Some_2 a j) as [x Hx]; [lia|].
      rewrite (Sa j x Hx), decide_True by lia.
      unfold slot_after. rewrite Hgood by lia. cbn [Z.eqb].
      rewrite list_lookup_fmap, lookup_seq_lt by lia. done.
    + rewrite !lookup_ge_None_2; [done|rewrite length_map, length_seq; lia|lia].
  - destruct (decide (j < 10)%nat) as [Hj|Hj].
    + destruct (lookup_lt_is_Some_2 b j) as [x Hx]; [lia|].
      rewrite (Sb j x Hx), decide_True by lia.
      unfold slot_after. rewrite Hgood by lia. cbn [Z.eqb].
      rewrite list_lookup_fmap, lookup_seq_lt by lia. done.
    + rewrite !lookup_ge_None_2; [done|rewrite length_map, length_seq; lia|lia].
Qed.

Lemma median_of_from_median stray (h : heap) samples arr m r :
  h !! samples = Some arr -> 1 <= m <= Z.of_nat (length arr) ->
  median stray h samples m = Some (h, r) -> median_of arr m = Some r.
Proof.
  intros Hs Hm. rewrite (median_content stray h samples arr m Hs Hm).
  destruct (median_of arr m); simpl; congruence.
Qed.

(** X9.  A cycle in which all ten reads succeed owes nothing to the
    cycles before it: from any two states that hold the two sample arrays
    it produces the same trace, payload included. *)
Theorem full_cycle_forgets_the_past
    (stray : addr -> Z -> float) (cfg : configuration)
    (env : environment) (g g' : globals) :
  well_formed g ->
  well_formed g' ->
  (forall i, 0 <= i < 10 -> sds_error (sds_read env i) = 0) ->
  exists tr,
    snd <$> loop stray cfg env g = Some tr
    /\ snd <$> loop stray cfg env g' = Some tr.
Proof.
  intros (a & b & Ha & Hb & La & Lb) (a' & b' & Ha' & Hb' & La' & Lb') Hgood.
  destruct (sampled_all_good env g a b Ha Hb La Lb Hgood) as [A10 A25].
  destruct (sampled_all_good env g' a' b' Ha' Hb' La' Lb' Hgood) as [B10 B25].
  destruct (loop_trace stray cfg env g) as (r25 & r10 & H25 & H10 & ->).
  destruct (loop_trace stray cfg env g') as (s25 & s10 & G25 & G10 & ->).
  apply (median_of_from_median stray _ _ _ 10 _ A25) in H25;
    [|rewrite length_map, length_seq; lia].
  apply (median_of_from_median stray _ _ _ 10 _ A10) in H10;
    [|rewrite length_map, length_seq; lia].
  apply (median_of_from_median stray _ _ _ 10 _ B25) in G25;
    [|rewrite length_map, length_seq; lia].
  apply (median_of_from_median stray _ _ _ 10 _ B10) in G10;
    [|rewrite length_map, length_seq; lia].
  assert (s25 = r25) as -> by congruence.
  assert (s10 = r10) as -> by congruence.
  eexists. split; reflexivity.
Qed.

Lemma full_cycle_forgets_the_past_witness :
  well_formed boot
  /\ well_formed sevens
  /\ (forall i, 0 <= i < 10 -> sds_error (sds_read good_sensor i) = 0)
  /\ exists tr,
       snd <$> loop no_stray demo_config good_sensor boot = Some tr
       /\ snd <$> loop no_stray demo_config good_sensor sevens = Some tr.
Proof.
  assert (well_formed boot) as Hb
    by (exists (replicate 10 zero), (replicate 10 zero); repeat split; reflexivity).
  assert (well_formed sevens) as Hs
    by (exists (replicate 10 seven), (replicate 10 seven); repeat split; reflexivity).
  split; [exact Hb|]. split; [exact Hs|].
  split; [intros i _; reflexivity|].
  apply (full_cycle_forgets_the_past no_stray demo_config good_sensor boot sevens);
    [exact Hb|exact Hs|intros i _; reflexivity].
Defined.

Lemma mem_mk (M : heap) a b c :
  mem {| mem := M; p10 := a; p25 := b; error := c |} = M.
Proof. reflexivity. Qed.

(** X10.  A cycle in which all ten reads fail leaves the heap as it found
    it and sends the particulate fields of the cycle before once more:
    the first four bytes of its payload are those of the previous
    payload. *)
Theorem failed_cycle_repeats_previous
    (stray : addr -> Z -> float) (cfg : configuration)
    (env1 env2 : environment) (g : globals) :
  (forall i, 0 <= i < 10 -> sds_error (sds_read env2 i) <> 0) ->
  exists g1 g2 tr1 tr2 payload1 payload2,
    loop stray cfg env1 g = Some (g1, tr1)
    /\ loop stray cfg env2 g1 = Some (g2, tr2)
    /\ mem g2 = mem g1
    /\ sent tr1 = [payload1]
    /\ sent tr2 = [payload2]
    /\ take 4 payload2 = take 4 payload1.
Proof.
  intros Hfail.
  destruct (loop_trace stray cfg env1 g) as (r25 & r10 & H25 & H10 & Hloop1).
  remember {| mem := mem (sampled env1 1100 10 0 g);
              p10 := p10 (sampled env1 1100 10 0 g);
              p25 := p25 (sampled env1 1100 10 0 g);
              error := error (sampled env1 1100 10 0 g) |} as g1 eqn:Eg1.
  assert (mem g1 = mem (sampled env1 1100 10 0 g)) as Hg1
    by (rewrite Eg1; apply mem_mk).
  clear Eg1.
  assert (mem (sampled env2 1100 10 0 g1) = mem g1) as Hm.
  { change 0 with (Z.of_nat 0). rewrite sampled_all_fail; [done|].
    intros i Hi. apply Hfail. lia. }
  destruct (loop_trace stray cfg env2 g1) as (s25 & s10 & G25 & G10 & Hloop2).
  rewrite Hm, Hg1 in G25, G10.
  assert (s25 = r25) as -> by congruence.
  assert (s10 = r10) as -> by congruence.
  remember {| mem := mem (sampled env2 1100 10 0 g1);
              p10 := p10 (sampled env2 1100 10 0 g1);
              p25 := p25 (sampled env2 1100 10 0 g1);
              error := error (sampled env2 1100 10 0 g1) |} as g2 eqn:Eg2.
  assert (mem g2 = mem g1) as Hg2
    by (rewrite Eg2, <- Hm; apply mem_mk).
  clear Eg2.
  eexists g1, g2, _, _, _, _.
  split; [exact Hloop1|]. split; [exact Hloop2|].
  split; [exact Hg2|].
  split; [apply sent_cycle|]. split; [apply sent_cycle|].
  reflexivity.
Qed.

Lemma failed_cycle_repeats_previous_witness :
  (forall i, 0 <= i < 10 -> sds_error (sds_read failing_sensor i) <> 0)
  /\ exists g1 g2 tr1 tr2 payload1 payload2,
       loop no_stray demo_config good_sensor boot = Some (g1, tr1)
       /\ loop no_stray demo_config failing_sensor g1 = Some (g2, tr2)
       /\ mem g2 = mem g1
       /\ sent tr1 = [payload1]
       /\ sent tr2 = [payload2]
       /\ take 4 payload2 = take 4 payload1.
Proof.
  split; [intros i _; discriminate|].
  apply (failed_cycle_repeats_previous no_stray demo_config
           good_sensor failing_sensor boot).
  intros i _; discriminate.
Defined.

Lemma loop_result stray cfg env g :
  exists g' payload,
    loop stray cfg env g
    = Some (g', wake_trace cfg ++ replicate 10 (Delay 1100)
                ++ SendBytes payload 8 :: sleep_trace cfg)
    /\ mem g' = mem (sampled env 1100 10 0 g)
    /\ length payload = 8%nat.
Proof.
  destruct (loop_trace stray cfg env g) as (r25 & r10 & _ & _ & Hloop).
  eexists _, _. split; [exact Hloop|]. split; [apply mem_mk|reflexivity].
Qed.

(** X11.  A cycle keeps the shape of the heap: the two sample arrays are
    still there with ten cells each, every other block is untouched, and
    no block is added (the local array of [median] is gone). *)
Theorem cycle_keeps_heap_shape
    (stray : addr -> Z -> float) (cfg : configuration)
    (env : environment) (g : globals) :
  well_formed g ->
  exists g' tr,
    loop stray cfg env g = Some (g', tr)
    /\ well_formed g'
    /\ dom (mem g') = dom (mem g)
    /\ (forall B, B <> samples_p10 -> B <> samples_p25 ->
          mem g' !! B = mem g !! B).
Proof.
  intros (a & b & Ha & Hb & La & Lb).
  destruct (loop_result stray cfg env g) as (g' & payload & Hloop & Hmem & _).
  destruct (sampled_blocks env 1100 10 0 g a b Ha Hb)
    as (a' & b' & Ha' & Hb' & La' & Lb' & _ & _); [lia|lia|].
  change (Z.of_nat 0) with 0 in Ha', Hb'.
  eexists g', _. split; [exact Hloop|].
  assert (forall B, B <> samples_p10 -> B <> samples_p25 ->
            mem g' !! B = mem g !! B) as Hother.
  { intros B H10 H25. rewrite Hmem. apply sampled_other; assumption. }
  split; [|split; [|exact Hother]].
  - exists a', b'. rewrite Hmem.
    split; [exact Ha'|]. split; [exact Hb'|]. split; lia.
  - apply set_eq. intros B. rewrite !elem_of_dom.
    destruct (decide (B = samples_p10)) as [->|H10].
    { rewrite Hmem, Ha', Ha. split; intros _; eexists; reflexivity. }
    destruct (decide (B = samples_p25)) as [->|H25].
    { rewrite Hmem, Hb', Hb. split; intros _; eexists; reflexivity. }
    rewrite (Hother B H10 H25). reflexivity.
Qed.

Lemma cycle_keeps_heap_shape_witness :
  well_formed boot
  /\ exists g' tr,
       loop no_stray demo_config one_good_read boot = Some (g', tr)
       /\ well_formed g'
       /\ dom (mem g') = dom (mem boot)
       /\ (forall B, B <> samples_p10 -> B <> samples_p25 ->
             mem g' !! B = mem boot !! B).
Proof.
  assert (well_formed boot) as Hb
    by (exists (replicate 10 zero), (replicate 10 zero); repeat split; reflexivity).
  split; [exact Hb|].
  apply (cycle_keeps_heap_shape no_stray demo_config one_good_read boot).
  exact Hb.
Defined.

Lemma cycles_cons stray cfg env rest g g1 tr1 g2 tr2 :
  loop stray cfg env g = Some (g1, tr1) ->
  cycles stray cfg rest g1 = Some (g2, tr2) ->
  cycles stray cfg (env :: rest) g = Some (g2, tr1 ++ tr2).
Proof.
  intros H1 H2. cbn [cycles]. rewrite H1.
  cbv beta iota delta [mbind option_bind]. rewrite H2. reflexivity.
Qed.

(** X12.  A run of cycles never stops short and transmits once per cycle:
    whatever the drivers answer, [n] calls of [loop] in a row all return
    and hand [n] payloads of 8 bytes to [sendBytes]. *)
Theorem every_cycle_of_a_run_transmits
    (stray : addr -> Z -> float) (cfg : configuration)
    (envs : list environment) (g : globals) :
  exists g' tr,
    cycles stray cfg envs g = Some (g', tr)
    /\ length (sent tr) = length envs
    /\ Forall (fun payload => length payload = 8%nat) (sent tr).
Proof.
  revert g. induction envs as [|env rest IH]; intros g.
  { exists g, []. repeat split. constructor. }
  destruct (loop_result stray cfg env g) as (g1 & payload & Hloop & _ & Hlen).
  destruct (IH g1) as (g2 & tr2 & Hrest & Hn & Hall).
  eexists g2, _. split; [exact (cycles_cons _ _ _ _ _ _ _ _ _ Hloop Hrest)|].
  rewrite sent_app, sent_cycle. cbn [app length].
  split; [by rewrite Hn|]. by constructor.
Qed.

(** X13.  Across cycles each cell of a sample array holds the reading of
    the most recent successful attempt with its index: cell [j] after the
    cycles [envs] is what the last of them whose read [j] succeeded
    delivered, and what the cell held before if none did. *)
Theorem cells_hold_latest_successful_read
    (stray : addr -> Z -> float) (cfg : configuration)
    (envs : list environment) (g : globals) (a b : list float) :
  mem g !! samples_p10 = Some a ->
  mem g !! samples_p25 = Some b ->
  length a = 10%nat ->
  length b = 10%nat ->
  exists g' tr a' b',
    cycles stray cfg envs g = Some (g', tr)
    /\ mem g' !! samples_p10 = Some a'
    /\ mem g' !! samples_p25 = Some b'
    /\ length a' = 10%nat /\ length b' = 10%nat
    /\ (forall j x, a !! j = Some x ->
          a' !! j = Some (latest sds_p10 j envs x))
    /\ (forall j x, b !! j = Some x ->
          b' !! j = Some (latest sds_p25 j envs x)).
Proof.
  revert g a b. induction envs as [|env rest IH]; intros g a b Ha Hb La Lb.
  { exists g, [], a, b. repeat split; done. }
  destruct (loop_result stray cfg env g) as (g1 & payload & Hloop & Hmem & _).
  destruct (sampled_blocks env 1100 10 0 g a b Ha Hb)
    as (a1 & b1 & Ha1 & Hb1 & La1 & Lb1 & Sa & Sb); [lia|lia|].
  change (Z.of_nat 0) with 0 in Ha1, Hb1.
  rewrite <- Hmem in Ha1, Hb1.
  destruct (IH g1 a1 b1 Ha1 Hb1 ltac:(lia) ltac:(lia))
    as (g2 & tr2 & a2 & b2 & Hrest & Ha2 & Hb2 & La2 & Lb2 & Sa2 & Sb2).
  eexists g2, _, a2, b2.
  split; [exact (cycles_cons _ _ _ _ _ _ _ _ _ Hloop Hrest)|].
  split; [exact Ha2|]. split; [exact Hb2|].
  split; [exact La2|]. split; [exact Lb2|].
  split.
  - intros j x Hj. pose proof (lookup_lt_Some _ _ _ Hj) as Hlt.
    pose proof (Sa j x Hj) as Hj1. rewrite decide_True in Hj1 by lia.
    rewrite (Sa2 j _ Hj1). reflexivity.
  - intros j x Hj. pose proof (lookup_lt_Some _ _ _ Hj) as Hlt.
    pose proof (Sb j x Hj) as Hj1. rewrite decide_True in Hj1 by lia.
    rewrite (Sb2 j _ Hj1). reflexivity.
Qed.

Lemma cells_hold_latest_successful_read_witness :
  mem boot !! samples_p10 = Some (replicate 10 zero)
  /\ mem boot !! samples_p25 = Some (replicate 10 zero)
  /\ length (replicate 10 zero) = 10%nat
  /\ length (replicate 10 zero) = 10%nat
  /\ exists g' tr a' b',
       cycles no_stray demo_config [one_good_read; failing_sensor] boot
         = Some (g', tr)
       /\ mem g' !! samples_p10 = Some a'
       /\ mem g' !! samples_p25 = Some b'
       /\ length a' = 10%nat /\ length b' = 10%nat
       /\ (forall j x, replicate 10 zero !! j = Some x ->
             a' !! j = Some (latest sds_p10 j [one_good_read; failing_sensor] x))
       /\ (forall j x, replicate 10 zero !! j = Some x ->
             b' !! j = Some (latest sds_p25 j [one_good_read; failing_sensor] x)).
Proof.
  split; [reflexivity|]. split; [reflexivity|].
  split; [reflexivity|]. split; [reflexivity|].
  apply (cells_hold_latest_successful_read no_stray demo_config
           [one_good_read; failing_sensor] boot
           (replicate 10 zero) (replicate 10 zero)); reflexivity.
Defined.

(* ================================================================== *)
(** ** The first pass *)
(* ================================================================== *)

Lemma bub_last c rest :
  no_nan (c :: rest) ->
  exists init top,
    bub c rest = init ++ [top]
    /\ le c top
    /\ Forall (fun x => le x top) init.
Proof.
  revert c. induction rest as [|y r IH]; intros c Hn.
  { exists [], c. split; [done|]. split; [apply gt_irrefl|constructor]. }
  inv Hn. match goal with H : Forall _ (y :: r) |- _ => rename H into Hyr end.
  match goal with H : is_nan c = false |- _ => rename H into Hc end.
  pose proof Hyr as Hyr'. inv Hyr'.
  match goal with H : is_nan y = false |- _ => rename H into Hy end.
  match goal with H : Forall _ r |- _ => rename H into Hr end.
  cbn [bub]. destruct (gt c y) eqn:Hcy.
  - destruct (IH c) as (init & top & E & Hct & Hinit).
    { constructor; assumption. }
    exists (y :: init), top. rewrite E. split; [done|].
    split; [exact Hct|]. constructor; [|exact Hinit].
    apply le_trans with c; [exact Hc|by apply gt_asym|exact Hct].
  - destruct (IH y Hyr) as (init & top & E & Hyt & Hinit).
    exists (c :: init), top. rewrite E. split; [done|].
    assert (le c top) as Hct
      by (apply le_trans with y; [exact Hy|exact Hcy|exact Hyt]).
    split; [exact Hct|]. constructor; [exact Hct|exact Hinit].
Qed.

(** X14.  One pass is enough for the largest: after the first pass over
    [len >= 1] cells without NaN the cell at [len - 1] holds one of them
    that none of them exceeds. *)
Theorem first_pass_raises_maximum
    (stray : addr -> Z -> float) (h : heap) (A : addr)
    (arr : list float) (len : Z) :
  h !! A = Some arr ->
  1 <= len <= Z.of_nat (length arr) ->
  no_nan (take (Z.to_nat len) arr) ->
  exists arr' top,
    fst (bubble_pass stray h A len) !! A = Some arr'
    /\ arr' !! (Z.to_nat len - 1)%nat = Some top
    /\ top ∈ take (Z.to_nat len) arr
    /\ Forall (fun x => le x top) (take (Z.to_nat len) arr).
Proof.
  intros HA Hlen Hn.
  rewrite (bubble_pass_list stray h A arr len HA) by lia.
  assert (length (take (Z.to_nat len) arr) = Z.to_nat len) as Hl
    by (rewrite length_take; lia).
  destruct (take (Z.to_nat len) arr) as [|c rest] eqn:Epre;
    [simpl in Hl; lia|].
  destruct (bub_last c rest Hn) as (init & top & E & Hct & Hinit).
  cbn [pass_list fst]. rewrite lookup_insert_eq.
  exists (bub c rest ++ drop (Z.to_nat len) arr), top.
  split; [reflexivity|].
  assert (length init = (Z.to_nat len - 1)%nat) as Hli.
  { pose proof (bub_length c rest) as Hlb. rewrite E, length_app in Hlb.
    simpl in Hlb, Hl. lia. }
  assert (Forall (fun x => le x top) (bub c rest)) as Hall.
  { rewrite E. apply Forall_app. split; [exact Hinit|].
    constructor; [apply gt_irrefl|constructor]. }
  split; [|split].
  - rewrite E, <- app_assoc. apply list_lookup_middle. lia.
  - rewrite <- (bub_perm c rest), E. apply elem_of_app. right. by left.
  - by rewrite <- (bub_perm c rest).
Qed.

Lemma first_pass_raises_maximum_witness :
  demo_heap !! demo_block = Some demo_cells
  /\ 1 <= 3 <= Z.of_nat (length demo_cells)
  /\ no_nan (take (Z.to_nat 3) demo_cells)
  /\ exists arr' top,
       fst (bubble_pass no_stray demo_heap demo_block 3) !! demo_block = Some arr'
       /\ arr' !! (Z.to_nat 3 - 1)%nat = Some top
       /\ top ∈ take (Z.to_nat 3) demo_cells
       /\ Forall (fun x => le x top) (take (Z.to_nat 3) demo_cells).
Proof.
  split; [reflexivity|]. split; [simpl; lia|].
  split; [repeat constructor|].
  apply (first_pass_raises_maximum no_stray demo_heap demo_block demo_cells 3);
    [reflexivity|simpl; lia|repeat constructor].
Defined.

(* ================================================================== *)
(** ** Rounding to nearest: the error of one rounding *)
(* ================================================================== *)

Ltac abs_pow :=
  repeat match goal with
    | |- context [Z.pow 2 ?e] =>
        let x := fresh "pw" in set (x := Z.pow 2 e) in *; clearbody x
    | H : context [Z.pow 2 ?e] |- _ =>
        let x := fresh "pw" in set (x := Z.pow 2 e) in *; clearbody x
    end.

(** Binary digits. *)

Lemma digits2_pos_bounds p :
  2 ^ (Zpos (digits2_pos p) - 1) <= Zpos p < 2 ^ Zpos (digits2_pos p).
Proof.
  induction p as [p IH|p IH|]; cbn [digits2_pos].
  - rewrite Pos2Z.inj_succ, (Pos2Z.inj_xI p).
    replace (Z.succ (Zpos (digits2_pos p)) - 1) with (Z.succ (Zpos (digits2_pos p) - 1)) by lia.
    rewrite !Z.pow_succ_r by lia. abs_pow. lia.
  - rewrite Pos2Z.inj_succ, (Pos2Z.inj_xO p).
    replace (Z.succ (Zpos (digits2_pos p)) - 1) with (Z.succ (Zpos (digits2_pos p) - 1)) by lia.
    rewrite !Z.pow_succ_r by lia. abs_pow. lia.
  - change (2 ^ (Zpos (digits2_pos 1) - 1)) with 1. change (2 ^ Zpos (digits2_pos 1)) with 2. lia.
Qed.

Lemma Zdigits2_nonneg m : 0 <= Zdigits2 m.
Proof. destruct m; simpl; lia. Qed.

Lemma Zdigits2_upper m : 0 <= m -> m < 2 ^ Zdigits2 m.
Proof.
  destruct m as [|p|p]; simpl; [lia| |lia]. intros _. apply digits2_pos_bounds.
Qed.

Lemma Zdigits2_lower m : 0 < m -> 2 ^ (Zdigits2 m - 1) <= m.
Proof.
  destruct m as [|p|p]; simpl; [lia| |lia]. intros _. apply digits2_pos_bounds.
Qed.

Lemma Zdigits2_le m k : 0 <= m -> 0 <= k -> m < 2 ^ k -> Zdigits2 m <= k.
Proof.
  intros Hm Hk Hlt. destruct (Z.eq_dec m 0) as [->|Hne]; [simpl; lia|].
  pose proof (Zdigits2_lower m ltac:(lia)) as Hlo.
  destruct (Z_le_gt_dec (Zdigits2 m) k) as [|Hgt]; [assumption|].
  exfalso. assert (2 ^ k <= 2 ^ (Zdigits2 m - 1)) by (apply Z.pow_le_mono_r; lia). lia.
Qed.

Lemma Zdigits2_ge m k : 0 <= k -> 2 ^ k <= m -> k + 1 <= Zdigits2 m.
Proof.
  intros Hk Hle.
  assert (0 < 2 ^ k) by (apply Z.pow_pos_nonneg; lia).
  pose proof (Zdigits2_upper m ltac:(lia)) as Hup.
  pose proof (Zdigits2_nonneg m).
  destruct (Z_le_gt_dec (k + 1) (Zdigits2 m)) as [|Hgt]; [assumption|].
  exfalso. assert (2 ^ Zdigits2 m <= 2 ^ k) by (apply Z.pow_le_mono_r; lia). lia.
Qed.

(** One shift to the right, and several. *)

Lemma shr_1_located N P m r s :
  0 <= m -> 0 < P ->
  located N P m (loc_of_shr_record (Build_shr_record m r s)) ->
  located N (2 * P) (shr_m (shr_1 (Build_shr_record m r s)))
          (loc_of_shr_record (shr_1 (Build_shr_record m r s)))
  /\ shr_m (shr_1 (Build_shr_record m r s)) = m / 2.
Proof.
  intros Hm HP.
  destruct m as [|p|p]; [| |lia].
  - destruct r, s; cbn [shr_1 shr_m loc_of_shr_record orb located]; intros H;
      (split; [lia|reflexivity]).
  - destruct p as [p|p|]; destruct r, s; cbn [shr_1 shr_m loc_of_shr_record orb located];
      rewrite ?(Pos2Z.inj_xI p), ?(Pos2Z.inj_xO p); intros H; (split; [lia|]);
      first [reflexivity | apply Z.div_unique with 1; lia
            | apply Z.div_unique with 0; lia].
Qed.

Lemma loc_of_record_of_loc m l :
  loc_of_shr_record (shr_record_of_loc m l) = l /\ shr_m (shr_record_of_loc m l) = m.
Proof. destruct l as [|[]]; split; reflexivity. Qed.

Lemma shr_1_located' mrs N P :
  0 <= shr_m mrs -> 0 < P ->
  located N P (shr_m mrs) (loc_of_shr_record mrs) ->
  located N (2 * P) (shr_m (shr_1 mrs)) (loc_of_shr_record (shr_1 mrs))
  /\ shr_m (shr_1 mrs) = shr_m mrs / 2.
Proof. destruct mrs as [m r s]. apply shr_1_located. Qed.

Lemma iter_shr_located n : forall mrs N P,
  0 <= shr_m mrs -> 0 < P ->
  located N P (shr_m mrs) (loc_of_shr_record mrs) ->
  located N (P * 2 ^ Zpos n) (shr_m (SpecFloat.iter_pos shr_1 n mrs))
          (loc_of_shr_record (SpecFloat.iter_pos shr_1 n mrs))
  /\ shr_m (SpecFloat.iter_pos shr_1 n mrs) = shr_m mrs / 2 ^ Zpos n.
Proof.
  induction n as [n IH|n IH|]; intros mrs N P Hm HP Hloc; cbn [SpecFloat.iter_pos].
  - destruct (shr_1_located' mrs N P Hm HP Hloc) as [H1 E1].
    assert (0 <= shr_m (shr_1 mrs)) as Hm1
      by (rewrite E1; apply Z.div_pos; lia).
    destruct (IH (shr_1 mrs) N (2 * P) Hm1 ltac:(lia) H1) as [H2 E2].
    assert (0 < 2 ^ Zpos n) as Hpow by (apply Z.pow_pos_nonneg; lia).
    assert (0 <= shr_m (SpecFloat.iter_pos shr_1 n (shr_1 mrs))) as Hm2
      by (rewrite E2; apply Z.div_pos; lia).
    destruct (IH _ N (2 * P * 2 ^ Zpos n) Hm2 ltac:(nia) H2) as [H3 E3].
    assert (2 ^ Zpos n~1 = 2 * 2 ^ Zpos n * 2 ^ Zpos n) as Epow.
    { rewrite (Pos2Z.inj_xI n).
      replace (2 * Zpos n + 1) with (1 + Zpos n + Zpos n) by lia.
      rewrite !Z.pow_add_r by lia. change (2 ^ 1) with 2. lia. }
    rewrite Epow. split.
    + replace (P * (2 * 2 ^ Zpos n * 2 ^ Zpos n))
        with (2 * P * 2 ^ Zpos n * 2 ^ Zpos n) by lia. exact H3.
    + rewrite E3, E2, E1. rewrite !Z.div_div by lia. f_equal. lia.
  - assert (0 < 2 ^ Zpos n) as Hpow by (apply Z.pow_pos_nonneg; lia).
    destruct (IH mrs N P Hm HP Hloc) as [H2 E2].
    assert (0 <= shr_m (SpecFloat.iter_pos shr_1 n mrs)) as Hm2
      by (rewrite E2; apply Z.div_pos; lia).
    destruct (IH _ N (P * 2 ^ Zpos n) Hm2 ltac:(nia) H2) as [H3 E3].
    assert (2 ^ Zpos n~0 = 2 ^ Zpos n * 2 ^ Zpos n) as Epow.
    { rewrite (Pos2Z.inj_xO n).
      replace (2 * Zpos n) with (Zpos n + Zpos n) by lia.
      rewrite !Z.pow_add_r by lia. reflexivity. }
    rewrite Epow. split.
    + replace (P * (2 ^ Zpos n * 2 ^ Zpos n))
        with (P * 2 ^ Zpos n * 2 ^ Zpos n) by lia. exact H3.
    + rewrite E3, E2. rewrite !Z.div_div by lia. f_equal.
  - change (2 ^ 1) with 2. replace (P * 2) with (2 * P) by lia.
    apply shr_1_located'; assumption.
Qed.

Lemma fexp_fexp32 e : fexp prec emax e = fexp32 e.
Proof. reflexivity. Qed.

(** The first or the second [shr_fexp] of [binary_round_aux]. *)
Lemma shr_fexp_spec m e l N P :
  0 <= m -> 0 < P -> located N P m l ->
  exists k,
    0 <= k
    /\ snd (shr_fexp prec emax m e l) = e + k
    /\ e + k = Z.max e (fexp32 (Zdigits2 m + e))
    /\ located N (P * 2 ^ k) (shr_m (fst (shr_fexp prec emax m e l)))
         (loc_of_shr_record (fst (shr_fexp prec emax m e l)))
    /\ shr_m (fst (shr_fexp prec emax m e l)) = m / 2 ^ k.
Proof.
  intros Hm HP Hloc. unfold shr_fexp, shr. rewrite fexp_fexp32.
  destruct (loc_of_record_of_loc m l) as [El Em].
  destruct (fexp32 (Zdigits2 m + e) - e) as [|p|p] eqn:En.
  - exists 0. cbn [fst snd]. rewrite El, Em.
    change (2 ^ 0) with 1. rewrite Z.mul_1_r, Z.div_1_r.
    repeat split; (assumption || lia).
  - exists (Zpos p). cbn [fst snd].
    destruct (iter_shr_located p (shr_record_of_loc m l) N P) as [H1 E1];
      [rewrite Em; assumption|assumption|rewrite El, Em; assumption|].
    rewrite Em in E1. repeat split; (assumption || lia).
  - exists 0. cbn [fst snd]. rewrite El, Em.
    change (2 ^ 0) with 1. rewrite Z.mul_1_r, Z.div_1_r.
    repeat split; (assumption || lia).
Qed.

Lemma round_nearest_even_spec N P m l :
  0 <= m -> 0 < P -> located N P m l ->
  m <= round_nearest_even m l <= m + 1
  /\ 2 * Z.abs (round_nearest_even m l * P - N) <= P
  /\ (l = loc_Exact -> round_nearest_even m l = m).
Proof.
  intros Hm HP Hloc. destruct l as [|[]]; cbn [round_nearest_even located] in *.
  - repeat split; try lia.
  - destruct (Z.even m); repeat split; try lia; discriminate.
  - repeat split; try lia; discriminate.
  - repeat split; try lia; discriminate.
Qed.

Lemma binary_round_aux_finish sx mx ex lx :
  binary_round_aux prec emax sx mx ex lx
  = finish sx
      (shr_m (fst (shr_fexp prec emax
                     (round_nearest_even
                        (shr_m (fst (shr_fexp prec emax mx ex lx)))
                        (loc_of_shr_record (fst (shr_fexp prec emax mx ex lx))))
                     (snd (shr_fexp prec emax mx ex lx)) loc_Exact)))
      (snd (shr_fexp prec emax
                     (round_nearest_even
                        (shr_m (fst (shr_fexp prec emax mx ex lx)))
                        (loc_of_shr_record (fst (shr_fexp prec emax mx ex lx))))
                     (snd (shr_fexp prec emax mx ex lx)) loc_Exact)).
Proof.
  unfold binary_round_aux.
  destruct (shr_fexp prec emax mx ex lx) as [mrs' e'].
  cbn [fst snd].
  destruct (shr_fexp prec emax _ e' loc_Exact) as [mrs'' e''].
  reflexivity.
Qed.

Lemma fexp32_mono a b : a <= b -> fexp32 a <= fexp32 b.
Proof. unfold fexp32. lia. Qed.

Lemma fexp32_succ a : fexp32 (a + 1) <= fexp32 a + 1.
Proof. unfold fexp32. lia. Qed.

(** Rounding to nearest: the float [binary_round_aux] returns stands for
    [m_r * 2^e_r], off the value by at most half of [2^E], [E] the
    exponent at which it rounds. *)
Lemma binary_round_aux_spec sx mx ex lx N P :
  0 <= mx -> 0 < P -> located N P mx lx ->
  exists m_r e_r k,
    binary_round_aux prec emax sx mx ex lx = finish sx m_r e_r
    /\ 0 <= m_r
    /\ 0 <= k
    /\ ex + k = Z.max ex (fexp32 (Zdigits2 mx + ex))
    /\ ex + k <= e_r
    /\ e_r <= ex + k + 1
    /\ fexp32 (Zdigits2 m_r + e_r) <= e_r
    /\ 2 * Z.abs (m_r * 2 ^ (e_r - ex) * P - N) <= 2 ^ k * P
    /\ (lx = loc_Exact -> k = 0 -> m_r = mx /\ e_r = ex).
Proof.
  intros Hm HP Hloc. rewrite binary_round_aux_finish.
  destruct (shr_fexp_spec mx ex lx N P Hm HP Hloc) as (k & Hk & Ee & Emax & Hl1 & Em1).
  set (m1 := shr_m (fst (shr_fexp prec emax mx ex lx))) in *.
  set (l1 := loc_of_shr_record (fst (shr_fexp prec emax mx ex lx))) in *.
  set (e1 := snd (shr_fexp prec emax mx ex lx)) in *.
  assert (0 < 2 ^ k) as Hpk by (apply Z.pow_pos_nonneg; lia).
  assert (0 <= m1) as Hm1 by (rewrite Em1; apply Z.div_pos; lia).
  destruct (round_nearest_even_spec N (P * 2 ^ k) m1 l1 Hm1 ltac:(nia) Hl1)
    as (Hr & Herr & Hex).
  set (m2 := round_nearest_even m1 l1) in *.
  assert (located m2 1 m2 loc_Exact) as Hl2 by (cbn [located]; lia).
  destruct (shr_fexp_spec m2 e1 loc_Exact m2 1 ltac:(lia) ltac:(lia) Hl2)
    as (k2 & Hk2 & Ee2 & Emax2 & _ & Em3).
  set (m3 := shr_m (fst (shr_fexp prec emax m2 e1 loc_Exact))) in *.
  set (e3 := snd (shr_fexp prec emax m2 e1 loc_Exact)) in *.
  (* digits of the rounded mantissa *)
  set (d := Zdigits2 mx) in *.
  assert (0 <= d) as Hd by apply Zdigits2_nonneg.
  set (D := Z.max (d - k) 0).
  assert (m1 < 2 ^ D) as Hm1D.
  { rewrite Em1. pose proof (Zdigits2_upper mx Hm) as Hup. fold d in Hup.
    unfold D. destruct (Z_le_gt_dec k d) as [Hkd|Hkd].
    - rewrite Z.max_l by lia. apply Z.div_lt_upper_bound; [lia|].
      rewrite <- Z.pow_add_r by lia. replace (k + (d - k)) with d by lia. exact Hup.
    - rewrite Z.max_r by lia. change (2 ^ 0) with 1.
      rewrite Z.div_small; [lia|]. split; [lia|].
      assert (2 ^ d <= 2 ^ k) by (apply Z.pow_le_mono_r; lia). lia. }
  assert (fexp32 (D + e1) <= e1) as HfD.
  { unfold D, fexp32 in *. lia. }
  assert (m3 * 2 ^ k2 = m2 /\ 0 <= m3 /\ k2 <= 1
          /\ fexp32 (Zdigits2 m3 + e3) <= e3) as (Em32 & Hm3 & Hk21 & Hcan).
  { assert (0 < 2 ^ k2) by (apply Z.pow_pos_nonneg; lia).
    assert (0 <= m3) by (rewrite Em3; apply Z.div_pos; lia).
    destruct (Z.eq_dec k2 0) as [Ek0|Hk2nz].
    { assert (m3 = m2) as E32
        by (rewrite Em3, Ek0; change (2 ^ 0) with 1; apply Z.div_1_r).
      rewrite Ek0 in *. change (2 ^ 0) with 1.
      split; [lia|]. split; [assumption|]. split; [lia|].
      rewrite E32. replace e3 with e1 by lia. lia. }
    cut (m3 * 2 ^ k2 = m2 /\ k2 <= 1 /\ fexp32 (Zdigits2 m3 + e3) <= e3);
      [tauto|].
    (* a second shift happens only on a power of two *)
    assert (D + 1 <= Zdigits2 m2) as Hdig.
    { destruct (Z_le_gt_dec (D + 1) (Zdigits2 m2)) as [|Hgt]; [assumption|].
      exfalso. pose proof (fexp32_mono (Zdigits2 m2 + e1) (D + e1) ltac:(lia)). lia. }
    assert (m2 = 2 ^ D) as Em2.
    { assert (2 ^ D <= m2); [|lia].
      pose proof (Zdigits2_lower m2) as Hlo.
      assert (0 <= D) by (unfold D; lia).
      assert (0 < m2).
      { destruct (Z.eq_dec m2 0) as [E0|]; [|lia]. rewrite E0 in Hdig. simpl in Hdig. lia. }
      specialize (Hlo ltac:(lia)).
      assert (2 ^ D <= 2 ^ (Zdigits2 m2 - 1)) by (apply Z.pow_le_mono_r; lia). lia. }
    assert (Zdigits2 m2 = D + 1) as Edig.
    { assert (0 <= D) by (unfold D; lia).
      apply Z.le_antisymm; [|assumption].
      apply Zdigits2_le; [lia|lia|]. rewrite Em2.
      apply Z.pow_lt_mono_r; lia. }
    pose proof (fexp32_succ (D + e1)) as Hs.
    rewrite Edig in Emax2.
    replace (D + 1 + e1) with (D + e1 + 1) in Emax2 by lia.
    assert (k2 = 1) as -> by lia.
    assert (1 <= D) as HD1.
    { destruct (Z_le_gt_dec 1 D) as [|HD0]; [assumption|]. exfalso.
      assert (D = 0) as ED by (unfold D in *; lia).
      rewrite ED in *. unfold fexp32 in *. unfold D in ED. lia. }
    assert (2 ^ D = 2 ^ (D - 1) * 2) as EP.
    { rewrite Z.mul_comm, <- Z.pow_succ_r by lia. f_equal. lia. }
    assert (m3 = 2 ^ (D - 1)) as E3.
    { rewrite Em3, Em2, EP. change (2 ^ 1) with 2. apply Z.div_mul. lia. }
    split; [rewrite E3, Em2, EP; reflexivity|]. split; [lia|].
    assert (Zdigits2 m3 <= D) as Hd3.
    { apply Zdigits2_le; [lia|lia|]. rewrite E3. apply Z.pow_lt_mono_r; lia. }
    pose proof (fexp32_mono (Zdigits2 m3 + e3) (D + e1 + 1) ltac:(lia)). lia. }
  exists m3, e3, k.
  split; [reflexivity|]. split; [assumption|]. split; [assumption|].
  split; [fold d; unfold e1 in *; lia|]. split; [lia|].
  split; [lia|]. split; [assumption|].
  split.
  - replace (e3 - ex) with (k2 + k) by lia.
    rewrite Z.pow_add_r by lia.
    replace (m3 * (2 ^ k2 * 2 ^ k) * P) with (m3 * 2 ^ k2 * (P * 2 ^ k)) by lia.
    rewrite Em32. lia.
  - intros -> ->. 
    assert (m1 = mx) as Emx by (rewrite Em1; change (2 ^ 0) with 1; apply Z.div_1_r).
    assert (l1 = loc_Exact) as El1.
    { unfold l1, shr_fexp, shr. rewrite fexp_fexp32.
      destruct (fexp32 (Zdigits2 mx + ex) - ex) eqn:En; try reflexivity.
      fold d in En. lia. }
    assert (m2 = mx) as E2 by (unfold m2; rewrite El1, Emx; reflexivity).
    assert (k2 = 0) as Ek2.
    { rewrite E2 in Emax2. fold d in Emax2.
      assert (e1 = ex) as Ee' by lia. rewrite Ee' in Emax2. lia. }
    rewrite Ek2 in *. change (2 ^ 0) with 1 in Em32. lia.
Qed.

Lemma pow2_Qpower e : (pow2 e == Qpower (2 # 1) e)%Q.
Proof.
  destruct e as [|p|p]; unfold pow2.
  - reflexivity.
  - rewrite <- (Zpower_Qpower 2 (Zpos p)) by lia. reflexivity.
  - change (Qpower (2 # 1) (Zneg p)) with (/ Qpower (2 # 1) (Zpos p))%Q.
    rewrite <- (Zpower_Qpower 2 (Zpos p)) by lia.
    rewrite <- Pos2Z.inj_pow. reflexivity.
Qed.

Lemma pow2_pos e : (0 < pow2 e)%Q.
Proof. rewrite pow2_Qpower. apply Qpower_0_lt. reflexivity. Qed.

Lemma pow2_add a b : (pow2 (a + b) == pow2 a * pow2 b)%Q.
Proof. rewrite !pow2_Qpower. apply Qpower_plus. discriminate. Qed.

Lemma pow2_Z k : 0 <= k -> (pow2 k == inject_Z (2 ^ k))%Q.
Proof. intros H. rewrite pow2_Qpower. symmetry. apply (Zpower_Qpower 2 k H). Qed.

Lemma pow2_succ a : (pow2 (a + 1) == (2 # 1) * pow2 a)%Q.
Proof. rewrite pow2_add. change (pow2 1) with (2 # 1)%Q. ring. Qed.

Lemma pow2_mono a b : a <= b -> (pow2 a <= pow2 b)%Q.
Proof.
  intros H. replace b with (a + (b - a)) by lia. rewrite pow2_add.
  rewrite (pow2_Z (b - a)) by lia.
  assert (1 <= 2 ^ (b - a)) by (apply (Z.pow_le_mono_r 2 0); lia).
  assert (1 <= inject_Z (2 ^ (b - a)))%Q as H1
    by (change 1%Q with (inject_Z 1); rewrite <- Zle_Qle; assumption).
  pose proof (pow2_pos a).
  apply Qle_trans with (pow2 a * 1)%Q.
  { rewrite Qmult_1_r. apply Qle_refl. }
  apply (proj2 (Qmult_le_l _ _ _ H2)). exact H1.
Qed.

Lemma pow2_lt_inv a b : (pow2 a < pow2 b)%Q -> a < b.
Proof.
  intros H. destruct (Z_lt_ge_dec a b) as [|Hge]; [assumption|].
  exfalso. apply (Qlt_not_le _ _ H). apply pow2_mono. lia.
Qed.

Lemma exact_finite s m e :
  (exact (S754_finite s m e) == sgn s * (inject_Z (Zpos m) * pow2 e))%Q.
Proof.
  unfold exact, pow2, sgn, inject_Z.
  destruct e as [|p|p], s; unfold Qeq, Qmult; simpl; lia.
Qed.

Lemma exact_zero s : exact (S754_zero s) = 0%Q.
Proof. reflexivity. Qed.

Lemma finish_exact sx m e :
  0 <= m -> (m = 0 \/ e <= 104) ->
  is_finite (finish sx m e) = true
  /\ (exact (finish sx m e) == sgn sx * (inject_Z m * pow2 e))%Q.
Proof.
  intros Hm Hb. destruct m as [|p|p]; [| |lia].
  - split; [reflexivity|]. simpl. ring.
  - assert (e <= 104) as He by (destruct Hb; [discriminate|assumption]).
    unfold finish. change (emax - prec) with 104.
    destruct (Z.leb_spec e 104); [|lia].
    split; [reflexivity|]. apply exact_finite.
Qed.

Lemma located_lower N P m l : 0 < P -> located N P m l -> m * P <= N.
Proof. destruct l as [|[]]; simpl; nia. Qed.

Lemma inject_Z_pos_lt p : (0 < inject_Z p)%Q <-> 0 < p.
Proof. change 0%Q with (inject_Z 0). rewrite <- Zlt_Qlt. reflexivity. Qed.

Lemma scaled_error m_r e_r ex k N P :
  0 < P -> 0 <= k -> ex <= e_r ->
  2 * Z.abs (m_r * 2 ^ (e_r - ex) * P - N) <= 2 ^ k * P ->
  (Qabs (inject_Z m_r * pow2 e_r - inject_Z N / inject_Z P * pow2 ex)
   <= pow2 (ex + k - 1))%Q.
Proof.
  intros HP Hk He Hb.
  set (A := m_r * 2 ^ (e_r - ex) * P - N) in *.
  assert (0 < inject_Z P)%Q as HPq by (apply inject_Z_pos_lt; assumption).
  pose proof (pow2_pos ex) as Hex.
  set (c := (pow2 ex / inject_Z P)%Q).
  assert (0 < c)%Q as Hc.
  { unfold c. apply Qlt_shift_div_l; [assumption|]. lra. }
  assert (inject_Z m_r * pow2 e_r - inject_Z N / inject_Z P * pow2 ex
          == inject_Z A * c)%Q as ->.
  { unfold A, c. rewrite <- Z.add_opp_r, inject_Z_plus, inject_Z_opp, !inject_Z_mult.
    replace e_r with (ex + (e_r - ex)) at 1 by lia.
    rewrite pow2_add, (pow2_Z (e_r - ex)) by lia.
    field. lra. }
  assert (pow2 (ex + k - 1) == inject_Z (2 ^ k) * inject_Z P * c * (1 # 2))%Q as ->.
  { replace (ex + k - 1) with (ex + (k + -1)) by lia.
    rewrite !pow2_add, (pow2_Z k) by lia. change (pow2 (-1)) with (1 # 2)%Q.
    unfold c. field. lra. }
  assert (inject_Z (2 * A) <= inject_Z (2 ^ k * P))%Q as H1
    by (rewrite <- Zle_Qle; lia).
  assert (inject_Z (- (2 ^ k * P)) <= inject_Z (2 * A))%Q as H2
    by (rewrite <- Zle_Qle; lia).
  rewrite (inject_Z_mult 2 A), (inject_Z_mult (2 ^ k) P) in H1.
  rewrite inject_Z_opp, (inject_Z_mult 2 A), (inject_Z_mult (2 ^ k) P) in H2.
  change (inject_Z 2) with (2 # 1)%Q in H1, H2.
  apply Qabs_Qle_condition.
  set (a := inject_Z A) in *. set (K := inject_Z (2 ^ k)) in *.
  set (p := inject_Z P) in *. clearbody a K p c.
  split.
  - assert (- (K * p * c * (1 # 2)) == (- (K * p * (1 # 2))) * c)%Q as -> by ring.
    apply Qmult_le_compat_r; lra.
  - assert (K * p * c * (1 # 2) == (K * p * (1 # 2)) * c)%Q as -> by ring.
    apply Qmult_le_compat_r; lra.
Qed.

Lemma mantissa_below N P mx ex t :
  0 < mx -> 0 < P -> mx * P <= N ->
  (inject_Z N / inject_Z P * pow2 ex < pow2 t)%Q ->
  Zdigits2 mx + ex <= t.
Proof.
  intros Hm HP HN Hv.
  assert (0 < inject_Z P)%Q as HPq by (apply inject_Z_pos_lt; assumption).
  pose proof (Zdigits2_lower mx Hm) as Hlo.
  pose proof (Zdigits2_nonneg mx) as Hd.
  assert (1 <= Zdigits2 mx) as Hd1.
  { destruct mx; try lia. simpl. lia. }
  cut (Zdigits2 mx - 1 + ex < t); [lia|].
  apply pow2_lt_inv. eapply Qle_lt_trans; [|exact Hv].
  rewrite pow2_add, (pow2_Z (Zdigits2 mx - 1)) by lia.
  apply Qmult_le_compat_r; [|apply Qlt_le_weak, pow2_pos].
  apply Qle_shift_div_l; [assumption|].
  rewrite <- inject_Z_mult, <- Zle_Qle. nia.
Qed.

(** The error of one rounding, against a bound [2^t] on the magnitude
    rounded: half a unit in the last place of that binade. *)
Lemma round_aux_error sx mx ex lx N P t :
  0 <= mx -> 0 < P -> located N P mx lx ->
  (inject_Z N / inject_Z P * pow2 ex < pow2 t)%Q ->
  (lx <> loc_Exact -> ex <= fexp32 t) ->
  exists m e,
    binary_round_aux prec emax sx mx ex lx = finish sx m e
    /\ 0 <= m
    /\ e <= Z.max ex (fexp32 t) + 1
    /\ fexp32 (Zdigits2 m + e) <= e
    /\ (Qabs (inject_Z m * pow2 e - inject_Z N / inject_Z P * pow2 ex)
        <= pow2 (fexp32 t - 1))%Q.
Proof.
  intros Hm HP Hloc Hv Hin.
  destruct (binary_round_aux_spec sx mx ex lx N P Hm HP Hloc)
    as (m & e & k & Er & Hm0 & Hk & Ek & Hle & Hup & Hcan & Herr & Hex).
  pose proof (located_lower N P mx lx HP Hloc) as HN.
  exists m, e. split; [exact Er|]. split; [exact Hm0|].
  assert (ex + k <= Z.max ex (fexp32 t)
          /\ (lx <> loc_Exact \/ k <> 0 -> ex + k <= fexp32 t)) as [HE1 HE2].
  { destruct (Z.eq_dec mx 0) as [E0|Hnz].
    - rewrite E0 in Ek. change (Zdigits2 0) with 0 in Ek.
      unfold fexp32 in *. split; [lia|]. intros [Hl|Hl]; [specialize (Hin Hl)|]; lia.
    - pose proof (mantissa_below N P mx ex t ltac:(lia) HP HN Hv) as Hd.
      pose proof (fexp32_mono _ _ Hd) as Hf.
      split; [lia|]. intros [Hl|Hl]; [specialize (Hin Hl)|]; lia. }
  split; [lia|]. split; [exact Hcan|].
  destruct (Z.eq_dec k 0) as [Ek0|Hk0].
  - destruct lx as [|c].
    + destruct (Hex eq_refl Ek0) as [-> ->]. simpl in Hloc. rewrite Hloc.
      assert (0 < inject_Z P)%Q as HPq by (apply inject_Z_pos_lt; assumption).
      assert (inject_Z mx * pow2 ex - inject_Z (mx * P) / inject_Z P * pow2 ex == 0)%Q
        as -> by (rewrite inject_Z_mult; field; lra).
      apply Qlt_le_weak, pow2_pos.
    + eapply Qle_trans; [apply (scaled_error m e ex k N P); (assumption || lia)|].
      apply pow2_mono. assert (ex + k <= fexp32 t) by (apply HE2; left; discriminate). lia.
  - eapply Qle_trans; [apply (scaled_error m e ex k N P); (assumption || lia)|].
    apply pow2_mono. assert (ex + k <= fexp32 t) by (apply HE2; right; assumption). lia.
Qed.

(* ================================================================== *)
(** ** The binary32 product with 100, sum and half *)
(* ================================================================== *)

Lemma Qabs_sgn s z : (Qabs (sgn s * z) == Qabs z)%Q.
Proof.
  rewrite Qabs_Qmult.
  destruct s; [change (Qabs (sgn true)) with 1%Q|change (Qabs (sgn false)) with 1%Q];
    apply Qmult_1_l.
Qed.

Lemma Qdiv_one q : (q / inject_Z 1 == q)%Q.
Proof. unfold Qdiv. change (/ inject_Z 1)%Q with 1%Q. apply Qmult_1_r. Qed.

Lemma pow2_le_value N ex t :
  0 < N -> (inject_Z N * pow2 ex < pow2 t)%Q -> ex < t.
Proof.
  intros HN Hv. apply pow2_lt_inv. eapply Qle_lt_trans; [|exact Hv].
  assert (1 <= inject_Z N)%Q as H1
    by (change 1%Q with (inject_Z 1); rewrite <- Zle_Qle; lia).
  pose proof (pow2_pos ex).
  apply Qle_trans with (1 * pow2 ex)%Q; [rewrite Qmult_1_l; apply Qle_refl|].
  apply Qmult_le_compat_r; lra.
Qed.

(** The product with 100.0 of a finite float below [2^t] in magnitude,
    [t <= 104]: finite, and off the exact product by half a unit in the
    last place at most. *)
Lemma mul_hundred_error x t :
  is_finite x = true -> t <= 104 ->
  (Qabs (exact x * (100 # 1)) < pow2 t)%Q ->
  is_finite (mul x hundred) = true
  /\ (Qabs (exact (mul x hundred) - exact x * (100 # 1))
      <= pow2 (fexp32 t - 1))%Q.
Proof.
  intros Hf Ht Hv. destruct x as [s|s| |sx mx ex]; try discriminate.
  - split; [reflexivity|]. simpl.
    apply Qlt_le_weak, pow2_pos.
  - change (mul (S754_finite sx mx ex) hundred)
      with (binary_round_aux prec emax (xorb sx false)
              (Zpos (mx * 13107200)) (ex + -17) loc_Exact).
    rewrite xorb_false_r.
    set (N := Zpos (mx * 13107200)).
    assert (exact (S754_finite sx mx ex) * (100 # 1)
            == sgn sx * (inject_Z N / inject_Z 1 * pow2 (ex + -17)))%Q as Ev.
    { rewrite exact_finite, pow2_add. unfold N.
      rewrite Pos2Z.inj_mul, inject_Z_mult.
      change (pow2 (-17)) with (1 # 131072)%Q.
      change (inject_Z 13107200) with (13107200 # 1)%Q.
      change (inject_Z 1) with 1%Q. field. }
    rewrite Ev in Hv |- *. rewrite Qabs_sgn in Hv.
    assert (0 < inject_Z N / inject_Z 1 * pow2 (ex + -17))%Q as Hpos.
    { pose proof (pow2_pos (ex + -17)).
      assert (0 < inject_Z N)%Q by (apply inject_Z_pos_lt; reflexivity).
      rewrite Qdiv_one. apply Qmult_lt_0_compat; assumption. }
    rewrite Qabs_pos in Hv by lra.
    destruct (round_aux_error sx N (ex + -17) loc_Exact N 1 t)
      as (m & e & Er & Hm & He & _ & Herr);
      [unfold N; lia|lia|simpl; lia|exact Hv|congruence|].
    assert (ex + -17 < t) as Hex.
    { apply (pow2_le_value N); [reflexivity|].
      rewrite Qdiv_one in Hv. exact Hv. }
    assert (fexp32 t <= 103) by (unfold fexp32; lia).
    destruct (finish_exact sx m e Hm ltac:(right; lia)) as [Hfin Hexa].
    rewrite Er. split; [exact Hfin|].
    rewrite Hexa.
    assert (forall a b, sgn sx * a - sgn sx * b == sgn sx * (a - b))%Q as ->
      by (intros; ring).
    rewrite Qabs_sgn. exact Herr.
Qed.

Lemma iter_xO m d : Zpos (Pos.iter xO m d) = Zpos m * 2 ^ Zpos d.
Proof.
  induction d as [|d IH] using Pos.peano_ind.
  - simpl. lia.
  - rewrite Pos.iter_succ, Pos2Z.inj_succ, Z.pow_succ_r by lia.
    rewrite (Pos2Z.inj_xO (Pos.iter xO m d)), IH. lia.
Qed.

Lemma shl_align_spec mx ex e' :
  Zpos (fst (shl_align mx ex e')) = Zpos mx * 2 ^ (ex - Z.min ex e')
  /\ snd (shl_align mx ex e') = Z.min ex e'.
Proof.
  unfold shl_align. destruct (e' - ex) as [|d|d] eqn:E; cbn [fst snd].
  - rewrite Z.min_l by lia. rewrite Z.sub_diag. lia.
  - rewrite Z.min_l by lia. rewrite Z.sub_diag. lia.
  - rewrite Z.min_r by lia. rewrite iter_xO.
    replace (ex - e') with (Zpos d) by lia. lia.
Qed.

Lemma valid_below_overflow x : valid_binary prec emax x = true -> below_overflow x.
Proof.
  destruct x as [s|s| |s m e]; try exact (fun _ => I).
  unfold valid_binary, bounded, canonical_mantissa, below_overflow.
  rewrite andb_true_iff, Z.eqb_eq, Z.leb_le. rewrite fexp_fexp32.
  change (emax - prec) with 104. change (Zdigits2 (Zpos m)) with (Zpos (digits2_pos m)).
  unfold fexp32. lia.
Qed.

Lemma finish_finite sx m e :
  0 <= m -> is_finite (finish sx m e) = true -> m = 0 \/ e <= 104.
Proof.
  intros Hm. destruct m as [|p|p]; [by left| |lia].
  unfold finish. change (emax - prec) with 104.
  destruct (Z.leb_spec e 104); [by right|discriminate].
Qed.

Lemma finish_below_overflow sx m e :
  0 <= m -> fexp32 (Zdigits2 m + e) <= e ->
  is_finite (finish sx m e) = true -> below_overflow (finish sx m e).
Proof.
  intros Hm Hc Hf. destruct (finish_finite sx m e Hm Hf) as [->|He]; [exact I|].
  destruct m as [|p|p]; [exact I| |lia].
  unfold finish in *. change (emax - prec) with 104 in *.
  destruct (Z.leb_spec e 104); [|discriminate].
  unfold below_overflow. unfold fexp32 in Hc. lia.
Qed.

(** Half a unit in the last place of the binade of [v] is at most
    [2^-24 * v], or [2^-150] among the subnormals. *)
Lemma half_ulp_relative v t :
  (pow2 (t - 1) <= v)%Q ->
  (pow2 (fexp32 t - 1) <= pow2 (-24) * v + pow2 (-150))%Q.
Proof.
  intros Hv. pose proof (pow2_pos (t - 1)) as H1.
  pose proof (pow2_pos (-150)) as H2. pose proof (pow2_pos (-24)) as H3.
  unfold fexp32. destruct (Z.max_spec (t - 24) (-149)) as [[_ ->]|[_ ->]].
  - change (-149 - 1) with (-150).
    assert (0 <= pow2 (-24) * v)%Q by (apply Qmult_le_0_compat; lra). lra.
  - replace (t - 24 - 1) with (-24 + (t - 1)) by lia. rewrite pow2_add.
    assert (pow2 (-24) * pow2 (t - 1) <= pow2 (-24) * v)%Q
      by (apply Qmult_le_l; assumption).
    lra.
Qed.

(** One rounding of [n * 2^e]. *)
Lemma binary_round_error s n e :
  exists m e_r,
    binary_round prec emax s n e = finish s m e_r
    /\ 0 <= m
    /\ fexp32 (Zdigits2 m + e_r) <= e_r
    /\ (Qabs (inject_Z m * pow2 e_r - inject_Z (Zpos n) * pow2 e)
        <= pow2 (-24) * (inject_Z (Zpos n) * pow2 e) + pow2 (-150))%Q.
Proof.
  unfold binary_round.
  destruct (shl_align_spec n e (fexp prec emax (Zpos (digits2_pos n) + e)))
    as [Hmz Hez].
  destruct (shl_align n e (fexp prec emax (Zpos (digits2_pos n) + e)))
    as [mz ez]. cbn [fst snd] in Hmz, Hez.
  rewrite <- Hez in Hmz.
  assert (0 <= e - ez) as Hsh by lia.
  assert (pow2 e == inject_Z (2 ^ (e - ez)) * pow2 ez)%Q as Epe.
  { rewrite <- (pow2_Z (e - ez)), <- pow2_add by lia.
    replace (e - ez + ez) with e by lia. reflexivity. }
  assert (inject_Z (Zpos n) * pow2 e == inject_Z (Zpos mz) / inject_Z 1 * pow2 ez)%Q
    as Ev.
  { rewrite Qdiv_one, Hmz, inject_Z_mult, Epe. ring. }
  clear Epe.
  set (t := Zdigits2 (Zpos mz) + ez).
  pose proof (Zdigits2_upper (Zpos mz) ltac:(lia)) as Hup.
  pose proof (Zdigits2_lower (Zpos mz) ltac:(lia)) as Hlo.
  pose proof (Zdigits2_nonneg (Zpos mz)) as Hd.
  assert (1 <= Zdigits2 (Zpos mz)) as Hd1 by (simpl; lia).
  pose proof (pow2_pos ez) as Hpe.
  destruct (round_aux_error s (Zpos mz) ez loc_Exact (Zpos mz) 1 t)
    as (m & e_r & Er & Hm & _ & Hcan & Herr);
    [lia|lia|simpl; lia| |congruence|].
  { rewrite Qdiv_one. unfold t. rewrite pow2_add, (pow2_Z (Zdigits2 (Zpos mz))) by lia.
    apply Qmult_lt_compat_r; [assumption|]. rewrite <- Zlt_Qlt. lia. }
  exists m, e_r. split; [exact Er|]. split; [exact Hm|]. split; [exact Hcan|].
  rewrite Ev. eapply Qle_trans; [exact Herr|].
  apply half_ulp_relative. rewrite Qdiv_one. unfold t.
  replace (Zdigits2 (Zpos mz) + ez - 1) with ((Zdigits2 (Zpos mz) - 1) + ez) by lia.
  rewrite pow2_add, (pow2_Z (Zdigits2 (Zpos mz) - 1)) by lia.
  apply Qmult_le_compat_r; [|lra]. rewrite <- Zle_Qle. lia.
Qed.

Lemma error_of_equal a b :
  (a == b)%Q -> (Qabs (a - b) <= pow2 (-24) * Qabs b + pow2 (-150))%Q.
Proof.
  intros E. assert (a - b == 0)%Q as -> by (rewrite E; ring).
  change (Qabs 0) with 0%Q.
  pose proof (pow2_pos (-150)). pose proof (pow2_pos (-24)).
  pose proof (Qabs_nonneg b).
  assert (0 <= pow2 (-24) * Qabs b)%Q by (apply Qmult_le_0_compat; lra). lra.
Qed.

Lemma inject_cond_Zopp s a : (inject_Z (cond_Zopp s a) == sgn s * inject_Z a)%Q.
Proof. destruct s; simpl; [rewrite inject_Z_opp|]; ring. Qed.

Lemma binary_normalize_error S e :
  is_finite (binary_normalize prec emax S e false) = true ->
  (Qabs (exact (binary_normalize prec emax S e false) - inject_Z S * pow2 e)
   <= pow2 (-24) * Qabs (inject_Z S * pow2 e) + pow2 (-150))%Q
  /\ below_overflow (binary_normalize prec emax S e false).
Proof.
  assert (forall s n,
    is_finite (binary_round prec emax s n e) = true ->
    (Qabs (exact (binary_round prec emax s n e) - sgn s * (inject_Z (Zpos n) * pow2 e))
     <= pow2 (-24) * Qabs (sgn s * (inject_Z (Zpos n) * pow2 e)) + pow2 (-150))%Q
    /\ below_overflow (binary_round prec emax s n e)) as Hround.
  { intros s n Hf.
    destruct (binary_round_error s n e) as (m & e_r & Er & Hm & Hcan & Herr).
    rewrite Er in Hf |- *.
    destruct (finish_exact s m e_r Hm (finish_finite s m e_r Hm Hf)) as [_ Hex].
    split; [|by apply finish_below_overflow].
    rewrite Hex.
    assert (forall a b, sgn s * a - sgn s * b == sgn s * (a - b))%Q as ->
      by (intros; ring).
    rewrite !Qabs_sgn.
    assert (0 < inject_Z (Zpos n) * pow2 e)%Q as Hpos.
    { apply Qmult_lt_0_compat; [apply inject_Z_pos_lt; reflexivity|apply pow2_pos]. }
    rewrite (Qabs_pos (inject_Z (Zpos n) * pow2 e)) by lra. exact Herr. }
  destruct S as [|n|n]; unfold binary_normalize; intros Hf.
  - split; [|exact I]. apply error_of_equal. simpl. ring.
  - destruct (Hround false n Hf) as [H1 H2]. split; [|exact H2].
    assert (inject_Z (Zpos n) * pow2 e == sgn false * (inject_Z (Zpos n) * pow2 e))%Q
      as -> by (simpl; ring).
    exact H1.
  - destruct (Hround true n Hf) as [H1 H2]. split; [|exact H2].
    assert (inject_Z (Zneg n) * pow2 e == sgn true * (inject_Z (Zpos n) * pow2 e))%Q
      as ->.
    { change (Zneg n) with (- Zpos n). rewrite inject_Z_opp. simpl. ring. }
    exact H1.
Qed.

(** The sum, when it does not overflow: one rounding of the exact sum. *)
Lemma add_error x y :
  is_finite (add x y) = true ->
  (Qabs (exact (add x y) - (exact x + exact y))
   <= pow2 (-24) * Qabs (exact x + exact y) + pow2 (-150))%Q
  /\ (below_overflow x -> below_overflow y -> below_overflow (add x y)).
Proof.
  destruct x as [sx|sx| |sx mx ex], y as [sy|sy| |sy my ey];
    unfold add, SFadd; intros Hf;
    try discriminate Hf; try (destruct sx, sy; discriminate Hf).
  - split; [|destruct sx, sy; intros; exact I].
    apply error_of_equal. destruct sx, sy; reflexivity.
  - split; [|intros _ H; exact H]. apply error_of_equal.
    rewrite exact_zero. ring.
  - split; [|intros H _; exact H]. apply error_of_equal.
    rewrite exact_zero. ring.
  - set (ez := Z.min ex ey) in *.
    destruct (shl_align_spec mx ex ez) as [Hx _].
    destruct (shl_align_spec my ey ez) as [Hy _].
    rewrite (Z.min_r ex ez) in Hx by (unfold ez; lia).
    rewrite (Z.min_r ey ez) in Hy by (unfold ez; lia).
    set (ax := Zpos (fst (shl_align mx ex ez))) in *.
    set (ay := Zpos (fst (shl_align my ey ez))) in *.
    destruct (binary_normalize_error _ _ Hf) as [Herr Hb].
    split; [|intros _ _; exact Hb].
    assert (forall (m : positive) (e : Z), ez <= e ->
              (inject_Z (Zpos m) * pow2 e
               == inject_Z (Zpos m * 2 ^ (e - ez)) * pow2 ez)%Q) as Hal.
    { intros m e He. rewrite inject_Z_mult, <- (pow2_Z (e - ez)) by lia.
      rewrite <- Qmult_assoc, <- pow2_add.
      replace (e - ez + ez) with e by lia. reflexivity. }
    assert (exact (S754_finite sx mx ex) + exact (S754_finite sy my ey)
            == inject_Z (cond_Zopp sx ax + cond_Zopp sy ay) * pow2 ez)%Q as ->.
    { rewrite inject_Z_plus, !inject_cond_Zopp, !exact_finite.
      rewrite (Hal mx ex), (Hal my ey) by (unfold ez; lia).
      rewrite Hx, Hy. ring. }
    exact Herr.
Qed.

Lemma div_core_two m1 e1 :
  exists q r e' sft,
    SFdiv_core_binary prec emax (Zpos m1) e1 8388608 (-22)
    = (q, e', new_location 8388608 r)
    /\ 0 <= sft /\ e' = e1 + 22 - sft
    /\ e' <= fexp32 (Zdigits2 (Zpos m1) + e1 - 2)
    /\ Zpos m1 * 2 ^ sft = q * 8388608 + r
    /\ 0 <= r < 8388608 /\ 0 <= q.
Proof.
  unfold SFdiv_core_binary. change (Zdigits2 8388608) with 24.
  rewrite fexp_fexp32.
  replace (Zdigits2 (Zpos m1) + e1 - (24 + -22))
    with (Zdigits2 (Zpos m1) + e1 - 2) by lia.
  set (e' := Z.min (fexp32 (Zdigits2 (Zpos m1) + e1 - 2)) (e1 - -22)).
  set (sft := e1 - -22 - e').
  assert (0 <= sft) as Hs by (unfold sft, e'; lia).
  assert (match sft with
          | 0 => Zpos m1
          | Zpos _ => Z.shiftl (Zpos m1) sft
          | Zneg _ => 0
          end = Zpos m1 * 2 ^ sft) as ->.
  { destruct sft as [|p|p] eqn:E; [change (2 ^ 0) with 1; lia| |lia].
    apply Z.shiftl_mul_pow2. lia. }
  pose proof (Z_div_mod (Zpos m1 * 2 ^ sft) 8388608 ltac:(lia)) as Hdm.
  destruct (Z.div_eucl (Zpos m1 * 2 ^ sft) 8388608) as [q r].
  destruct Hdm as [Hdm Hr].
  exists q, r, e', sft. split; [reflexivity|]. split; [exact Hs|].
  split; [unfold sft; lia|]. split; [unfold e'; lia|].
  split; [lia|]. split; [lia|].
  assert (0 < 2 ^ sft) by (apply Z.pow_pos_nonneg; lia). nia.
Qed.

Lemma new_location_located N q r :
  N = q * 8388608 + r -> 0 <= r < 8388608 ->
  located N 8388608 q (new_location 8388608 r).
Proof.
  intros HN Hr. unfold new_location. change (Z.even 8388608) with true.
  cbv iota. unfold new_location_even.
  destruct (Z.eqb_spec r 0) as [->|Hnz]; [simpl; lia|].
  destruct (Z.compare_spec (2 * r) 8388608); simpl; lia.
Qed.

(** Halving a finite float below [2^128]: finite, one rounding of the
    exact half. *)
Lemma div_two_error s :
  is_finite s = true -> below_overflow s ->
  is_finite (div s two) = true
  /\ (Qabs (exact (div s two) - exact s * (1 # 2))
      <= pow2 (-24) * Qabs (exact s * (1 # 2)) + pow2 (-150))%Q.
Proof.
  intros Hf Hb. destruct s as [sx|sx| |sx m1 e1]; try discriminate.
  - split; [reflexivity|]. apply error_of_equal. simpl. ring.
  - change (div (S754_finite sx m1 e1) two)
      with (let '(mz, ez, lz) :=
              SFdiv_core_binary prec emax (Zpos m1) e1 8388608 (-22) in
            binary_round_aux prec emax (xorb sx false) mz ez lz).
    destruct (div_core_two m1 e1)
      as (q & r & e' & sft & -> & Hs & Ee & Hle & Hdm & Hr & Hq).
    rewrite xorb_false_r.
    change (Zdigits2 (Zpos m1) + e1 <= 128) in Hb.
    set (d1 := Zdigits2 (Zpos m1)) in *.
    set (t := d1 + e1 - 1).
    set (N := Zpos m1 * 2 ^ sft) in *.
    pose proof (new_location_located N q r Hdm Hr) as Hloc.
    pose proof (Zdigits2_upper (Zpos m1) ltac:(lia)) as Hup.
    pose proof (Zdigits2_lower (Zpos m1) ltac:(lia)) as Hlo.
    assert (1 <= d1) as Hd1 by (unfold d1; simpl; lia).
    fold d1 in Hup, Hlo.
    pose proof (pow2_pos (e1 - 1)) as Hpe.
    assert (inject_Z N / inject_Z 8388608 * pow2 e'
            == inject_Z (Zpos m1) * pow2 (e1 - 1))%Q as Ev.
    { unfold N. rewrite inject_Z_mult.
      replace (e1 - 1) with (e' + (sft + -23)) by lia.
      rewrite !pow2_add, (pow2_Z sft) by lia.
      change (pow2 (-23)) with (1 # 8388608)%Q.
      change (inject_Z 8388608) with (8388608 # 1)%Q. field. }
    destruct (round_aux_error sx q e' (new_location 8388608 r) N 8388608 t)
      as (m & e & Er & Hm & He & _ & Herr);
      [exact Hq|lia|exact Hloc| | |].
    { rewrite Ev. unfold t. replace (d1 + e1 - 1) with (d1 + (e1 - 1)) by lia.
      rewrite pow2_add, (pow2_Z d1) by lia.
      apply Qmult_lt_compat_r; [assumption|]. rewrite <- Zlt_Qlt. lia. }
    { intros _. pose proof (fexp32_mono (d1 + e1 - 2) t ltac:(unfold t; lia)). lia. }
    assert (e <= 104) as He104.
    { unfold fexp32, t in *. lia. }
    destruct (finish_exact sx m e Hm ltac:(right; exact He104)) as [Hfin Hexa].
    rewrite Er. split; [exact Hfin|]. rewrite Hexa.
    assert (exact (S754_finite sx m1 e1) * (1 # 2)
            == sgn sx * (inject_Z (Zpos m1) * pow2 (e1 - 1)))%Q as ->.
    { rewrite exact_finite. replace e1 with ((e1 - 1) + 1) at 1 by lia.
      rewrite pow2_add. change (pow2 1) with (2 # 1)%Q. ring. }
    assert (forall a b, sgn sx * a - sgn sx * b == sgn sx * (a - b))%Q as ->
      by (intros; ring).
    rewrite !Qabs_sgn.
    assert (0 < inject_Z (Zpos m1) * pow2 (e1 - 1))%Q as Hpos.
    { apply Qmult_lt_0_compat; [apply inject_Z_pos_lt; reflexivity|assumption]. }
    rewrite (Qabs_pos (inject_Z (Zpos m1) * pow2 (e1 - 1))) by lra.
    rewrite Ev in Herr. eapply Qle_trans; [exact Herr|].
    apply half_ulp_relative. unfold t.
    replace (d1 + e1 - 1 - 1) with ((d1 - 1) + (e1 - 1)) by lia.
    rewrite pow2_add, (pow2_Z (d1 - 1)) by lia.
    apply Qmult_le_compat_r; [|lra]. rewrite <- Zle_Qle. lia.
Qed.

Lemma Qabs_bounds a : (0 <= Qabs a /\ a <= Qabs a /\ - a <= Qabs a)%Q.
Proof.
  split; [apply Qabs_nonneg|]. split; [apply Qle_Qabs|].
  rewrite <- Qabs_opp. apply Qle_Qabs.
Qed.

(** [(lo + hi) / 2] in binary32 against the arithmetic mean: two
    roundings, each within [2^-24] of what it rounds or within [2^-150]. *)
Lemma mean_error lo hi :
  below_overflow lo -> below_overflow hi ->
  is_finite (add lo hi) = true ->
  is_finite (div (add lo hi) two) = true
  /\ (Qabs (exact (div (add lo hi) two) - mean (exact lo) (exact hi))
      <= (1 # 4194304) * Qabs (mean (exact lo) (exact hi)) + pow2 (-149))%Q.
Proof.
  intros Hlo Hhi Hf.
  destruct (add_error lo hi Hf) as [H1 Hb]. specialize (Hb Hlo Hhi).
  destruct (div_two_error (add lo hi) Hf Hb) as [Hfin H2].
  split; [exact Hfin|].
  assert (mean (exact lo) (exact hi) == (exact lo + exact hi) * (1 # 2))%Q as ->
    by (unfold mean; field).
  set (a := (exact lo + exact hi)%Q) in *.
  set (s := exact (add lo hi)) in *.
  set (r := exact (div (add lo hi) two)) in *.
  assert (pow2 (-149) == (2 # 1) * pow2 (-150))%Q as ->
    by (rewrite <- (pow2_succ (-150)); reflexivity).
  change (pow2 (-24)) with (1 # 16777216)%Q in H1, H2.
  pose proof (pow2_pos (-150)) as Hd. set (dl := pow2 (-150)) in *.
  destruct (Qabs_bounds a) as (HA0 & HA1 & HA2).
  assert (Qabs (a * (1 # 2)) == Qabs a * (1 # 2))%Q as EA
    by (rewrite Qabs_Qmult; reflexivity).
  rewrite EA. set (A := Qabs a) in *.
  apply Qabs_Qle_condition in H1. destruct H1 as [H1a H1b].
  assert (Qabs (s * (1 # 2)) <= (A + (1 # 16777216) * A + dl) * (1 # 2))%Q as HS.
  { apply Qabs_Qle_condition. split; lra. }
  apply Qabs_Qle_condition in H2. destruct H2 as [H2a H2b].
  set (S2 := Qabs (s * (1 # 2))) in *.
  clearbody a s r dl A S2.
  apply Qabs_Qle_condition. split; lra.
Qed.

(* ================================================================== *)
(** ** The nearest integer *)
(* ================================================================== *)

Lemma round_half_away_bounds q :
  let z := round_half_away q in
  let n := Qnum q in
  let d := Zpos (Qden q) in
  2 * d * z - d <= 2 * n <= 2 * d * z + d.
Proof.
  cbv zeta. unfold round_half_away.
  set (n := Qnum q). set (d := Zpos (Qden q)).
  assert (0 < d) as Hd by (unfold d; lia).
  destruct (Z.leb_spec 0 n).
  - pose proof (Z.div_mod (2 * n + d) (2 * d) ltac:(lia)) as E.
    pose proof (Z.mod_pos_bound (2 * n + d) (2 * d) ltac:(lia)) as B. lia.
  - pose proof (Z.div_mod (2 * - n + d) (2 * d) ltac:(lia)) as E.
    pose proof (Z.mod_pos_bound (2 * - n + d) (2 * d) ltac:(lia)) as B. lia.
Qed.

Lemma Qle_num_den (a b : Q) :
  (a <= b)%Q <-> Qnum a * Zpos (Qden b) <= Qnum b * Zpos (Qden a).
Proof. reflexivity. Qed.

Lemma inject_Z_minus_half_le z q :
  (inject_Z z - (1 # 2) <= q)%Q <-> 2 * Zpos (Qden q) * z - Zpos (Qden q) <= 2 * Qnum q.
Proof.
  destruct q as [n d]. unfold Qle, Qminus, Qplus, Qopp, inject_Z. cbn [Qnum Qden].
  rewrite ?Pos2Z.inj_mul. lia.
Qed.

Lemma inject_Z_plus_half_ge z q :
  (q <= inject_Z z + (1 # 2))%Q <-> 2 * Qnum q <= 2 * Zpos (Qden q) * z + Zpos (Qden q).
Proof.
  destruct q as [n d]. unfold Qle, Qplus, inject_Z. cbn [Qnum Qden].
  rewrite ?Pos2Z.inj_mul. lia.
Qed.

Lemma inject_Z_minus_half_lt z q :
  (inject_Z z - (1 # 2) < q)%Q <-> 2 * Zpos (Qden q) * z - Zpos (Qden q) < 2 * Qnum q.
Proof.
  destruct q as [n d]. unfold Qlt, Qminus, Qplus, Qopp, inject_Z. cbn [Qnum Qden].
  rewrite ?Pos2Z.inj_mul. lia.
Qed.

Lemma inject_Z_plus_half_gt z q :
  (q < inject_Z z + (1 # 2))%Q <-> 2 * Qnum q < 2 * Zpos (Qden q) * z + Zpos (Qden q).
Proof.
  destruct q as [n d]. unfold Qlt, Qplus, inject_Z. cbn [Qnum Qden].
  rewrite ?Pos2Z.inj_mul. lia.
Qed.

(** The nearest integer is within one half. *)
Lemma round_half_away_near q :
  (inject_Z (round_half_away q) - (1 # 2) <= q
   /\ q <= inject_Z (round_half_away q) + (1 # 2))%Q.
Proof.
  pose proof (round_half_away_bounds q) as H. cbv zeta in H.
  split; [apply inject_Z_minus_half_le|apply inject_Z_plus_half_ge]; lia.
Qed.

(** An integer strictly within one half is the nearest one. *)
Lemma round_half_away_unique q z :
  (inject_Z z - (1 # 2) < q)%Q -> (q < inject_Z z + (1 # 2))%Q ->
  round_half_away q = z.
Proof.
  intros H1 H2.
  apply inject_Z_minus_half_lt in H1. apply inject_Z_plus_half_gt in H2.
  pose proof (round_half_away_bounds q) as H. cbv zeta in H.
  assert (0 < Zpos (Qden q)) by lia. nia.
Qed.

(* ================================================================== *)
(** ** The fixed-point field against the exact product *)
(* ================================================================== *)

Lemma Qabs_le_split a b : (Qabs a <= b)%Q -> (- b <= a /\ a <= b)%Q.
Proof. apply Qabs_Qle_condition. Qed.

(** C7.  For every finite [x] with [|x| <= 327.67] the binary32 product
    [y = x * 100] is finite and within [2^-10] of the exact product.  The
    field is the round-half-away-from-zero of [y]; it lies between -32767
    and 32767, so that the conversion to [int16_t] does not wrap, and the
    symmetric decoder returns it over 100.  The round trip
    [decode (encode x) == round (x, 2)] holds exactly when [y] and the
    exact product round to the same integer, that is, unless a half
    integer separates them: it holds whenever the exact product is
    farther than [2^-10] from every half integer, and whenever the
    binary32 product is exact.  Samples 10.0 and 20.0 give the median
    15.0, the field 1500 and the bytes 0x05, 0xDC. *)
Theorem fixed_point_round_trip (x : float) :
  is_finite x = true ->
  Qle (Qabs (exact x)) (Qmake 32767 100) ->
  is_finite (mul x hundred) = true
  /\ Qle (Qabs (exact (mul x hundred) - exact x * Qmake 100 1)) (Qmake 1 1024)
  /\ - 32767 <= round (mul x hundred) <= 32767
  /\ fixed_point x = round_half_away (exact (mul x hundred))
  /\ Qeq (decode (fixed_point x))
         (Qmake (round_half_away (exact (mul x hundred))) 100)
  /\ (Qeq (decode (fixed_point x)) (round2 x)
      <-> round_half_away (exact (mul x hundred))
          = round_half_away (exact x * Qmake 100 1))
  /\ ((forall k : Z,
         Qlt (Qmake 1 1024)
             (Qabs (exact x * Qmake 100 1 - (inject_Z k + Qmake 1 2)))) ->
      Qeq (decode (fixed_point x)) (round2 x))
  /\ (Qeq (exact (mul x hundred)) (exact x * Qmake 100 1) ->
      Qeq (decode (fixed_point x)) (round2 x))
  /\ median no_stray pair_heap demo_block 2 = Some (pair_heap, fifteen)
  /\ fixed_point fifteen = 1500
  /\ [highByte 1500; lowByte 1500] = [5; 220].
Proof.
  intros Hf Hx.
  set (p := (exact x * Qmake 100 1)%Q).
  assert (Qabs p <= 32767 # 1)%Q as Hp.
  { unfold p. rewrite Qabs_Qmult. change (Qabs (100 # 1)) with (100 # 1)%Q.
    pose proof (Qabs_nonneg (exact x)). lra. }
  destruct (mul_hundred_error x 15 Hf ltac:(lia)) as [Hfin Herr].
  { fold p. change (pow2 15) with (32768 # 1)%Q. lra. }
  fold p in Herr. change (pow2 (fexp32 15 - 1)) with (1 # 1024)%Q in Herr.
  set (y := exact (mul x hundred)) in *.
  destruct (Qabs_le_split _ _ Herr) as [Hy1 Hy2].
  destruct (Qabs_le_split _ _ Hp) as [Hp1 Hp2].
  destruct (round_half_away_near y) as [Hn1 Hn2].
  set (z := round_half_away y) in *.
  assert (- 32767 <= z <= 32767) as Hz.
  { assert (inject_Z (-32768) < inject_Z z)%Q as H1
      by (change (inject_Z (-32768)) with (-32768 # 1)%Q; lra).
    assert (inject_Z z < inject_Z 32768)%Q as H2
      by (change (inject_Z 32768) with (32768 # 1)%Q; lra).
    rewrite <- Zlt_Qlt in H1, H2. lia. }
  assert (round (mul x hundred) = z) as Er by apply round_exact.
  assert (fixed_point x = z) as E.
  { unfold fixed_point, wrap_signed. rewrite Er.
    change (2 ^ (16 - 1)) with 32768. change (2 ^ 16) with 65536.
    rewrite Z.mod_small by lia. lia. }
  assert (Qeq (decode (fixed_point x)) (round2 x)
          <-> z = round_half_away p) as Hiff.
  { rewrite E. unfold decode, round2. fold p. unfold Qeq. cbn [Qnum Qden]. lia. }
  split; [exact Hfin|]. split; [exact Herr|].
  split; [rewrite Er; exact Hz|]. split; [exact E|].
  split; [rewrite E; reflexivity|]. split; [exact Hiff|].
  split.
  { intros Hk. apply Hiff. apply round_half_away_unique.
    - destruct (round_half_away_near p) as [Hq1 _].
      pose proof (Hk (round_half_away p + -1)) as Hk1.
      rewrite inject_Z_plus in Hk1. change (inject_Z (-1)) with (-1 # 1)%Q in Hk1.
      rewrite Qabs_pos in Hk1 by lra. lra.
    - destruct (round_half_away_near p) as [_ Hq2].
      pose proof (Hk (round_half_away p)) as Hk2.
      rewrite Qabs_neg in Hk2 by lra. lra. }
  split.
  { intros Hex. apply Hiff. unfold z. by apply round_half_away_Qeq. }
  split; [vm_compute; reflexivity|].
  split; vm_compute; reflexivity.
Qed.

(** At 20.98f the binary32 product, 2098.0, is not the exact product,
    2097.99995...; both round to 2098 and the round trip holds. *)
Lemma fixed_point_round_trip_witness :
  is_finite pm_20_98 = true
  /\ Qle (Qabs (exact pm_20_98)) (Qmake 32767 100)
  /\ ~ Qeq (exact (mul pm_20_98 hundred)) (exact pm_20_98 * Qmake 100 1)
  /\ fixed_point pm_20_98 = 2098
  /\ Qeq (decode (fixed_point pm_20_98)) (round2 pm_20_98).
Proof.
  split; [reflexivity|].
  split; [vm_compute; discriminate|].
  split; [vm_compute; discriminate|].
  split; [vm_compute; reflexivity|].
  assert (Qle (Qabs (exact pm_20_98)) (Qmake 32767 100)) as Hx
    by (vm_compute; discriminate).
  destruct (fixed_point_round_trip pm_20_98 eq_refl Hx)
    as (_ & _ & _ & _ & _ & Hiff & _).
  apply Hiff. vm_compute. reflexivity.
Defined.

(** The same at 0.1f: the binary32 product is 10.0, the exact product
    10.0000001...; the field is 10. *)
Lemma round_trip_at_a_tenth :
  is_finite tenth = true
  /\ ~ Qeq (exact (mul tenth hundred)) (exact tenth * Qmake 100 1)
  /\ fixed_point tenth = 10
  /\ Qeq (decode (fixed_point tenth)) (round2 tenth).
Proof.
  split; [reflexivity|]. split; [vm_compute; discriminate|].
  split; vm_compute; reflexivity.
Qed.

(* ================================================================== *)
(** ** The median against the arithmetic mean *)
(* ================================================================== *)

Lemma same_value_exact x y :
  same_value x y -> exact x = exact y /\ is_finite x = is_finite y.
Proof.
  unfold same_value.
  destruct x as [[]|[]| |sx mx ex], y as [[]|[]| |sy my ey]; simpl;
    intros E; try discriminate E; try (split; reflexivity).
  by injection E as -> -> ->.
Qed.

Lemma midpoint_odd s mid :
  Nat.even (length s) = false -> s !! (length s / 2)%nat = Some mid ->
  midpoint s = mid.
Proof.
  intros Hp Hm. unfold midpoint. rewrite Hp, nth_lookup, Hm. reflexivity.
Qed.

Lemma midpoint_even s lo hi :
  Nat.even (length s) = true ->
  s !! (length s / 2 - 1)%nat = Some lo -> s !! (length s / 2)%nat = Some hi ->
  midpoint s = div (add lo hi) two.
Proof.
  intros Hp Hl Hh. unfold midpoint. rewrite Hp, !nth_lookup, Hl, Hh. reflexivity.
Qed.

(** The sum of two finite floats is never a NaN: past the largest finite
    float it is an infinity. *)
Lemma add_overflow lo hi :
  is_finite lo = true -> is_finite hi = true ->
  is_finite (add lo hi) = false ->
  exists sg, add lo hi = S754_infinity sg.
Proof.
  destruct lo as [sx|sx| |sx mx ex], hi as [sy|sy| |sy my ey];
    try discriminate; intros _ _; unfold add, SFadd;
    try (destruct sx, sy; discriminate); try discriminate.
  set (S := cond_Zopp sx _ + cond_Zopp sy _). clearbody S.
  assert (forall s n e,
            is_finite (binary_round prec emax s n e) = false ->
            exists sg, binary_round prec emax s n e = S754_infinity sg) as Hround.
  { intros s n e.
    destruct (binary_round_error s n e) as (m & e_r & -> & Hm & _).
    destruct m as [|p|p]; [discriminate| |lia].
    unfold finish. destruct (e_r <=? emax - prec); [discriminate|].
    intros _. by exists s. }
  destruct S as [|n|n]; unfold binary_normalize; [discriminate|apply Hround..].
Qed.

Lemma same_value_infinity r sg :
  same_value r (S754_infinity sg) -> r = S754_infinity sg.
Proof. unfold same_value. destruct r as [[]|[]| |]; simpl; congruence. Qed.

(** C5.  Over [m >= 1] samples none of which is a NaN (the finite ones in
    particular), [median] returns, and for every ascending arrangement [s]
    of the samples its value is the even/odd midpoint rule on [s]: of an
    odd count the middle element; of an even count the binary32
    [(lo + hi) / 2.0] of the two middle elements, which, [lo] and [hi]
    being binary32 values whose sum does not overflow, is finite and off
    their arithmetic mean by at most [2^-22] of its magnitude plus
    [2^-149], the two roundings of the sum and of the half, and which is
    an infinity when the sum of the finite [lo] and [hi] overflows.  The
    value is the same for every array holding a rearrangement of the
    samples.
    Equality is that of the values, as C's [==] has it: the two zeros
    are one value (an array of zeros of both signs can be arranged
    ascending in several ways); without a negative zero among the
    samples the results are identical. *)
Theorem median_midpoint_within_rounding
    (stray : addr -> Z -> float) (h : heap) (samples : addr)
    (arr : list float) (m : Z) :
  h !! samples = Some arr ->
  1 <= m <= Z.of_nat (length arr) ->
  no_nan (take (Z.to_nat m) arr) ->
  exists r,
    median stray h samples m = Some (h, r)
    /\ (forall s, s ≡ₚ take (Z.to_nat m) arr -> Sorted le s ->
          same_value r (midpoint s)
          /\ (Forall (fun x => x <> S754_zero true) s -> r = midpoint s)
          /\ (Z.odd m = true -> forall mid,
                s !! (Z.to_nat m / 2)%nat = Some mid -> same_value r mid)
          /\ (Z.even m = true -> forall lo hi,
                s !! (Z.to_nat m / 2 - 1)%nat = Some lo ->
                s !! (Z.to_nat m / 2)%nat = Some hi ->
                same_value r (div (add lo hi) two)
                /\ (valid_binary prec emax lo = true ->
                    valid_binary prec emax hi = true ->
                    is_finite (add lo hi) = true ->
                    is_finite r = true
                    /\ Qle (Qabs (exact r - mean (exact lo) (exact hi)))
                           ((1 # 4194304) * Qabs (mean (exact lo) (exact hi))
                            + pow2 (-149)))
                /\ (is_finite lo = true -> is_finite hi = true ->
                    is_finite (add lo hi) = false ->
                    exists sg, r = S754_infinity sg)))
    /\ (forall (h' : heap) samples' arr',
          h' !! samples' = Some arr' ->
          m <= Z.of_nat (length arr') ->
          take (Z.to_nat m) arr' ≡ₚ take (Z.to_nat m) arr ->
          exists r', median stray h' samples' m = Some (h', r')
                     /\ same_value r' r
                     /\ (Forall (fun x => x <> S754_zero true) arr' -> r' = r)).
Proof.
  intros Hs Hm Hn.
  destruct (median_list stray h samples arr m Hs Hm) as (l & Hmed & Hl & Hp).
  assert (no_nan l) as Hnl by (unfold no_nan; by rewrite Hp).
  exists (midpoint l). split; [done|]. split.
  - intros s Hps Hss.
    assert (unsigned_zero <$> l = unsigned_zero <$> s) as E.
    { apply sorted_perm_values; [done..|]. by rewrite Hp, Hps. }
    pose proof (midpoint_same_value l s E) as Hsv.
    assert (length s = Z.to_nat m) as Hlen by (rewrite Hps, length_take; lia).
    assert (Nat.even (length s) = Z.even m) as Hpar
      by (rewrite Hlen; apply even_to_nat; lia).
    split; [exact Hsv|]. split.
    { intros Hz.
      assert (Forall (fun x => x <> S754_zero true) l) as Hz'
        by (by rewrite Hp, <- Hps).
      rewrite !unsigned_zero_fmap_id in E by done. by rewrite E. }
    split.
    { intros Hodd mid Hmid. rewrite <- Hlen in Hmid.
      rewrite <- (midpoint_odd s mid); [exact Hsv| |exact Hmid].
      rewrite Hpar, <- Z.negb_odd, Hodd. reflexivity. }
    intros Hev lo hi Hlo Hhi. rewrite <- Hlen in Hlo, Hhi.
    assert (midpoint s = div (add lo hi) two) as Emid
      by (apply midpoint_even; [by rewrite Hpar|exact Hlo|exact Hhi]).
    rewrite Emid in Hsv. split; [exact Hsv|]. split.
    { intros Hvl Hvh Hfin.
      destruct (same_value_exact _ _ Hsv) as [-> ->].
      apply mean_error; [by apply valid_below_overflow..|exact Hfin]. }
    intros Hfl Hfh Hinf.
    destruct (add_overflow lo hi Hfl Hfh Hinf) as [sg Esum].
    rewrite Esum in Hsv. exists (xorb sg false).
    by apply same_value_infinity.
  - intros h' samples' arr' Hs' Hm' Hp'.
    destruct (median_list stray h' samples' arr' m Hs') as (l' & Hmed' & Hl' & Hpl');
      [lia|].
    assert (unsigned_zero <$> l' = unsigned_zero <$> l) as E.
    { symmetry. apply sorted_perm_values; [done..|]. by rewrite Hp, Hpl', Hp'. }
    exists (midpoint l'). split; [done|].
    split; [by apply midpoint_same_value|].
    intros Hz.
    assert (Forall (fun x => x <> S754_zero true) l') as Hz1.
    { rewrite Hpl'. by apply Forall_take. }
    assert (Forall (fun x => x <> S754_zero true) l) as Hz2
      by (by rewrite Hp, <- Hp', <- Hpl').
    rewrite !unsigned_zero_fmap_id in E by done. by rewrite E.
Qed.

Lemma median_midpoint_within_rounding_witness :
  pair_heap !! demo_block = Some pair_cells
  /\ 1 <= 2 <= Z.of_nat (length pair_cells)
  /\ no_nan (take (Z.to_nat 2) pair_cells)
  /\ exists r,
       median no_stray pair_heap demo_block 2 = Some (pair_heap, r)
       /\ (forall s, s ≡ₚ take (Z.to_nat 2) pair_cells -> Sorted le s ->
             same_value r (midpoint s)
             /\ (Forall (fun x => x <> S754_zero true) s -> r = midpoint s)
             /\ (Z.odd 2 = true -> forall mid,
                   s !! (Z.to_nat 2 / 2)%nat = Some mid -> same_value r mid)
             /\ (Z.even 2 = true -> forall lo hi,
                   s !! (Z.to_nat 2 / 2 - 1)%nat = Some lo ->
                   s !! (Z.to_nat 2 / 2)%nat = Some hi ->
                   same_value r (div (add lo hi) two)
                   /\ (valid_binary prec emax lo = true ->
                       valid_binary prec emax hi = true ->
                       is_finite (add lo hi) = true ->
                       is_finite r = true
                       /\ Qle (Qabs (exact r - mean (exact lo) (exact hi)))
                              ((1 # 4194304) * Qabs (mean (exact lo) (exact hi))
                               + pow2 (-149)))
                   /\ (is_finite lo = true -> is_finite hi = true ->
                       is_finite (add lo hi) = false ->
                       exists sg, r = S754_infinity sg)))
       /\ (forall (h' : heap) samples' arr',
             h' !! samples' = Some arr' ->
             2 <= Z.of_nat (length arr') ->
             take (Z.to_nat 2) arr' ≡ₚ take (Z.to_nat 2) pair_cells ->
             exists r', median no_stray h' samples' 2 = Some (h', r')
                        /\ same_value r' r
                        /\ (Forall (fun x => x <> S754_zero true) arr' -> r' = r)).
Proof.
  split; [reflexivity|]. split; [simpl; lia|].
  split; [repeat constructor|].
  apply (median_midpoint_within_rounding no_stray pair_heap demo_block pair_cells 2);
    [reflexivity|simpl; lia|repeat constructor].
Defined.

(** The samples 10.0 and 20.0: two binary32 values, already ascending,
    whose sum is finite; their median is 15.0, their arithmetic mean. *)
Lemma median_of_ten_and_twenty :
  Forall (fun x => valid_binary prec emax x = true) pair_cells
  /\ Sorted le pair_cells
  /\ is_finite (add (of_Z 10) (of_Z 20)) = true
  /\ median no_stray pair_heap demo_block 2 = Some (pair_heap, fifteen)
  /\ Qeq (exact fifteen) (mean (exact (of_Z 10)) (exact (of_Z 20))).
Proof.
  split; [repeat constructor|].
  split; [repeat constructor; vm_compute; reflexivity|].
  split; [reflexivity|].
  split; vm_compute; reflexivity.
Qed.

(** C5 as the specification words it: of an even count of finite
    samples [median] is the arithmetic mean of the two middle elements.
    Of two samples of 3e38 the mean is 3e38, a binary32 value below
    [2^128]; their sum overflows, and [median] returns +infinity. *)
Lemma median_mean_overflows :
  is_finite huge = true
  /\ valid_binary prec emax huge = true
  /\ huge_heap !! demo_block = Some huge_cells
  /\ Sorted le huge_cells
  /\ median no_stray huge_heap demo_block 2
     = Some (huge_heap, S754_infinity false)
  /\ is_finite (S754_infinity false) = false
  /\ Qeq (mean (exact huge) (exact huge)) (exact huge)
  /\ Qlt (exact huge) (pow2 128).
Proof.
  split; [reflexivity|]. split; [reflexivity|]. split; [reflexivity|].
  split; [repeat constructor; vm_compute; reflexivity|].
  split; [vm_compute; reflexivity|]. split; [reflexivity|].
  split; vm_compute; reflexivity.
Qed.
